(** * encz: progress parsing of the HandBrake and FFmpeg backends

    A shallow embedding of the progress-stream code of [handbrake/handbrake.go]
    and of the [ffmpeg] package, with the properties the specification states
    about it.

    Conventions.  A Go [string] is a Rocq [string] (a sequence of bytes, one
    [ascii] per byte); [int], [int64] and [time.Duration] are [Z] with the
    64-bit wrap-around written out where the code can reach it; a [float64]
    is a [spec_float] of the Standard Library at precision 53 and maximal
    exponent 1024.  A push iterator [iter.Seq[V]] is a function that threads
    the consumer's state through the calls of [yield]. *)

From Stdlib Require Import ZArith List String Ascii Bool Lia.
From Stdlib Require Import Floats.SpecFloat.
Import ListNotations.

Local Open Scope string_scope.
Local Open Scope Z_scope.

(** ** Strings as byte sequences *)

Module Str.

(** [currentLine.Len() > 0] and [s != ""] *)
Definition nonempty (s : string) : bool :=
  match s with EmptyString => false | String _ _ => true end.

Fixpoint of_list (l : list ascii) : string :=
  match l with [] => "" | c :: l' => String c (of_list l') end.

Fixpoint to_list (s : string) : list ascii :=
  match s with EmptyString => [] | String c s' => c :: to_list s' end.

Fixpoint forallb (p : ascii -> bool) (s : string) : bool :=
  match s with EmptyString => true | String c s' => p c && forallb p s' end.

Fixpoint existsb (p : ascii -> bool) (s : string) : bool :=
  match s with EmptyString => false | String c s' => p c || existsb p s' end.

End Str.

Definition CR : ascii := Eval cbv in ascii_of_nat 13.
Definition LF : ascii := Eval cbv in ascii_of_nat 10.
Definition TAB : ascii := Eval cbv in ascii_of_nat 9.
Definition VT : ascii := Eval cbv in ascii_of_nat 11.
Definition FF : ascii := Eval cbv in ascii_of_nat 12.

(** ** Push iterators ([iter.Seq])

    [func(yield func(V) bool)]: the body calls [yield] on each element and
    stops as soon as [yield] answers [false].  The consumer's state [S] is
    what the loop body of the [for ... range] closes over. *)

Definition Seq (V : Type) : Type := forall S : Type, (V -> S -> S * bool) -> S -> S.

(** A [for v := range seq] loop that never breaks and records what it sees. *)
Definition collect {V : Type} (seq : Seq V) : list V :=
  rev (seq (list V) (fun v acc => (v :: acc, true)) []).

(** A loop that breaks once it has seen [n] elements. *)
Definition collect_upto {V : Type} (n : nat) (seq : Seq V) : list V :=
  rev (seq (list V) (fun v acc => (v :: acc, Nat.ltb (S (List.length acc)) n)) []).

(** ** [io.Reader] read through a one-byte buffer

    Every [reader.Read(buf)] with [len(buf) = 1] returns [(n, err)] with
    [n] 0 or 1.  A finite run of the reading loop is a sequence of calls
    that return [err == nil] followed by one call that returns an error
    ([io.EOF] or another one), possibly together with a last byte. *)

Record Reader := {
  reads : list (option ascii);   (* results with err == nil: no byte, or one *)
  last_byte : option ascii;      (* n of the call that returns err != nil *)
  last_eof : bool                (* err == io.EOF *)
}.

(** The bytes a run delivers with [err == nil]. *)
Fixpoint bytes_of (rs : list (option ascii)) : list ascii :=
  match rs with
  | [] => []
  | None :: rs' => bytes_of rs'
  | Some b :: rs' => b :: bytes_of rs'
  end.

(** A stream delivered a byte at a time and closed by [0, io.EOF], as a pipe is. *)
Definition reader_of_bytes (bs : list ascii) : Reader :=
  {| reads := map Some bs; last_byte := None; last_eof := true |}.

(** ** [float64]

    IEEE 754 binary64 values are the [spec_float]s that [valid_binary]
    accepts; the arithmetic is the Standard Library's specification of it
    (round to nearest, ties to even). *)

Module F64.

Definition prec : Z := 53.
Definition emax : Z := 1024.

Definition float64 : Type := spec_float.

Definition is_float64 (x : float64) : Prop := valid_binary prec emax x = true.

Definition mul : float64 -> float64 -> float64 := SFmul prec emax.
Definition div : float64 -> float64 -> float64 := SFdiv prec emax.
Definition add : float64 -> float64 -> float64 := SFadd prec emax.

(** [x == y], [x < y] and [x <= y]: false as soon as one side is NaN. *)
Definition eqb : float64 -> float64 -> bool := SFeqb.
Definition ltb : float64 -> float64 -> bool := SFltb.
Definition leb : float64 -> float64 -> bool := SFleb.

Definition is_nan (x : float64) : bool :=
  match x with S754_nan => true | _ => false end.

(** [float64(n)] for an integer [n] *)
Definition of_int (n : Z) : float64 := binary_normalize prec emax n 0 false.

Definition zero : float64 := S754_zero false.
Definition one : float64 := Eval cbv in of_int 1.
Definition ten : float64 := Eval cbv in of_int 10.
Definition hundred : float64 := Eval cbv in of_int 100.
Definition half : float64 := Eval cbv in div (of_int 1) (of_int 2).
Definition inf : float64 := S754_infinity false.

(** The built-in [min(x, y)] on floats: NaN if either is NaN, and
    [-0.0] is below [0.0]. *)
Definition min (x y : float64) : float64 :=
  match x, y with
  | S754_nan, _ | _, S754_nan => S754_nan
  | S754_zero sx, S754_zero sy => S754_zero (sx || sy)
  | _, _ => if ltb y x then y else x
  end.

(** [math.Round]: the nearest integer, halves away from zero; [±0], [±Inf]
    and NaN are returned as they are, as is every [x] with [|x| >= 2^52]. *)
Definition Round (x : float64) : float64 :=
  match x with
  | S754_finite s m e =>
      if 0 <=? e then x
      else
        match (Z.pos m + 2 ^ (- e - 1)) / 2 ^ (- e) with
        | Z.pos q => binary_round prec emax s q 0
        | _ => S754_zero s
        end
  | _ => x
  end.

(** The integer part of a finite [x] (truncation toward zero). *)
Definition trunc (x : float64) : option Z :=
  match x with
  | S754_zero _ => Some 0
  | S754_finite s m e =>
      Some (cond_Zopp s (if 0 <=? e then Z.pos m * 2 ^ e else Z.pos m / 2 ^ (- e)))
  | _ => None
  end.

Definition min_int64 : Z := - 2 ^ 63.
Definition max_int64 : Z := 2 ^ 63 - 1.

Definition in_int64 (n : Z) : bool := (min_int64 <=? n) && (n <=? max_int64).

(** [int64(x)]: truncation toward zero.  When [x] is NaN, infinite or out
    of range the language leaves the result to the implementation:
    [indefinite x] stands for it. *)
Definition to_int64 (indefinite : float64 -> Z) (x : float64) : Z :=
  match trunc x with
  | Some n => if in_int64 n then n else indefinite x
  | None => indefinite x
  end.

(** [math.Frexp] and [math.Ldexp] *)
Definition Frexp (x : float64) : float64 * Z :=
  match x with
  | S754_finite _ _ _ => SFfrexp prec emax x
  | _ => (x, 0)
  end.

Definition Ldexp (frac : float64) (exp : Z) : float64 := SFldexp prec emax frac exp.

(** The loop of [math.Pow] that multiplies [a1 * 2^ae] by [x^yi], with
    [x = x1 * 2^xe] and [i] running over the bits of [yi]. *)
Fixpoint pow_loop (fuel : nat) (i : Z) (x1 : float64) (xe : Z)
         (a1 : float64) (ae : Z) : float64 * Z :=
  match fuel with
  | O => (a1, ae)
  | S fuel' =>
      if i =? 0 then (a1, ae)
      else if (xe <? - 4096) || (4096 <? xe) then (a1, ae + xe)
      else
        let '(a1', ae') := if Z.odd i then (mul a1 x1, ae + xe) else (a1, ae) in
        let x1' := mul x1 x1 in
        let xe' := Z.shiftl xe 1 in
        let '(x1'', xe'') :=
          if ltb x1' half then (add x1' x1', xe' - 1) else (x1', xe') in
        pow_loop fuel' (Z.shiftr i 1) x1'' xe'' a1' ae'
  end.

(** [math.Pow(x, float64(n))] for a finite [x > 0] and an [int] [n], as the
    portable [pow] of package [math] computes it.  The exponent is the
    conversion of an integer, so [Modf] leaves no fractional part and the
    [Exp]/[Log] branch is never taken; the cases on a NaN, zero, infinite or
    negative [x] do not arise for the base 10 the program uses. *)
Definition Pow (x : float64) (n : Z) : float64 :=
  let y := of_int n in
  if eqb y zero || eqb x one then one
  else if eqb y one then x
  else
    match trunc (SFabs y) with
    | None => S754_nan
    | Some yi =>
        if 2 ^ 63 <=? yi then
          if Bool.eqb (ltb (SFabs x) one) (ltb zero y) then zero else inf
        else
          let '(x1, xe) := Frexp x in
          let '(a1, ae) := pow_loop 64 yi x1 xe one 0 in
          let '(a1', ae') := if ltb y zero then (div one a1, - ae) else (a1, ae) in
          Ldexp a1' ae'
    end.

End F64.
(** ** Package [strconv] and the [fmt] verbs the program uses *)

Module strconv.
Import F64.

Definition code (c : ascii) : Z := Z.of_N (N_of_ascii c).

(** ['0' <= c && c <= '9'] *)
Definition is_digit (c : ascii) : bool := (48 <=? code c) && (code c <=? 57).

Definition dec_digit (c : ascii) : option Z :=
  if is_digit c then Some (code c - 48) else None.

(** [lower(c) = c | ('x' - 'X')] *)
Definition lower (c : ascii) : Z := Z.lor (code c) 32.

(** ['a' <= lower(c) && lower(c) <= 'f'], with the digit's value *)
Definition hex_letter (c : ascii) : option Z :=
  if (97 <=? lower c) && (lower c <=? 102) then Some (lower c - 97 + 10) else None.

Definition digit_char (d : Z) : ascii := ascii_of_N (Z.to_N (48 + d)).

Fixpoint digits_loop (fuel : nat) (n : Z) (acc : string) : string :=
  match fuel with
  | O => acc
  | S fuel' =>
      let acc' := String (digit_char (n mod 10)) acc in
      if n <? 10 then acc' else digits_loop fuel' (n / 10) acc'
  end.

(** The decimal digits of [n >= 0]. *)
Definition digits (n : Z) : string := digits_loop (S (Z.to_nat (Z.log2 n))) n "".

(** [strconv.Itoa(n)], which is also [fmt.Sprintf("%d", n)] *)
Definition Itoa (n : Z) : string :=
  if n <? 0 then String "-" (digits (- n)) else digits n.

(** The digits of [s] read in base 10, when [s] is made of digits only. *)
Fixpoint read_digits (s : string) (acc : Z) : option Z :=
  match s with
  | EmptyString => Some acc
  | String c s' =>
      match dec_digit c with
      | Some d => read_digits s' (acc * 10 + d)
      | None => None
      end
  end.

(** [strconv.ParseInt(s, 10, 64)]: [Some n] when [err == nil].  A base-10
    number is an optional sign followed by one digit or more, and it must
    fit an [int64]. *)
Definition ParseInt (s : string) : option Z :=
  let '(neg, s1) :=
    match s with
    | String "+" r => (false, r)
    | String "-" r => (true, r)
    | _ => (false, s)
    end in
  match s1 with
  | EmptyString => None
  | _ =>
      match read_digits s1 0 with
      | Some un =>
          let n := if neg then - un else un in
          if in_int64 n then Some n else None
      | None => None
      end
  end.

(** *** [ParseFloat(s, 64)] *)

Inductive float_result :=
| FloatOk (f : float64)        (* err == nil *)
| FloatRange (f : float64)     (* ±Inf together with ErrRange *)
| FloatSyntax.                 (* 0 together with ErrSyntax *)

(** The value [f] of [f, err := ParseFloat(...)]. *)
Definition float_value (r : float_result) : float64 :=
  match r with FloatOk f | FloatRange f => f | FloatSyntax => zero end.

(** [s] is [word], letter case apart ([word] is in lower case). *)
Fixpoint equal_fold (s word : string) : bool :=
  match s, word with
  | EmptyString, EmptyString => true
  | String c s', String w word' =>
      let c' := if (65 <=? code c) && (code c <=? 90) then code c + 32 else code c in
      (c' =? code w) && equal_fold s' word'
  | _, _ => false
  end.

(** [special]: the whole of [s] is an infinity or a NaN. *)
Definition special (s : string) : option float64 :=
  let inf_word r := equal_fold r "inf" || equal_fold r "infinity" in
  match s with
  | String "+" r => if inf_word r then Some (S754_infinity false) else None
  | String "-" r => if inf_word r then Some (S754_infinity true) else None
  | _ =>
      if inf_word s then Some (S754_infinity false)
      else if equal_fold s "nan" then Some S754_nan
      else None
  end.

(** The state of the digit loop of [readFloat]; [mant] holds every digit
    read (the 19 that [readFloat] keeps and those it drops and [decimal]
    reads again). *)
Record mant_state := {
  sawdot : bool; sawdigits : bool; nd : Z; dp : Z; mant : Z; underscores : bool
}.

Fixpoint read_mantissa (base16 : bool) (s : string) (st : mant_state)
  : mant_state * string :=
  match s with
  | EmptyString => (st, s)
  | String c s' =>
      let digit d :=
        {| sawdot := sawdot st; sawdigits := true; nd := nd st + 1; dp := dp st;
           mant := mant st * (if base16 then 16 else 10) + d;
           underscores := underscores st |} in
      if Ascii.eqb c "_" then
        read_mantissa base16 s'
          {| sawdot := sawdot st; sawdigits := sawdigits st; nd := nd st; dp := dp st;
             mant := mant st; underscores := true |}
      else if Ascii.eqb c "." then
        if sawdot st then (st, s)
        else read_mantissa base16 s'
               {| sawdot := true; sawdigits := sawdigits st; nd := nd st; dp := nd st;
                  mant := mant st; underscores := underscores st |}
      else
        match dec_digit c with
        | Some d =>
            if (d =? 0) && (nd st =? 0) then   (* ignore leading zeros *)
              read_mantissa base16 s'
                {| sawdot := sawdot st; sawdigits := true; nd := nd st; dp := dp st - 1;
                   mant := mant st; underscores := underscores st |}
            else read_mantissa base16 s' (digit d)
        | None =>
            match (if base16 then hex_letter c else None) with
            | Some d => read_mantissa base16 s' (digit d)
            | None => (st, s)
            end
        end
  end.

(** The digits of the exponent; [e] stops growing past 10000. *)
Fixpoint read_exponent (s : string) (e : Z) (us : bool) : Z * bool * string :=
  match s with
  | EmptyString => (e, us, s)
  | String c s' =>
      if Ascii.eqb c "_" then read_exponent s' e true
      else match dec_digit c with
           | Some d => read_exponent s' (if e <? 10000 then e * 10 + d else e) us
           | None => (e, us, s)
           end
  end.

(** [underscoreOK]: an underscore stands only between digits, or between
    a base prefix and a digit. *)
Fixpoint underscoreOK_loop (hex : bool) (s : string) (saw : ascii) : bool :=
  match s with
  | EmptyString => negb (Ascii.eqb saw "_")
  | String c s' =>
      if is_digit c || (hex && match hex_letter c with Some _ => true | None => false end)
      then underscoreOK_loop hex s' "0"
      else if Ascii.eqb c "_" then
        if Ascii.eqb saw "0" then underscoreOK_loop hex s' "_" else false
      else if Ascii.eqb saw "_" then false
      else underscoreOK_loop hex s' "!"
  end.

Definition underscoreOK (s : string) : bool :=
  let s1 := match s with String "+" r | String "-" r => r | _ => s end in
  match s1 with
  | String "0" (String c r) =>
      if (lower c =? 98) || (lower c =? 111) || (lower c =? 120)
      then underscoreOK_loop (lower c =? 120) r "0"
      else underscoreOK_loop false s1 "^"
  | _ => underscoreOK_loop false s1 "^"
  end.

(** The quotient [n / d] of two positive integers, rounded to the nearest
    [float64] (ties to even), with the sign [neg]. *)
Definition round_ratio (neg : bool) (n d : positive) : float64 :=
  let '(q, e, l) := SFdiv_core_binary prec emax (Z.pos n) 0 (Z.pos d) 0 in
  binary_round_aux prec emax neg q e l.

(** [mant * base^e] rounded to the nearest [float64]; the base is 10, or 2
    for a hexadecimal mantissa. *)
Definition scaled_value (neg base2 : bool) (mant e : Z) : float64 :=
  match mant with
  | Z.pos m =>
      if base2 then binary_round prec emax neg m e
      else if 0 <=? e then binary_round prec emax neg (m * Z.to_pos (10 ^ e)) 0
      else round_ratio neg m (Z.to_pos (10 ^ (- e)))
  | _ => S754_zero neg
  end.

(** [ParseFloat(s, 64)]: [special], then [readFloat] on the whole of [s]
    and the conversion of the number read.  A well-formed number too large
    for a [float64] gives [±Inf] and [ErrRange]. *)
Definition ParseFloat (s : string) : float_result :=
  match special s with
  | Some f => FloatOk f
  | None =>
      (* optional sign *)
      let '(neg, s1) :=
        match s with
        | String "+" r => (false, r)
        | String "-" r => (true, r)
        | _ => (false, s)
        end in
      (* base prefix: [i+2 < len(s) && s[i] == '0' && lower(s[i+1]) == 'x'] *)
      let '(hex, s2) :=
        match s1 with
        | String "0" (String x (String c r)) =>
            if lower x =? 120 then (true, String c r) else (false, s1)
        | _ => (false, s1)
        end in
      let '(st, s3) :=
        read_mantissa hex s2
          {| sawdot := false; sawdigits := false; nd := 0; dp := 0; mant := 0;
             underscores := false |} in
      if negb (sawdigits st) then FloatSyntax
      else
        let dp0 := if sawdot st then dp st else nd st in
        (* the exponent of the last digit read, in digits, or in bits when [hex] *)
        let scale := if hex then 4 * (dp0 - nd st) else dp0 - nd st in
        let finish (e : Z) (us : bool) (rest : string) : float_result :=
          match rest with
          | EmptyString =>
              if us && negb (underscoreOK s) then FloatSyntax
              else
                let f := scaled_value neg hex (mant st) (scale + e) in
                match f with
                | S754_infinity _ => FloatRange f
                | _ => FloatOk f
                end
          | _ => FloatSyntax
          end in
        match s3 with
        | String c s4 =>
            if lower c =? (if hex then 112 else 101) then
              (* [expChar]: 'p' after a hexadecimal mantissa, 'e' otherwise *)
              let '(esign, s5) :=
                match s4 with
                | String "+" r => (1, r)
                | String "-" r => (-1, r)
                | _ => (1, s4)
                end in
              match s5 with
              | String d _ =>
                  if is_digit d then
                    let '(e, us, rest) := read_exponent s5 0 (underscores st) in
                    finish (e * esign) us rest
                  else FloatSyntax
              | EmptyString => FloatSyntax
              end
            else if hex then FloatSyntax   (* must have exponent *)
            else finish 0 (underscores st) s3
        | EmptyString =>
            if hex then FloatSyntax else finish 0 (underscores st) s3
        end
  end.

(** *** [fmt.Sprintf("%.<p>f", x)] *)

(** [n / d] rounded to the nearest integer, ties to even ([n >= 0], [d > 0]). *)
Definition div_half_even (n d : Z) : Z :=
  let q := n / d in
  let r := n mod d in
  match 2 * r ?= d with
  | Lt => q
  | Gt => q + 1
  | Eq => if Z.even q then q else q + 1
  end.

Fixpoint zeros (n : nat) : string :=
  match n with O => "" | S n' => String "0" (zeros n') end.

(** The verb [%.<p>f] (the flag [0] of [%0.1f] changes nothing without a
    width): the exact value of [x], rounded half to even at [p] decimals. *)
Definition Sprintf_f (p : nat) (x : float64) : string :=
  let fixed (neg : bool) (n : Z) : string :=
    let scale := 10 ^ Z.of_nat p in
    let frac := digits (n mod scale) in
    (if neg then "-" else "") ++ digits (n / scale) ++
    match p with
    | O => ""
    | _ => "." ++ zeros (p - String.length frac) ++ frac
    end in
  match x with
  | S754_nan => "NaN"
  | S754_infinity s => if s then "-Inf" else "+Inf"
  | S754_zero s => fixed s 0
  | S754_finite s m e =>
      fixed s (if 0 <=? e then Z.pos m * 2 ^ e * 10 ^ Z.of_nat p
               else div_half_even (Z.pos m * 10 ^ Z.of_nat p) (2 ^ (- e)))
  end.

(** *** The value that comes with an error *)

(** The [n] of [n, _ := strconv.ParseInt(s, 10, 64)]: 0 when [s] is no
    number, the nearest [int64] when the number is out of range. *)
Definition ParseInt_value (s : string) : Z :=
  let '(neg, s1) :=
    match s with
    | String "+" r => (false, r)
    | String "-" r => (true, r)
    | _ => (false, s)
    end in
  match s1 with
  | EmptyString => 0
  | _ =>
      match read_digits s1 0 with
      | Some un => Z.max min_int64 (Z.min max_int64 (if neg then - un else un))
      | None => 0
      end
  end.

End strconv.
(** ** Packages [strings] and [path/filepath] *)

Module strings.

Fixpoint rev_append (s acc : string) : string :=
  match s with EmptyString => acc | String c s' => rev_append s' (String c acc) end.

Definition rev (s : string) : string := rev_append s "".

(** [strings.HasPrefix(s, prefix)] *)
Definition HasPrefix (s prefix : string) : bool := String.prefix prefix s.

Fixpoint drop (n : nat) (s : string) : string :=
  match n, s with
  | S n', String _ s' => drop n' s'
  | _, _ => s
  end.

Fixpoint take (n : nat) (s : string) : string :=
  match n, s with
  | S n', String c s' => String c (take n' s')
  | _, _ => ""
  end.

(** [strings.TrimPrefix(s, prefix)] *)
Definition TrimPrefix (s prefix : string) : string :=
  if HasPrefix s prefix then drop (String.length prefix) s else s.

(** [strings.TrimSuffix(s, suffix)] *)
Definition TrimSuffix (s suffix : string) : string :=
  if String.prefix (rev suffix) (rev s)
  then take (String.length s - String.length suffix) s
  else s.

(** The UTF-8 encodings of the code points of [unicode.IsSpace]: the six
    ASCII ones, U+0085, U+00A0, U+1680, U+2000 to U+200A, U+2028, U+2029,
    U+202F, U+205F and U+3000. *)
Definition space_encodings : list (list nat) :=
  [[9]; [10]; [11]; [12]; [13]; [32];
   [194; 133]; [194; 160]; [225; 154; 128];
   [226; 128; 128]; [226; 128; 129]; [226; 128; 130]; [226; 128; 131];
   [226; 128; 132]; [226; 128; 133]; [226; 128; 134]; [226; 128; 135];
   [226; 128; 136]; [226; 128; 137]; [226; 128; 138];
   [226; 128; 168]; [226; 128; 169]; [226; 128; 175];
   [226; 129; 159]; [227; 128; 128]]%nat.

Definition encoding (l : list nat) : string :=
  Str.of_list (map ascii_of_nat l).

(** [s] without its first rune when that rune is white space. *)
Definition cut_space (encs : list string) (s : string) : option string :=
  match find (fun e => String.prefix e s) encs with
  | Some e => Some (drop (String.length e) s)
  | None => None
  end.

Fixpoint trim_left (encs : list string) (fuel : nat) (s : string) : string :=
  match fuel with
  | O => s
  | S fuel' =>
      match cut_space encs s with
      | Some s' => trim_left encs fuel' s'
      | None => s
      end
  end.

(** [strings.TrimSpace(s)]: the leading and the trailing white-space runes
    are removed; a byte that is no valid encoding decodes to U+FFFD, which
    is no white space. *)
Definition TrimSpace (s : string) : string :=
  let encs := map encoding space_encodings in
  let s1 := trim_left encs (String.length s) s in
  rev (trim_left (map rev encs) (String.length s1) (rev s1)).

(** [strings.Split(s, sep)] for a separator of one byte, which is how the
    program calls it: the parts of [s] between the separators, one more
    than there are separators ([cur] is the part being read). *)
Fixpoint split_loop (sep : ascii) (s cur : string) : list string :=
  match s with
  | EmptyString => [cur]
  | String c s' =>
      if Ascii.eqb c sep then cur :: split_loop sep s' ""
      else split_loop sep s' (cur ++ String c "")
  end.

Definition Split (s : string) (sep : ascii) : list string := split_loop sep s "".

End strings.

Module filepath.
Import strings.

Definition is_sep (c : ascii) : bool := Ascii.eqb c "/".

(** [s] without the separators it starts with. *)
Fixpoint drop_seps (s : string) : string :=
  match s with
  | String c s' => if is_sep c then drop_seps s' else s
  | EmptyString => s
  end.

(** The bytes of [s] up to its first separator. *)
Fixpoint upto_sep (s : string) : string :=
  match s with
  | String c s' => if is_sep c then "" else String c (upto_sep s')
  | EmptyString => ""
  end.

(** [filepath.Base(path)] where the separator is [/]: the last element of
    the path, read from its end once the trailing separators are gone. *)
Definition Base (path : string) : string :=
  match path with
  | EmptyString => "."
  | _ =>
      match rev (upto_sep (drop_seps (rev path))) with
      | EmptyString => "/"
      | base => base
      end
  end.

(** The bytes of the reversed path up to its first dot, that dot included,
    when no separator comes before it. *)
Fixpoint ext_rev (s : string) : option string :=
  match s with
  | String c s' =>
      if is_sep c then None
      else if Ascii.eqb c "." then Some (String c "")
      else match ext_rev s' with
           | Some e => Some (String c e)
           | None => None
           end
  | EmptyString => None
  end.

(** [filepath.Ext(path)] *)
Definition Ext (path : string) : string :=
  match ext_rev (rev path) with
  | Some e => rev e
  | None => ""
  end.

End filepath.
(** ** Package [time]

    A [time.Duration] is an [int64] count of nanoseconds. *)

Module time.
Import F64 strconv.

Definition Duration : Type := Z.

Definition Second : Duration := 1000000000.

(** Arithmetic of [uint64] and of [int64] wraps around. *)
Definition wrap_uint64 (n : Z) : Z := n mod 2 ^ 64.
Definition wrap_int64 (n : Z) : Z := (n + 2 ^ 63) mod 2 ^ 64 - 2 ^ 63.

(** [d.Seconds()]: [float64(d / Second) + float64(d % Second) / 1e9] *)
Definition Seconds (d : Duration) : float64 :=
  add (of_int (Z.quot d Second)) (div (of_int (Z.rem d Second)) (of_int 1000000000)).

(** [d.Truncate(m)] *)
Definition Truncate (d m : Duration) : Duration :=
  if m <=? 0 then d else d - Z.rem d m.

(** [leadingInt]: the leading digits of [s] as a [uint64] no larger than
    [1<<63], and the rest of [s]; [None] on overflow. *)
Fixpoint leadingInt (s : string) (x : Z) : option (Z * string) :=
  match s with
  | EmptyString => Some (x, s)
  | String c s' =>
      match dec_digit c with
      | None => Some (x, s)
      | Some d =>
          if 2 ^ 63 / 10 <? x then None
          else
            let x' := x * 10 + d in
            if 2 ^ 63 <? x' then None else leadingInt s' x'
      end
  end.

(** [leadingFraction]: the digits after the point as [x / scale]; the
    digits that would overflow [x] are skipped. *)
Fixpoint leadingFraction (s : string) (x : Z) (scale : float64) (overflow : bool)
  : Z * float64 * string :=
  match s with
  | EmptyString => (x, scale, s)
  | String c s' =>
      match dec_digit c with
      | None => (x, scale, s)
      | Some d =>
          if overflow then leadingFraction s' x scale overflow
          else if (2 ^ 63 - 1) / 10 <? x then leadingFraction s' x scale true
          else
            let y := x * 10 + d in
            if 2 ^ 63 <? y then leadingFraction s' x scale true
            else leadingFraction s' y (mul scale ten) overflow
      end
  end.

(** The bytes of [s] before its first digit or point, and the rest. *)
Fixpoint unit_of (s : string) : string * string :=
  match s with
  | EmptyString => ("", s)
  | String c s' =>
      if Ascii.eqb c "." || is_digit c then ("", s)
      else let '(u, r) := unit_of s' in (String c u, r)
  end.

Definition micro_sign : string := strings.encoding [194; 181]%nat.  (* U+00B5 *)
Definition greek_mu : string := strings.encoding [206; 188]%nat.    (* U+03BC *)

Definition unitMap (u : string) : option Z :=
  if String.eqb u "ns" then Some 1
  else if String.eqb u "us" then Some 1000
  else if String.eqb u (micro_sign ++ "s") then Some 1000
  else if String.eqb u (greek_mu ++ "s") then Some 1000
  else if String.eqb u "ms" then Some 1000000
  else if String.eqb u "s" then Some 1000000000
  else if String.eqb u "m" then Some 60000000000
  else if String.eqb u "h" then Some 3600000000000
  else None.

(** [uint64(x)] of a float that is in range. *)
Definition to_uint64 (x : float64) : Z :=
  match trunc x with Some n => n | None => 0 end.

(** The loop of [ParseDuration] over the terms of a duration (digits, an
    optional point and more digits, a unit); [d] is the [uint64] sum so
    far.  Every term takes at least its unit off [s], so the length of [s]
    is fuel enough. *)
Fixpoint parse_terms (fuel : nat) (s : string) (d : Z) : option Z :=
  match s with
  | EmptyString => Some d
  | String c0 _ =>
      match fuel with
      | O => None
      | S fuel' =>
          if negb (Ascii.eqb c0 "." || is_digit c0) then None
          else
            match leadingInt s 0 with
            | None => None
            | Some (v, s1) =>
                let pre := negb (String.length s =? String.length s1)%nat in
                let '(f, scale, post, s2) :=
                  match s1 with
                  | String "." r =>
                      let '(f, scale, r') := leadingFraction r 0 one false in
                      (f, scale, negb (String.length r =? String.length r')%nat, r')
                  | _ => (0, one, false, s1)
                  end in
                if negb pre && negb post then None
                else
                  let '(u, s3) := unit_of s2 in
                  match u with
                  | EmptyString => None            (* missing unit *)
                  | _ =>
                      match unitMap u with
                      | None => None               (* unknown unit *)
                      | Some unit =>
                          if 2 ^ 63 / unit <? v then None
                          else
                            let v1 := v * unit in
                            let v2 :=
                              if 0 <? f then
                                wrap_uint64
                                  (v1 + to_uint64 (mul (of_int f) (div (of_int unit) scale)))
                              else v1 in
                            if 2 ^ 63 <? v2 then None
                            else
                              let d' := wrap_uint64 (d + v2) in
                              if 2 ^ 63 <? d' then None else parse_terms fuel' s3 d'
                      end
                  end
            end
      end
  end.

(** [time.ParseDuration(s)]: [Some d] when [err == nil]; on an error the
    duration returned is 0. *)
Definition ParseDuration (s : string) : option Duration :=
  let '(neg, s1) :=
    match s with
    | String "-" r => (true, r)
    | String "+" r => (false, r)
    | _ => (false, s)
    end in
  if String.eqb s1 "0" then Some 0
  else
    match s1 with
    | EmptyString => None
    | _ =>
        match parse_terms (String.length s1) s1 0 with
        | None => None
        | Some d =>
            if neg then Some (wrap_int64 (- d))
            else if 2 ^ 63 - 1 <? d then None
            else Some d
        end
    end.

End time.
(** ** Package [regexp]

    The fragment of the syntax that the pattern of [parseProgress] is
    written in, with the leftmost-first matching of [regexp]: the match
    starts at the first position where one exists and is the one that a
    backtracking search finds first (greedy operators try the longest
    repetition first).  The classes of the pattern exclude or include whole
    runes only, so matching byte by byte finds the same matches. *)

Module regexp.

Inductive Regexp :=
| Lit (s : string)                 (* literal text *)
| Plus (cls : ascii -> bool)       (* [cls]+ *)
| Star (cls : ascii -> bool)       (* [cls]* *)
| Cat (r1 r2 : Regexp)             (* r1 r2 *)
| Group (i : nat) (r : Regexp)     (* (r), the i-th capturing group *)
| Opt (r : Regexp).                (* (?:r)? *)

(** The submatches: index 0 is the whole match, an index whose group took
    no part in the match holds the empty string. *)
Definition Submatches : Type := list string.

Fixpoint set_nth (i : nat) (v : string) (l : Submatches) : Submatches :=
  match i, l with
  | O, _ :: l' => v :: l'
  | S i', x :: l' => x :: set_nth i' v l'
  | _, [] => []
  end.

(** [k] is what remains to be matched after [s]: it receives the text that
    is left and the submatches so far. *)
Definition Cont : Type := string -> Submatches -> option Submatches.

(** [lit] at the start of [s]. *)
Fixpoint match_lit (lit s : string) : option string :=
  match lit, s with
  | EmptyString, _ => Some s
  | String a lit', String b s' => if Ascii.eqb a b then match_lit lit' s' else None
  | String _ _, EmptyString => None
  end.

(** [cls]*, the longest repetition first. *)
Fixpoint match_star (cls : ascii -> bool) (s : string) (caps : Submatches) (k : Cont)
  : option Submatches :=
  match s with
  | String c s' =>
      if cls c then
        match match_star cls s' caps k with
        | Some r => Some r
        | None => k s caps
        end
      else k s caps
  | EmptyString => k s caps
  end.

Fixpoint match_re (r : Regexp) (s : string) (caps : Submatches) (k : Cont)
  : option Submatches :=
  match r with
  | Lit lit =>
      match match_lit lit s with
      | Some s' => k s' caps
      | None => None
      end
  | Plus cls =>
      match s with
      | String c s' => if cls c then match_star cls s' caps k else None
      | EmptyString => None
      end
  | Star cls => match_star cls s caps k
  | Cat r1 r2 => match_re r1 s caps (fun s' caps' => match_re r2 s' caps' k)
  | Group i r1 =>
      match_re r1 s caps
        (fun s' caps' =>
           k s' (set_nth i (strings.take (String.length s - String.length s') s) caps'))
  | Opt r1 =>
      match match_re r1 s caps k with
      | Some res => Some res
      | None => k s caps
      end
  end.

(** A match of [r] that starts at the first byte of [s]. *)
Definition match_here (ngroups : nat) (r : Regexp) (s : string) : option Submatches :=
  match_re (Group 0 r) s (repeat "" (S ngroups)) (fun _ caps => Some caps).

(** [re.FindStringSubmatch(s)]: [None] is the [nil] slice of "no match". *)
Fixpoint FindStringSubmatch (ngroups : nat) (r : Regexp) (s : string)
  : option Submatches :=
  match match_here ngroups r s with
  | Some caps => Some caps
  | None =>
      match s with
      | String _ s' => FindStringSubmatch ngroups r s'
      | EmptyString => None
      end
  end.

(** The classes of the pattern *)
Definition digit (c : ascii) : bool := strconv.is_digit c.                 (* \d *)
Definition digit_or_dot (c : ascii) : bool := strconv.is_digit c || Ascii.eqb c ".".
Definition space (c : ascii) : bool :=                                     (* \s *)
  Ascii.eqb c TAB || Ascii.eqb c LF || Ascii.eqb c FF || Ascii.eqb c CR || Ascii.eqb c " ".
Definition not_comma (c : ascii) : bool := negb (Ascii.eqb c ",").
Definition not_rparen (c : ascii) : bool := negb (Ascii.eqb c ")").

Fixpoint seq (rs : list Regexp) : Regexp :=
  match rs with
  | [] => Lit ""
  | [r] => r
  | r :: rs' => Cat r (seq rs')
  end.

End regexp.
(** ** Package [handbrake] ([handbrake/handbrake.go]) *)

Module handbrake.
Import F64.

Record EncodeParams := {
  InputPath : string;
  OutputPath : string;
  Quality : float64;
  Is10Bit : bool;
  FromTime : time.Duration;
  Duration : time.Duration;
  Denoise : bool;
  Width : Z;
  Height : Z;
  ExtraArgs : list string
}.

Record EncodeProgress := {
  Percent : float64;
  FPSAvg : float64;
  ETA : time.Duration;
  CurrentSize : Z
}.

(** [math.Round(val*factor) / factor] with [factor = math.Pow(10, float64(precision))] *)
Definition round (val : float64) (precision : Z) : float64 :=
  let factor := Pow ten precision in
  div (Round (mul val factor)) factor.

Definition EncodedMB (e : EncodeProgress) : float64 :=
  div (of_int (CurrentSize e)) (of_int 1048576).

Definition EstimatedMB (e : EncodeProgress) : float64 :=
  if eqb (Percent e) zero then zero
  else
    let mb := div (EncodedMB e) (div (Percent e) hundred) in
    round mb 1.

Definition is_line_end (c : ascii) : bool :=
  Ascii.eqb c CR || Ascii.eqb c LF.

(** The [for] loop of [iterLines].  [currentLine] is the [strings.Builder];
    [rs] are the reads still to come and [last_eof] tells whether the read
    that fails fails with [io.EOF].  The error is looked at before the
    byte count, so a byte that comes with the error is not used. *)
Fixpoint iterLines_loop {S : Type} (yield : string -> S -> S * bool)
         (rs : list (option ascii)) (last_eof : bool)
         (currentLine : string) (st : S) : S :=
  match rs with
  | [] =>
      if last_eof then
        (* Yield any remaining content *)
        if Str.nonempty currentLine then fst (yield currentLine st) else st
      else st
  | None :: rs' => iterLines_loop yield rs' last_eof currentLine st
  | Some char :: rs' =>
      if is_line_end char then
        (* Line ending - yield current line and reset *)
        if Str.nonempty currentLine then
          let (st', continue) := yield currentLine st in
          if continue then iterLines_loop yield rs' last_eof "" st' else st'
        else iterLines_loop yield rs' last_eof currentLine st
      else iterLines_loop yield rs' last_eof (currentLine ++ String char "") st
  end.

Definition iterLines (reader : Reader) : Seq string :=
  fun S yield st => iterLines_loop yield (reads reader) (last_eof reader) "" st.

(** The argument vector that [Encode] hands to [exec.CommandContext]. *)
Definition Encode_args (params : EncodeParams) : list string :=
  let encoder := if Is10Bit params then "vt_h265_10bit" else "vt_h265" in
  let args :=
    ["HandbrakeCLI";
     "--format"; "av_mp4";
     "--input"; InputPath params;
     "--output"; OutputPath params;
     "--optimize";
     "--encoder"; encoder;
     "--quality"; strconv.Sprintf_f 0 (Quality params);
     "--vfr";
     "--aencoder"; "ac3";
     "--ab"; "160";
     "--non-anamorphic";
     "--verbose"; "1"] in
  let args :=
    if 0 <? FromTime params
    then (args ++ ["--start-at";
                   ("duration:" ++ strconv.Sprintf_f 1 (time.Seconds (FromTime params)))%string])%list
    else args in
  let args :=
    if 0 <? Duration params
    then (args ++ ["--stop-at";
                   ("duration:" ++ strconv.Sprintf_f 1 (time.Seconds (Duration params)))%string])%list
    else args in
  let args := if Denoise params then (args ++ ["--hqdn3d"; "light"])%list else args in
  (* Add video scaling parameters if width or height are specified *)
  let args :=
    if (0 <? Width params) || (0 <? Height params) then
      if (0 <? Width params) && (0 <? Height params) then
        (args ++ ["--width"; strconv.Itoa (Width params);
                  "--height"; strconv.Itoa (Height params)])%list
      else if 0 <? Width params then
        (args ++ ["--width"; strconv.Itoa (Width params)])%list
      else
        (args ++ ["--height"; strconv.Itoa (Height params)])%list
    else args in
  (args ++ ExtraArgs params)%list.

(** The pattern of [parseProgress]:
    [Encoding: task \d+ of \d+, ([\d.]+) %] followed by the optional,
    non-capturing
    [\s*\([^,]+,\s*avg\s+([\d.]+)\s*fps,\s*ETA\s+([^)]+)\)]. *)
Definition progressRe : regexp.Regexp :=
  regexp.seq
    [regexp.Lit "Encoding: task "; regexp.Plus regexp.digit;
     regexp.Lit " of "; regexp.Plus regexp.digit;
     regexp.Lit ", "; regexp.Group 1 (regexp.Plus regexp.digit_or_dot);
     regexp.Lit " %";
     regexp.Opt
       (regexp.seq
          [regexp.Star regexp.space; regexp.Lit "(";
           regexp.Plus regexp.not_comma; regexp.Lit ",";
           regexp.Star regexp.space; regexp.Lit "avg";
           regexp.Plus regexp.space;
           regexp.Group 2 (regexp.Plus regexp.digit_or_dot);
           regexp.Star regexp.space; regexp.Lit "fps,";
           regexp.Star regexp.space; regexp.Lit "ETA";
           regexp.Plus regexp.space;
           regexp.Group 3 (regexp.Plus regexp.not_rparen);
           regexp.Lit ")"])].

Definition no_progress : EncodeProgress :=
  {| Percent := zero; FPSAvg := zero; ETA := 0; CurrentSize := 0 |}.

(** [parseProgress(line, outputPath)].  [stat path] is the size that
    [os.Stat(path)] reports at the time of the call, [None] when it fails. *)
Definition parseProgress (stat : string -> option Z) (line outputPath : string)
  : EncodeProgress * bool :=
  match regexp.FindStringSubmatch 3 progressRe line with
  | None => (no_progress, false)                  (* len(matches) < 2 *)
  | Some matches =>
      let percent := strconv.float_value (strconv.ParseFloat (nth 1 matches "")) in
      (* Check if we have FPS and ETA data *)
      let '(fpsAvg, eta) :=
        if (4 <=? List.length matches)%nat && Str.nonempty (nth 2 matches "") then
          (strconv.float_value (strconv.ParseFloat (nth 2 matches "")),
           match time.ParseDuration (strings.TrimSpace (nth 3 matches "")) with
           | Some d => d
           | None => 0
           end)
        else (zero, 0) in
      (* Get current file size *)
      let currentSize := match stat outputPath with Some size => size | None => 0 end in
      ({| Percent := div (Round (mul percent ten)) ten;
          FPSAvg := fpsAvg;
          ETA := eta;
          CurrentSize := currentSize |}, true)
  end.

End handbrake.
(** ** Package [bufio]: a [Scanner] with the default [ScanLines] *)

Module bufio.

Definition MaxScanTokenSize : Z := 64 * 1024.

(** [dropCR]: one trailing carriage return is dropped. *)
Definition dropCR (line : string) : string :=
  match strings.rev line with
  | String c r => if Ascii.eqb c CR then strings.rev r else line
  | EmptyString => line
  end.

(** The tokens of [scanner.Scan()] / [scanner.Text()] over a reader that
    delivers the bytes [bs] and then fails (with [io.EOF] or otherwise).
    [pending] are the [n] buffered bytes of the line being read.  A line is
    everything up to a line feed; the last line needs none.  When the
    buffer holds [MaxScanTokenSize] bytes and no line feed, [Scan] fails
    with [ErrTooLong] and the loop is over. *)
Fixpoint scan_lines (bs : list ascii) (pending : string) (n : Z) : list string :=
  match bs with
  | [] => if Str.nonempty pending then [dropCR pending] else []
  | c :: bs' =>
      if Ascii.eqb c LF then dropCR pending :: scan_lines bs' "" 0
      else if MaxScanTokenSize <=? n + 1 then []
      else scan_lines bs' (pending ++ String c "") (n + 1)
  end.

Definition Scanner_lines (bs : list ascii) : list string := scan_lines bs "" 0.

End bufio.

(** ** Package [ffmpeg] *)

Module ffmpeg.
Import F64.

Record EncodeParams := {
  InputPath : string;
  OutputPath : string;
  Quality : float64;
  Is10Bit : bool;
  FromTime : time.Duration;
  Duration : time.Duration;
  Width : Z;
  Height : Z;
  ExtraArgs : list string
}.

Record EncodeProgress := {
  Percent : float64;
  FPSAvg : float64;
  ETA : time.Duration;
  CurrentSize : Z
}.

Definition round (n : float64) (precision : Z) : float64 :=
  if precision <? 0 then n
  else
    let pow := Pow ten precision in
    div (Round (mul n pow)) pow.

Definition EncodedMB (e : EncodeProgress) : float64 :=
  div (of_int (CurrentSize e)) (of_int 1048576).

Definition EstimatedMB (e : EncodeProgress) : float64 :=
  if eqb (Percent e) zero then zero
  else
    let mb := div (EncodedMB e) (div (Percent e) hundred) in
    round mb 1.

(** [args[i] = "main10"] at the first [i > 0] with [args[i] == "main"] and
    [args[i-1] == "-profile:v"]; [prev] is [args[i-1]]. *)
Fixpoint replace_profile (prev : option string) (args : list string) : list string :=
  match args with
  | [] => []
  | arg :: rest =>
      if String.eqb arg "main" &&
         match prev with Some p => String.eqb p "-profile:v" | None => false end
      then "main10" :: rest
      else arg :: replace_profile (Some arg) rest
  end.

(** The loop that copies [args] and puts [flag value] before every ["-i"]. *)
Fixpoint insert_before_i (flag value : string) (args : list string) : list string :=
  match args with
  | [] => []
  | arg :: rest =>
      if String.eqb arg "-i"
      then flag :: value :: arg :: insert_before_i flag value rest
      else arg :: insert_before_i flag value rest
  end.

(** The argument vector that [Encode] hands to [exec.CommandContext],
    together with [totalDuration].  [probe path] is the [Duration] of the
    result of [Probe(ctx, path)], [None] when [Probe] fails: [Encode] then
    returns that error and runs nothing.  The seconds of a [Duration]
    always fit an [int], so [int(...)] is a plain truncation. *)
Definition Encode_args (probe : string -> option time.Duration) (params : EncodeParams)
  : option (list string * time.Duration) :=
  let args :=
    ["ffmpeg";
     "-y";
     "-progress"; "pipe:1";
     "-stats_period"; "3";
     "-i"; InputPath params;
     "-c:v"; "hevc_videotoolbox";
     "-q:v"; strconv.Sprintf_f 0 (Quality params);
     "-profile:v"; "main";
     "-map_metadata"; "0";
     "-metadata";
     ("title=" ++ strings.TrimSuffix (filepath.Base (InputPath params))
                                     (filepath.Ext (InputPath params)))%string] in
  (* Add video scaling filter if width or height are specified *)
  let args :=
    if (0 <? Width params) || (0 <? Height params) then
      let scaleFilter :=
        if (0 <? Width params) && (0 <? Height params) then
          ("scale=" ++ strconv.Itoa (Width params) ++ ":" ++ strconv.Itoa (Height params)
             ++ ":force_original_aspect_ratio=decrease")%string
        else if 0 <? Width params then
          ("scale=" ++ strconv.Itoa (Width params) ++ ":-2")%string
        else
          ("scale=-2:" ++ strconv.Itoa (Height params))%string in
      (args ++ ["-vf"; scaleFilter])%list
    else args in
  let args := (args ++ [OutputPath params])%list in
  let args := if Is10Bit params then replace_profile None args else args in
  let seconds (d : time.Duration) : string :=
    strconv.Itoa (to_int64 (fun _ => 0) (time.Seconds d)) in
  let args :=
    if 0 <? FromTime params
    then insert_before_i "-ss" (seconds (FromTime params)) args
    else args in
  let result :=
    if 0 <? Duration params
    then Some (insert_before_i "-t" (seconds (Duration params)) args, Duration params)
    else match probe (InputPath params) with
         | Some d => Some (args, d)
         | None => None
         end in
  match result with
  | Some (args, totalDuration) => Some ((args ++ ExtraArgs params)%list, totalDuration)
  | None => None
  end.

(** *** [iterProgress] *)

(** The variables of the closure: [currentProgress], [startTime] and
    [progressStarted]. *)
Record progress_state := {
  currentProgress : EncodeProgress;
  startTime : Z;
  progressStarted : bool
}.

Definition initial_state : progress_state :=
  {| currentProgress := {| Percent := zero; FPSAvg := zero; ETA := 0; CurrentSize := 0 |};
     startTime := 0;
     progressStarted := false |}.

Definition with_progress (st : progress_state) (p : EncodeProgress) : progress_state :=
  {| currentProgress := p; startTime := startTime st;
     progressStarted := progressStarted st |}.

(** [t.Sub(u)] on the monotonic clock: the difference, kept within the
    range of a [Duration]. *)
Definition Sub (t u : Z) : time.Duration :=
  Z.max min_int64 (Z.min max_int64 (t - u)).

Section Progress.

(** [now i] is the reading of the clock, in nanoseconds, while line [i]
    of the output is handled ([time.Now()], [time.Since]);
    [indefinite x] is the [int64] that converting an out-of-range [x]
    gives on the machine at hand. *)
Variable now : nat -> Z.
Variable indefinite : float64 -> Z.

(** [percent] of a parsed [out_time_ms] value *)
Definition percent_of (ms : Z) (totalDuration : time.Duration) : float64 :=
  let currentTime := time.wrap_int64 (ms * 1000) in
  round (min hundred
             (mul (div (of_int currentTime) (of_int totalDuration)) hundred)) 2.

(** The statements of the loop body that come before [out_time_ms=]. *)
Definition track (i : nat) (line : string) (st : progress_state) : progress_state :=
  (* Track when progress starts *)
  let st :=
    if strings.HasPrefix line "progress=continue" && negb (progressStarted st)
    then {| currentProgress := currentProgress st; startTime := now i;
            progressStarted := true |}
    else st in
  (* Parse FPS *)
  let st :=
    if strings.HasPrefix line "fps=" then
      match strconv.ParseFloat (strings.TrimPrefix line "fps=") with
      | strconv.FloatOk fps =>
          let p := currentProgress st in
          with_progress st {| Percent := Percent p; FPSAvg := fps; ETA := ETA p;
                              CurrentSize := CurrentSize p |}
      | _ => st
      end
    else st in
  (* Parse total size *)
  if strings.HasPrefix line "total_size=" then
    match strconv.ParseInt (strings.TrimPrefix line "total_size=") with
    | Some size =>
        let p := currentProgress st in
        with_progress st {| Percent := Percent p; FPSAvg := FPSAvg p; ETA := ETA p;
                            CurrentSize := size |}
    | None => st
    end
  else st.

(** The [out_time_ms=] statement: the new state and the snapshot it
    yields, if it yields one. *)
Definition out_time (totalDuration : time.Duration) (i : nat) (line : string)
           (st : progress_state) : progress_state * option EncodeProgress :=
  if strings.HasPrefix line "out_time_ms=" then
    match strconv.ParseInt (strings.TrimPrefix line "out_time_ms=") with
    | Some ms =>
        if 0 <? totalDuration then
          let percent := percent_of ms totalDuration in
          let p := currentProgress st in
          (* Calculate ETA if we have progress and time elapsed *)
          let eta :=
            if progressStarted st && ltb zero percent && ltb percent hundred then
              let elapsed := Sub (now i) (startTime st) in
              let estimated :=
                to_int64 indefinite (div (mul (of_int elapsed) hundred) percent) in
              time.Truncate (time.wrap_int64 (estimated - elapsed)) time.Second
            else ETA p in
          let p' := {| Percent := percent; FPSAvg := FPSAvg p; ETA := eta;
                       CurrentSize := CurrentSize p |} in
          (with_progress st p', Some p')
        else (st, None)
    | None => (st, None)
    end
  else (st, None).

Fixpoint iterProgress_loop {A : Type} (yield : EncodeProgress -> A -> A * bool)
         (totalDuration : time.Duration) (lines : list string) (i : nat)
         (st : progress_state) (s : A) : A :=
  match lines with
  | [] => s
  | text :: rest =>
      let line := strings.TrimSpace text in
      let '(st', snapshot) := out_time totalDuration i line (track i line st) in
      match snapshot with
      | Some p =>
          let (s', continue) := yield p s in
          if continue then iterProgress_loop yield totalDuration rest (S i) st' s'
          else s'
      | None => iterProgress_loop yield totalDuration rest (S i) st' s
      end
  end.

(** [iterProgress(r, totalDuration)], [r] delivering the bytes [stream]. *)
Definition iterProgress (stream : list ascii) (totalDuration : time.Duration)
  : Seq EncodeProgress :=
  fun S yield s =>
    iterProgress_loop yield totalDuration (bufio.Scanner_lines stream) 0 initial_state s.

End Progress.

End ffmpeg.
(** ** Package [ffmpeg]: [Probe] and its helpers

    [Probe] runs [ffprobe] and decodes its JSON output into a [probeOutput];
    what is modelled here is what [Probe] does with the decoded value. *)

Module probe.
Import F64.

Record ProbeResult := {
  Duration : time.Duration;
  Codec : string;
  FPS : float64;
  SizeBytes : Z;
  Width : Z;
  Height : Z;
  Bitrate : Z;
  Container : string;
  AspectRatio : float64;
  SampleAR : float64
}.

Definition IsVertical (p : ProbeResult) : bool := Width p <? Height p.

Record probeStream := {
  CodecType : string;
  CodecName : string;
  StreamWidth : Z;               (* Width *)
  StreamHeight : Z;              (* Height *)
  RFrameRate : string;
  StreamBitRate : string;        (* BitRate *)
  SampleAspectRatio : string
}.

Record probeFormat := {
  FormatDuration : string;       (* Duration *)
  Size : string;
  FormatBitRate : string         (* BitRate *)
}.

Record probeOutput := {
  Streams : list probeStream;
  Format : probeFormat
}.

(** [parseFPS] parses a frame rate such as [30000/1001]. *)
Definition parseFPS (rFrameRate : string) : float64 :=
  match strings.Split rFrameRate "/" with
  | [p0; p1] =>
      match strconv.ParseFloat p0, strconv.ParseFloat p1 with
      | strconv.FloatOk num, strconv.FloatOk den =>
          if eqb den zero then zero else div num den
      | _, _ => zero
      end
  | _ => zero                                  (* len(parts) != 2 *)
  end.

(** [parseSampleAspectRatio] parses a sample aspect ratio such as [1:1]. *)
Definition parseSampleAspectRatio (sar : string) : float64 :=
  if String.eqb sar "" then one
  else
    match strings.Split sar ":" with
    | [p0; p1] =>
        match strconv.ParseFloat p0, strconv.ParseFloat p1 with
        | strconv.FloatOk w, strconv.FloatOk h =>
            if eqb h zero then one else div w h
        | _, _ => one
        end
    | _ => one
    end.

(** The errors of [Probe] once [ffprobe] has run and its output is decoded. *)
Inductive probe_error :=
| video_stream_not_found
| failed_to_parse_duration.

(** The loop that looks for the video stream and breaks at the first. *)
Fixpoint videoStream (streams : list probeStream) : option probeStream :=
  match streams with
  | [] => None
  | stream :: rest =>
      if String.eqb (CodecType stream) "video" then Some stream else videoStream rest
  end.

Section Probe.

(** [strings.ToLower], and the [int64] that converting an out-of-range
    float gives on the machine at hand. *)
Variable ToLower : string -> string.
Variable indefinite : float64 -> Z.

Definition Probe (videoPath : string) (result : probeOutput)
  : ProbeResult + probe_error :=
  match videoStream (Streams result) with
  | None => inr video_stream_not_found
  | Some stream =>
      match strconv.ParseFloat (FormatDuration (Format result)) with
      | strconv.FloatOk durationSec =>
          let duration :=
            time.wrap_int64 (to_int64 indefinite durationSec * time.Second) in
          let fps := parseFPS (RFrameRate stream) in
          let size := strconv.ParseInt_value (Size (Format result)) in
          let bitrate := strconv.ParseInt_value (StreamBitRate stream) in
          let bitrate :=
            if bitrate =? 0
            then strconv.ParseInt_value (FormatBitRate (Format result))
            else bitrate in
          let sampleAR := parseSampleAspectRatio (SampleAspectRatio stream) in
          let aspectRatio :=
            div (of_int (StreamWidth stream)) (of_int (StreamHeight stream)) in
          let container :=
            ToLower (strings.TrimPrefix (filepath.Ext videoPath) ".") in
          inl {| Duration := duration;
                 Codec := CodecName stream;
                 FPS := fps;
                 SizeBytes := size;
                 Width := StreamWidth stream;
                 Height := StreamHeight stream;
                 Bitrate := bitrate;
                 Container := container;
                 AspectRatio := aspectRatio;
                 SampleAR := sampleAR |}
      | _ => inr failed_to_parse_duration
      end
  end.

End Probe.

End probe.
(** ** The progress loops of [Encode]

    Both [Encode] functions start the process and, in a goroutine, hand every
    snapshot read from its standard output to [onProgress]. *)

Module handbrake_run.
Import handbrake.

(** The snapshots that [onProgress] receives, in order:
    [for line := range iterLines(stdout)] with [parseProgress] on every
    line.  [stat i] is what [os.Stat] answers while line [i] is handled. *)
Definition Encode_progress (stat : nat -> string -> option Z) (stdout : Reader)
           (outputPath : string) : list EncodeProgress :=
  rev (snd (iterLines stdout (nat * list EncodeProgress)%type
              (fun line st =>
                 let '(i, acc) := st in
                 match parseProgress (stat i) line outputPath with
                 | (progress, true) => ((S i, progress :: acc), true)
                 | (_, false) => ((S i, acc), true)
                 end)
              (0%nat, []))).

End handbrake_run.

Module ffmpeg_run.
Import F64 ffmpeg.

(** The snapshots that [onProgress] receives from [Encode]: none when
    [Encode] returns before it starts the process ([Probe] failed),
    otherwise those of [iterProgress] over the output with the total
    duration that [Encode] settled on.  [probed] is the result of [Probe]
    on the input. *)
Definition Encode_progress (now : nat -> Z) (indefinite : float64 -> Z)
           (probed : probe.ProbeResult + probe.probe_error)
           (params : EncodeParams) (stdout : list ascii) : list EncodeProgress :=
  let probe_duration (_ : string) : option time.Duration :=
    match probed with
    | inl result => Some (probe.Duration result)
    | inr _ => None
    end in
  match Encode_args probe_duration params with
  | Some (_, totalDuration) => collect (iterProgress now indefinite stdout totalDuration)
  | None => []
  end.

End ffmpeg_run.
(** ** Package [main] ([main.go]) *)

Module main.
Import F64.

Record cliArgs := {
  VideoPath : string;
  OutputDir : string;
  Encoder : string;
  Quality : float64;
  Denoise : bool;
  Is10Bit : bool;
  FromTime : time.Duration;
  ToTime : time.Duration;
  Duration : time.Duration;
  Width : Z;
  Height : Z;
  Debug : bool;
  ExtraArgs : list string;
  Version : bool
}.

(** [Validate]: [None] is [nil], [Some msg] the error of that message. *)
Definition Validate (c : cliArgs) : option string :=
  if Version c then None
  else if String.eqb (VideoPath c) "" then Some "video path is required"
  (* Check that duration and to are mutually exclusive *)
  else if (0 <? Duration c) && (0 <? ToTime c)
  then Some "cannot specify both --duration and --to flags"
  (* Check that to time is after from time *)
  else if (0 <? ToTime c) && (ToTime c <=? FromTime c)
  then Some "--to time must be after --from time"
  else None.

(** *** [generateFilename] *)

(** The text after the digits that [s] starts with. *)
Fixpoint skip_digits (s : string) : string :=
  match s with
  | String c s' => if strconv.is_digit c then skip_digits s' else s
  | EmptyString => s
  end.

(** A match of the pattern [\[\d+[pk]\]] at the start of [s]: the text
    that follows it. *)
Definition match_tag (s : string) : option string :=
  match s with
  | String "[" (String d r) =>
      if strconv.is_digit d then
        match skip_digits r with
        | String c (String "]" rest) =>
            if Ascii.eqb c "p" || Ascii.eqb c "k" then Some rest else None
        | _ => None
        end
      else None
  | _ => None
  end.

(** [re.ReplaceAllString(s, "")] for that pattern: the matches are looked
    for from left to right and do not overlap; [skip] counts the bytes of
    the current match that are still to be dropped. *)
Fixpoint remove_tags (skip : nat) (s : string) : string :=
  match s with
  | EmptyString => ""
  | String c s' =>
      match skip with
      | S k => remove_tags k s'
      | O =>
          match match_tag s with
          | Some rest => remove_tags (String.length s' - String.length rest) s'
          | None => String c (remove_tags 0 s')
          end
      end
  end.

Section Filename.

(** The [int] that converting an out-of-range float gives. *)
Variable indefinite : float64 -> Z.

Definition generateFilename (filePath : string)
           (sourceWidth sourceHeight requestedWidth requestedHeight : Z) : string :=
  (* Use provided dimensions if available, otherwise use original dimensions *)
  let '(finalWidth, finalHeight) :=
    if (0 <? requestedWidth) || (0 <? requestedHeight) then
      if (0 <? requestedWidth) && (0 <? requestedHeight) then
        (requestedWidth, requestedHeight)
      else if 0 <? requestedWidth then
        let aspectRatio := div (of_int sourceHeight) (of_int sourceWidth) in
        (requestedWidth, to_int64 indefinite (mul (of_int requestedWidth) aspectRatio))
      else
        let aspectRatio := div (of_int sourceWidth) (of_int sourceHeight) in
        (to_int64 indefinite (mul (of_int requestedHeight) aspectRatio), requestedHeight)
    else (sourceWidth, sourceHeight) in
  let maxLength := Z.max finalWidth finalHeight in
  let resolution :=
    if 3000 <=? maxLength then "4K"
    else if (1900 <=? maxLength) && (maxLength <=? 2000) then "1080p"
    else if (1200 <=? maxLength) && (maxLength <=? 1400) then "720p"
    else "" in
  let baseName :=
    strings.TrimSuffix (filepath.Base filePath) (filepath.Ext filePath) in
  (* Remove existing resolution tags *)
  let newStem := strings.TrimSpace (remove_tags 0 baseName) in
  let newStem :=
    if Str.nonempty resolution
    then newStem ++ " [" ++ resolution ++ ", x265]"
    else newStem ++ " [x265]" in
  let ext := filepath.Ext filePath in
  newStem ++ ext.

End Filename.

(** *** [run] *)

(** The output path of [run]; [joined] is
    [filepath.Join(args.OutputDir, outputFilename)]. *)
Definition savePath (videoPath joined : string) : string :=
  (* Prevent overwriting the input file *)
  if String.eqb videoPath joined then
    let ext := filepath.Ext videoPath in
    strings.TrimSuffix videoPath ext ++ ".reencoded" ++ ext
  else joined.

Definition encodeDuration (args : cliArgs) : time.Duration :=
  if 0 <? ToTime args then time.wrap_int64 (ToTime args - FromTime args)
  else Duration args.

(** The parameters that [run] hands to [Encode]: those of [ffmpeg] when
    [args.Encoder == "ffmpeg"], those of [handbrake] otherwise. *)
Definition encode_params (args : cliArgs) (savePath : string)
  : ffmpeg.EncodeParams + handbrake.EncodeParams :=
  if String.eqb (Encoder args) "ffmpeg" then
    inl {| ffmpeg.InputPath := VideoPath args;
           ffmpeg.OutputPath := savePath;
           ffmpeg.Quality := Quality args;
           ffmpeg.Is10Bit := Is10Bit args;
           ffmpeg.FromTime := FromTime args;
           ffmpeg.Duration := encodeDuration args;
           ffmpeg.Width := Width args;
           ffmpeg.Height := Height args;
           ffmpeg.ExtraArgs := ExtraArgs args |}
  else
    inr {| handbrake.InputPath := VideoPath args;
           handbrake.OutputPath := savePath;
           handbrake.Quality := Quality args;
           handbrake.Is10Bit := Is10Bit args;
           handbrake.FromTime := FromTime args;
           handbrake.Duration := encodeDuration args;
           handbrake.Denoise := Denoise args;
           handbrake.Width := Width args;
           handbrake.Height := Height args;
           handbrake.ExtraArgs := ExtraArgs args |}.

End main.
(** ** The specification's own words *)

Module Spec.

(** "Splitting on either terminator": every separator byte ends a segment,
    so [n] separators give [n + 1] segments, some of them empty. *)
Fixpoint split_on (sep : ascii -> bool) (bs : list ascii) : list string :=
  match bs with
  | [] => [""]
  | c :: bs' =>
      if sep c then "" :: split_on sep bs'
      else match split_on sep bs' with
           | seg :: segs => String c seg :: segs
           | [] => [String c ""]
           end
  end.

(** "... and discarding empty segments" *)
Definition tokens (bs : list ascii) : list string :=
  filter Str.nonempty (split_on (fun c => Ascii.eqb c CR || Ascii.eqb c LF) bs).

(** "Line" of a text stream: what stands before a line feed, without the
    carriage return that may end it.  What follows the last line feed is a
    line too, unless it is empty. *)
Definition raw_lines (bs : list ascii) : list string :=
  let segs := split_on (fun c => Ascii.eqb c LF) bs in
  if Str.nonempty (last segs "") then segs else removelast segs.

Fixpoint chomp (line : string) : string :=
  match line with
  | String c "" => if Ascii.eqb c CR then "" else line
  | String c rest => String c (chomp rest)
  | "" => ""
  end.

(** The lines that stand before the first line of [limit] bytes or more. *)
Fixpoint short_lines (limit : Z) (lines : list string) : list string :=
  match lines with
  | [] => []
  | l :: rest =>
      if Z.of_nat (String.length l) <? limit then l :: short_lines limit rest else []
  end.

Definition lines (limit : Z) (bs : list ascii) : list string :=
  map chomp (short_lines limit (raw_lines bs)).

(** "Rounded to [N] decimals": a decimal number of [N] decimals is
    [k / 10^N] for an integer [k]; as a [float64] it is the quotient of the
    two integers, which is the [float64] nearest to it, with its sign. *)
Definition decimal (negative : bool) (k N : Z) : F64.float64 :=
  let q := F64.div (F64.of_int k) (F64.of_int (10 ^ N)) in
  if negative then SFopp q else q.


End Spec.
(** * Properties *)

Module StrFacts.
Import Str.

Lemma append_nil_r (s : string) : s ++ "" = s.
Proof. induction s as [|c s IH]; simpl; [reflexivity | now rewrite IH]. Qed.

Lemma append_assoc (s t u : string) : (s ++ t) ++ u = s ++ (t ++ u).
Proof. induction s as [|c s IH]; simpl; [reflexivity | now rewrite IH]. Qed.

Lemma length_append (s t : string) :
  String.length (s ++ t) = (String.length s + String.length t)%nat.
Proof. induction s as [|c s IH]; simpl; [reflexivity | now rewrite IH]. Qed.

Lemma nonempty_snoc (s : string) (c : ascii) : nonempty (s ++ String c "") = true.
Proof. destruct s; reflexivity. Qed.

Lemma to_list_of_list l : to_list (of_list l) = l.
Proof. induction l; simpl; congruence. Qed.

Lemma of_list_app l1 l2 : of_list (l1 ++ l2) = of_list l1 ++ of_list l2.
Proof. induction l1; simpl; congruence. Qed.

End StrFacts.
(** ** The line reader of [handbrake] *)

Module LinesFacts.
Import Str StrFacts handbrake.

(** The consumer of [collect]. *)
Definition record (v : string) (acc : list string) : list string * bool :=
  (v :: acc, true).

(** The segments of a stream whose first segment continues [cur]. *)
Definition glue (cur : string) (segs : list string) : list string :=
  match segs with
  | seg :: segs' => (cur ++ seg) :: segs'
  | [] => [cur]
  end.

Lemma split_on_cons sep bs :
  exists seg segs, Spec.split_on sep bs = seg :: segs.
Proof.
  induction bs as [|c bs IH]; simpl.
  - now exists "", [].
  - destruct (sep c); [now eauto|].
    destruct IH as (seg & segs & ->). now eauto.
Qed.

Lemma split_on_app sep l1 t l2 :
  sep t = true ->
  Spec.split_on sep (l1 ++ t :: l2) = (Spec.split_on sep l1 ++ Spec.split_on sep l2)%list.
Proof.
  intros Ht. induction l1 as [|c l1 IH]; simpl.
  - now rewrite Ht.
  - rewrite IH. destruct (sep c); [reflexivity|].
    destruct (split_on_cons sep l1) as (seg & segs & ->). reflexivity.
Qed.

Lemma split_on_plain sep s :
  Str.forallb (fun c => negb (sep c)) s = true ->
  Spec.split_on sep (to_list s) = [s].
Proof.
  induction s as [|c s IH]; simpl; [reflexivity|].
  intros H. apply andb_prop in H as [Hc Hs].
  apply negb_true_iff in Hc. rewrite Hc, (IH Hs). reflexivity.
Qed.

Lemma iterLines_loop_record rs cur acc :
  iterLines_loop record rs true cur acc =
  (rev (filter nonempty (glue cur (Spec.split_on is_line_end (bytes_of rs)))) ++ acc)%list.
Proof.
  revert cur acc. induction rs as [|[char|] rs IH]; intros cur acc; simpl.
  - rewrite append_nil_r. now destruct (nonempty cur).
  - destruct (is_line_end char) eqn:Hend.
    + simpl. rewrite append_nil_r.
      destruct (split_on_cons is_line_end (bytes_of rs)) as (seg & segs & Hsplit).
      destruct (nonempty cur) eqn:Hcur; simpl.
      * rewrite IH, Hsplit. simpl. now rewrite <- app_assoc.
      * rewrite IH, Hsplit. destruct cur; [reflexivity | discriminate].
    + rewrite IH.
      destruct (split_on_cons is_line_end (bytes_of rs)) as (seg & segs & ->).
      simpl. now rewrite append_assoc.
  - apply IH.
Qed.

Lemma collect_iterLines rs last :
  collect (iterLines {| reads := rs; last_byte := last; last_eof := true |}) =
  Spec.tokens (bytes_of rs).
Proof.
  unfold collect, iterLines; simpl.
  change (fun (v : string) (acc : list string) => (v :: acc, true)) with record.
  rewrite iterLines_loop_record, app_nil_r, rev_involutive.
  destruct (split_on_cons is_line_end (bytes_of rs)) as (seg & segs & Hsplit).
  unfold Spec.tokens. fold is_line_end.
  change (fun c : ascii => is_line_end c) with is_line_end.
  now rewrite Hsplit.
Qed.

Lemma bytes_of_map_Some bs : bytes_of (map Some bs) = bs.
Proof. induction bs; simpl; congruence. Qed.

Lemma tokens_app l1 t l2 :
  is_line_end t = true ->
  Spec.tokens (l1 ++ t :: l2) = (Spec.tokens l1 ++ Spec.tokens l2)%list.
Proof.
  intros Ht. unfold Spec.tokens.
  change (fun c : ascii => (Ascii.eqb c CR || Ascii.eqb c LF)%bool) with is_line_end.
  now rewrite split_on_app, filter_app.
Qed.

Lemma tokens_end l t :
  is_line_end t = true -> Spec.tokens (l ++ [t]) = Spec.tokens l.
Proof.
  intros Ht. rewrite tokens_app by assumption.
  unfold Spec.tokens at 2. simpl. apply app_nil_r.
Qed.

Lemma tokens_plain s :
  nonempty s = true ->
  Str.forallb (fun c => negb (is_line_end c)) s = true ->
  Spec.tokens (to_list s) = [s].
Proof.
  intros Hs Hplain. unfold Spec.tokens.
  change (fun c : ascii => (Ascii.eqb c CR || Ascii.eqb c LF)%bool) with is_line_end.
  rewrite split_on_plain by assumption. simpl. now rewrite Hs.
Qed.

(** C2.  Over a stream that ends with [io.EOF], [iterLines] yields the
    bytes split on every carriage return and line feed, without the empty
    segments: whatever the reads with no byte in between, whatever the mix
    of terminators.  A non-empty line that no terminator closes is yielded
    last. *)
Theorem iterLines_yields_nonempty_segments :
  (forall rs : list (option ascii),
      collect (iterLines {| reads := rs; last_byte := None; last_eof := true |})
      = Spec.tokens (bytes_of rs)) /\
  (forall bs : list ascii,
      collect (iterLines (reader_of_bytes bs)) = Spec.tokens bs) /\
  (forall (pre : list ascii) (partial : string),
      nonempty partial = true ->
      Str.forallb (fun c => negb (is_line_end c)) partial = true ->
      pre = [] \/ (exists pre' t, pre = (pre' ++ [t])%list /\ is_line_end t = true) ->
      collect (iterLines (reader_of_bytes (pre ++ to_list partial)))
      = (Spec.tokens pre ++ [partial])%list).
Proof.
  assert (Hbs : forall bs, collect (iterLines (reader_of_bytes bs)) = Spec.tokens bs).
  { intros bs. unfold reader_of_bytes.
    now rewrite collect_iterLines, bytes_of_map_Some. }
  split; [intros rs; apply collect_iterLines|].
  split; [exact Hbs|].
  intros pre partial Hne Hplain Hpre. rewrite Hbs.
  destruct Hpre as [->|(pre' & t & -> & Ht)].
  - simpl. now apply tokens_plain.
  - rewrite <- app_assoc. simpl.
    rewrite tokens_app, tokens_end by assumption.
    now rewrite tokens_plain.
Qed.

Lemma iterLines_yields_nonempty_segments_witness :
  collect (iterLines (reader_of_bytes
             ((Str.to_list "ab" ++ [CR; LF]) ++ Str.to_list "cd")%list))
  = (Spec.tokens (Str.to_list "ab" ++ [CR; LF]) ++ ["cd"])%list.
Proof.
  apply (proj2 (proj2 iterLines_yields_nonempty_segments)).
  - reflexivity.
  - reflexivity.
  - right. exists (Str.to_list "ab" ++ [CR])%list, LF. split; reflexivity.
Defined.

End LinesFacts.
(** ** Rounding and the derived sizes *)

Module RoundFacts.
Import F64.

(** [x == 0] holds of the two zeros and of nothing else. *)
Lemma eqb_zero (x : float64) :
  eqb x zero = true <-> exists s, x = S754_zero s.
Proof.
  split.
  - destruct x as [s|s| |s m e]; try discriminate.
    + intros _. now exists s.
    + now destruct s.
    + now destruct s.
  - intros [s ->]. reflexivity.
Qed.

Lemma eqb_zero_false (x : float64) :
  (forall s, x <> S754_zero s) -> eqb x zero = false.
Proof.
  intros H. destruct (eqb x zero) eqn:E; [|reflexivity].
  apply eqb_zero in E as [s ->]. now destruct (H s).
Qed.

Lemma Pow_ten_1 : Pow ten 1 = ten.
Proof. reflexivity. Qed.

(** C10, against the claim as stated: with the precision -1 the helper of
    [handbrake] rounds 14 to the nearest ten, the helper of [ffmpeg]
    returns 14. *)
Lemma round_helpers_differ_at_negative_precision :
  is_float64 (of_int 14) /\
  handbrake.round (of_int 14) (-1) = of_int 10 /\
  ffmpeg.round (of_int 14) (-1) = of_int 14 /\
  handbrake.round (of_int 14) (-1) <> ffmpeg.round (of_int 14) (-1).
Proof.
  repeat split; try reflexivity. vm_compute. discriminate.
Qed.

(** C10, amended.  The two helpers agree at every precision that is not
    negative; at a negative one the helper of [ffmpeg] returns its argument
    as it is. *)
Theorem round_helpers_agree_from_zero :
  (forall (v : float64) (N : Z), 0 <= N -> handbrake.round v N = ffmpeg.round v N) /\
  (forall (v : float64) (N : Z), N < 0 -> ffmpeg.round v N = v).
Proof.
  split; intros v N HN; unfold handbrake.round, ffmpeg.round.
  - destruct (Z.ltb_spec N 0); [lia | reflexivity].
  - destruct (Z.ltb_spec N 0); [reflexivity | lia].
Qed.

Lemma round_helpers_agree_from_zero_witness :
  handbrake.round (of_int 14) 2 = ffmpeg.round (of_int 14) 2 /\
  ffmpeg.round (of_int 14) (-3) = of_int 14.
Proof.
  split.
  - apply (proj1 round_helpers_agree_from_zero). lia.
  - apply (proj2 round_helpers_agree_from_zero). lia.
Defined.

End RoundFacts.
(** ** The extractor of [ffmpeg] *)

Module ProgressFacts.
Import F64 ffmpeg.

(** What a line of the output says, if it says it. *)
Definition out_time_value (text : string) : option Z :=
  let line := strings.TrimSpace text in
  if strings.HasPrefix line "out_time_ms="
  then strconv.ParseInt (strings.TrimPrefix line "out_time_ms=")
  else None.

Definition fps_value (text : string) : option float64 :=
  let line := strings.TrimSpace text in
  if strings.HasPrefix line "fps=" then
    match strconv.ParseFloat (strings.TrimPrefix line "fps=") with
    | strconv.FloatOk fps => Some fps
    | _ => None
    end
  else None.

Definition size_value (text : string) : option Z :=
  let line := strings.TrimSpace text in
  if strings.HasPrefix line "total_size="
  then strconv.ParseInt (strings.TrimPrefix line "total_size=")
  else None.


(** The last value read from [lines], [d] when there is none. *)
Definition latest {A : Type} (f : string -> option A) (d : A) (lines : list string) : A :=
  fold_left (fun acc l => match f l with Some v => v | None => acc end) lines d.

(** Percent, speed and size of the snapshots to expect from [lines], the
    lines [before] having been read: one for each line with a parsable
    [out_time_ms] value, with the last speed and the last size read up to
    that line. *)
Fixpoint expected (totalDuration : Z) (before lines : list string)
  : list (float64 * float64 * Z) :=
  match lines with
  | [] => []
  | l :: rest =>
      match out_time_value l with
      | Some ms =>
          (percent_of ms totalDuration, latest fps_value zero (before ++ [l]),
           latest size_value 0 (before ++ [l]))
          :: expected totalDuration (before ++ [l]) rest
      | None => expected totalDuration (before ++ [l]) rest
      end
  end.

Definition fields (p : EncodeProgress) : float64 * float64 * Z :=
  (Percent p, FPSAvg p, CurrentSize p).

Definition record (p : EncodeProgress) (acc : list EncodeProgress)
  : list EncodeProgress * bool := (p :: acc, true).

Lemma latest_snoc {A : Type} (f : string -> option A) d before l :
  latest f d (before ++ [l]) =
  match f l with Some v => v | None => latest f d before end.
Proof. unfold latest. now rewrite fold_left_app. Qed.

Section Loop.
Variable now : nat -> Z.
Variable indefinite : float64 -> Z.

(** [track] keeps the speed and the size up to date. *)
Lemma track_latest i text before st :
  FPSAvg (currentProgress st) = latest fps_value zero before ->
  CurrentSize (currentProgress st) = latest size_value 0 before ->
  let st' := track now i (strings.TrimSpace text) st in
  FPSAvg (currentProgress st') = latest fps_value zero (before ++ [text]) /\
  CurrentSize (currentProgress st') = latest size_value 0 (before ++ [text]).
Proof.
  intros Hf Hs. rewrite !latest_snoc. unfold fps_value, size_value, track.
  set (line := strings.TrimSpace text).
  destruct (strings.HasPrefix line "progress=continue" && negb (progressStarted st))%bool;
    destruct (strings.HasPrefix line "fps=");
    try destruct (strconv.ParseFloat (strings.TrimPrefix line "fps="));
    destruct (strings.HasPrefix line "total_size=");
    try destruct (strconv.ParseInt (strings.TrimPrefix line "total_size="));
    simpl; auto.
Qed.

(** [out_time] changes neither of them. *)
Lemma out_time_keeps total i line st :
  let '(st', _) := out_time now indefinite total i line st in
  FPSAvg (currentProgress st') = FPSAvg (currentProgress st) /\
  CurrentSize (currentProgress st') = CurrentSize (currentProgress st).
Proof.
  unfold out_time.
  destruct (strings.HasPrefix line "out_time_ms="); [|now split].
  destruct (strconv.ParseInt _); [|now split].
  destruct (0 <? total); now split.
Qed.

Lemma out_time_snapshot total i text st :
  0 < total ->
  snd (out_time now indefinite total i (strings.TrimSpace text) st) = None /\
    out_time_value text = None \/
  exists p ms,
    snd (out_time now indefinite total i (strings.TrimSpace text) st) = Some p /\
    out_time_value text = Some ms /\
    fields p = (percent_of ms total, FPSAvg (currentProgress st),
                CurrentSize (currentProgress st)).
Proof.
  intros Htotal. unfold out_time, out_time_value.
  destruct (strings.HasPrefix _ "out_time_ms="); [|now left].
  destruct (strconv.ParseInt _) as [ms|]; [|now left].
  apply Z.ltb_lt in Htotal. rewrite Htotal. right.
  eexists; exists ms. split; [reflexivity|]. split; reflexivity.
Qed.

Lemma out_time_silent total i line st :
  total <= 0 -> snd (out_time now indefinite total i line st) = None.
Proof.
  intros Htotal. unfold out_time.
  destruct (strings.HasPrefix _ _); [|reflexivity].
  destruct (strconv.ParseInt _); [|reflexivity].
  destruct (Z.ltb_spec 0 total); [lia | reflexivity].
Qed.

Lemma loop_record total lines : forall i before st acc,
  0 < total ->
  FPSAvg (currentProgress st) = latest fps_value zero before ->
  CurrentSize (currentProgress st) = latest size_value 0 before ->
  map fields (rev (iterProgress_loop now indefinite record total lines i st acc)) =
  (map fields (rev acc) ++ expected total before lines)%list.
Proof.
  induction lines as [|text rest IH]; intros i before st acc Htotal Hf Hs; simpl.
  - now rewrite app_nil_r.
  - destruct (track_latest i text before st Hf Hs) as [Hf' Hs'].
    set (st1 := track now i (strings.TrimSpace text) st) in *.
    pose proof (out_time_keeps total i (strings.TrimSpace text) st1) as Hkeep.
    destruct (out_time_snapshot total i text st1 Htotal)
      as [[Hnone Hval]|(p & ms & Hsome & Hval & Hp)];
      destruct (out_time now indefinite total i (strings.TrimSpace text) st1)
        as [st2 snapshot]; simpl in *; subst snapshot; rewrite Hval;
      destruct Hkeep as [Kf Ks].
    + apply IH; [assumption | congruence | congruence].
    + rewrite (IH (S i) (before ++ [text])%list st2 (p :: acc) Htotal)
        by congruence.
      simpl. rewrite map_app, <- app_assoc. simpl.
      now rewrite Hp, <- Hf', <- Hs'.
Qed.

Lemma loop_silent total lines : forall i st acc,
  total <= 0 ->
  iterProgress_loop now indefinite record total lines i st acc = acc.
Proof.
  induction lines as [|text rest IH]; intros i st acc Htotal; simpl; [reflexivity|].
  pose proof (out_time_silent total i (strings.TrimSpace text)
                (track now i (strings.TrimSpace text) st) Htotal) as Hnone.
  destruct (out_time _ _ _ _ _ _) as [st2 snapshot]. simpl in Hnone. subst snapshot.
  now apply IH.
Qed.

End Loop.

(** The stream whose lines are [ls], each closed by a line feed. *)
Definition stream_of (ls : list string) : list ascii :=
  flat_map (fun l => Str.to_list l ++ [LF])%list ls.


End ProgressFacts.
(** ** The argument vectors *)

Module ArgsFacts.
Import F64 strconv.

(** What a formatted number starts with: a digit, or a sign and a digit,
    or the name of an infinity or of NaN.  No flag does. *)
Definition numeric (s : string) : bool :=
  match s with
  | String c r =>
      is_digit c || Ascii.eqb c "N" || Ascii.eqb c "+" ||
      (Ascii.eqb c "-" &&
       match r with
       | String c2 _ => is_digit c2 || Ascii.eqb c2 "I"
       | EmptyString => false
       end)
  | EmptyString => false
  end.

Lemma digit_char_is_digit n : is_digit (digit_char (n mod 10)) = true.
Proof.
  pose proof (Z.mod_pos_bound n 10 ltac:(lia)) as H.
  assert (n mod 10 = 0 \/ n mod 10 = 1 \/ n mod 10 = 2 \/ n mod 10 = 3 \/
          n mod 10 = 4 \/ n mod 10 = 5 \/ n mod 10 = 6 \/ n mod 10 = 7 \/
          n mod 10 = 8 \/ n mod 10 = 9) as Hd by lia.
  repeat (destruct Hd as [->|Hd]; [reflexivity|]). now rewrite Hd.
Qed.

Lemma digits_loop_head fuel : forall n acc,
  exists c r, digits_loop (S fuel) n acc = String c r /\ is_digit c = true.
Proof.
  induction fuel as [|fuel IH]; intros n acc.
  - simpl. destruct (n <? 10); eauto using digit_char_is_digit.
  - change (digits_loop (S (S fuel)) n acc)
      with (if n <? 10 then String (digit_char (n mod 10)) acc
            else digits_loop (S fuel) (n / 10) (String (digit_char (n mod 10)) acc)).
    destruct (n <? 10); eauto using digit_char_is_digit.
Qed.

Lemma digits_head n : exists c r, digits n = String c r /\ is_digit c = true.
Proof. apply digits_loop_head. Qed.

Lemma numeric_Itoa n : numeric (Itoa n) = true.
Proof.
  unfold Itoa. destruct (n <? 0).
  - destruct (digits_head (- n)) as (c & r & -> & Hc). simpl. now rewrite Hc.
  - destruct (digits_head n) as (c & r & -> & Hc). simpl. now rewrite Hc.
Qed.

Lemma numeric_Sprintf_f p x : numeric (Sprintf_f p x) = true.
Proof.
  assert (Hfixed : forall (neg : bool) n tail,
             numeric ((if neg then "-" else "") ++ digits n ++ tail) = true).
  { intros neg n tail. destruct (digits_head n) as (c & r & -> & Hc).
    destruct neg; simpl; now rewrite Hc. }
  unfold Sprintf_f.
  destruct x as [s|s| |s m e]; cbv zeta beta; try apply Hfixed; try reflexivity.
  now destruct s.
Qed.

(** A string that is not numeric is no formatted number. *)
Lemma numeric_neq s flag : numeric s = true -> numeric flag = false -> flag <> s.
Proof. congruence. Qed.

Lemma append_neq (pre s flag : string) :
  String.prefix pre flag = false -> flag <> (pre ++ s)%string.
Proof.
  intros Hp Heq. subst flag. revert Hp.
  induction pre as [|c pre IH]; simpl; [now destruct s|].
  destruct (Ascii.ascii_dec c c); [exact IH | congruence].
Qed.

(** ** [handbrake] *)

Definition unscaled (params : handbrake.EncodeParams) : handbrake.EncodeParams :=
  {| handbrake.InputPath := handbrake.InputPath params;
     handbrake.OutputPath := handbrake.OutputPath params;
     handbrake.Quality := handbrake.Quality params;
     handbrake.Is10Bit := handbrake.Is10Bit params;
     handbrake.FromTime := handbrake.FromTime params;
     handbrake.Duration := handbrake.Duration params;
     handbrake.Denoise := handbrake.Denoise params;
     handbrake.Width := 0;
     handbrake.Height := 0;
     handbrake.ExtraArgs := [] |}.

(** The arguments that do not depend on the size asked for. *)
Definition fixed_args (params : handbrake.EncodeParams) : list string :=
  handbrake.Encode_args (unscaled params).

Lemma handbrake_args_shape params :
  handbrake.Encode_args params =
  (fixed_args params ++
   (if (0 <? handbrake.Width params) || (0 <? handbrake.Height params) then
      if (0 <? handbrake.Width params) && (0 <? handbrake.Height params) then
        ["--width"; Itoa (handbrake.Width params);
         "--height"; Itoa (handbrake.Height params)]
      else if 0 <? handbrake.Width params then ["--width"; Itoa (handbrake.Width params)]
      else ["--height"; Itoa (handbrake.Height params)]
    else []) ++
   handbrake.ExtraArgs params)%list.
Proof.
  unfold fixed_args, handbrake.Encode_args. simpl.
  rewrite !app_nil_r.
  destruct (0 <? handbrake.Width params), (0 <? handbrake.Height params); simpl;
    now rewrite <- ?app_assoc.
Qed.

Lemma fixed_args_flag params flag :
  numeric flag = false ->
  String.prefix "duration:" flag = false ->
  ~ In flag ["HandbrakeCLI"; "--format"; "av_mp4"; "--input"; "--output"; "--optimize";
             "--encoder"; "vt_h265"; "vt_h265_10bit"; "--quality"; "--vfr";
             "--aencoder"; "ac3"; "--ab"; "160"; "--non-anamorphic"; "--verbose"; "1";
             "--start-at"; "--stop-at"; "--hqdn3d"; "light"] ->
  In flag (fixed_args params) ->
  flag = handbrake.InputPath params \/ flag = handbrake.OutputPath params.
Proof.
  intros Hnum Hdur Hfixed Hin.
  unfold fixed_args, handbrake.Encode_args in Hin.
  cbn [unscaled handbrake.InputPath handbrake.OutputPath handbrake.Quality
       handbrake.Is10Bit handbrake.FromTime handbrake.Duration handbrake.Denoise
       handbrake.Width handbrake.Height handbrake.ExtraArgs] in Hin.
  pose proof (numeric_neq _ flag (numeric_Sprintf_f 0 (handbrake.Quality params)) Hnum)
    as Hq.
  pose proof (append_neq "duration:"
                (Sprintf_f 1 (time.Seconds (handbrake.FromTime params))) flag Hdur) as Hf.
  pose proof (append_neq "duration:"
                (Sprintf_f 1 (time.Seconds (handbrake.Duration params))) flag Hdur) as Hd.
  set (q := Sprintf_f 0 (handbrake.Quality params)) in *.
  set (f := ("duration:" ++ Sprintf_f 1 (time.Seconds (handbrake.FromTime params)))%string)
    in *.
  set (d := ("duration:" ++ Sprintf_f 1 (time.Seconds (handbrake.Duration params)))%string)
    in *.
  clearbody q f d.
  destruct (handbrake.Is10Bit params), (0 <? handbrake.FromTime params),
    (0 <? handbrake.Duration params), (handbrake.Denoise params);
    simpl in Hin, Hfixed; intuition congruence.
Qed.
(** ** [ffmpeg] *)

(** [a] stands in [l] with [b] right after it. *)
Definition adjacent (a b : string) (l : list string) : Prop :=
  exists l1 l2, l = (l1 ++ a :: b :: l2)%list.

Lemma adjacent_app a b l l' : adjacent a b l -> adjacent a b (l ++ l').
Proof.
  intros (l1 & l2 & ->). exists l1, (l2 ++ l')%list.
  now rewrite <- app_assoc.
Qed.

Lemma insert_adjacent flag value a b l :
  a <> "-i" -> b <> "-i" ->
  adjacent a b l -> adjacent a b (ffmpeg.insert_before_i flag value l).
Proof.
  intros Ha Hb (l1 & l2 & ->).
  apply String.eqb_neq in Ha, Hb.
  induction l1 as [|x l1 (k1 & k2 & IH)]; simpl.
  - rewrite Ha, Hb. now exists [], (ffmpeg.insert_before_i flag value l2).
  - rewrite IH. destruct (String.eqb x "-i").
    + now exists (flag :: value :: x :: k1), k2.
    + now exists (x :: k1), k2.
Qed.

Lemma replace_adjacent a b l : forall prev,
  a <> "main" -> b <> "main" ->
  adjacent a b l -> adjacent a b (ffmpeg.replace_profile prev l).
Proof.
  intros prev Ha Hb (l1 & l2 & ->).
  apply String.eqb_neq in Ha, Hb. revert prev.
  induction l1 as [|x l1 IH]; intros prev; simpl.
  - rewrite Ha, Hb. simpl. now exists [], (ffmpeg.replace_profile (Some b) l2).
  - destruct (_ && _)%bool.
    + now exists ("main10" :: l1), l2.
    + destruct (IH (Some x)) as (k1 & k2 & ->). now exists (x :: k1), k2.
Qed.

Lemma In_insert flag value x l :
  In x (ffmpeg.insert_before_i flag value l) -> x = flag \/ x = value \/ In x l.
Proof.
  induction l as [|y l IH]; simpl; [tauto|].
  destruct (String.eqb y "-i"); simpl; intuition auto.
Qed.

Lemma In_replace x l : forall prev,
  In x (ffmpeg.replace_profile prev l) -> x = "main10" \/ In x l.
Proof.
  induction l as [|y l IH]; intros prev; simpl; [tauto|].
  destruct (_ && _)%bool; simpl.
  - intuition auto.
  - intros [->|H]; [tauto|]. apply IH in H. tauto.
Qed.

(** The vector before [-ss] and [-t] are put in and [ExtraArgs] added:
    [scale] holds the size arguments. *)
Definition ffmpeg_base (params : ffmpeg.EncodeParams) (scale : list string) : list string :=
  (["ffmpeg"; "-y"; "-progress"; "pipe:1"; "-stats_period"; "3";
    "-i"; ffmpeg.InputPath params;
    "-c:v"; "hevc_videotoolbox";
    "-q:v"; Sprintf_f 0 (ffmpeg.Quality params);
    "-profile:v"; "main";
    "-map_metadata"; "0";
    "-metadata";
    ("title=" ++ strings.TrimSuffix (filepath.Base (ffmpeg.InputPath params))
                                    (filepath.Ext (ffmpeg.InputPath params)))%string]
     ++ scale ++ [ffmpeg.OutputPath params])%list.

Definition ffmpeg_scale (params : ffmpeg.EncodeParams) : list string :=
  if (0 <? ffmpeg.Width params) || (0 <? ffmpeg.Height params) then
    ["-vf";
     if (0 <? ffmpeg.Width params) && (0 <? ffmpeg.Height params) then
       ("scale=" ++ Itoa (ffmpeg.Width params) ++ ":" ++ Itoa (ffmpeg.Height params)
          ++ ":force_original_aspect_ratio=decrease")%string
     else if 0 <? ffmpeg.Width params then
       ("scale=" ++ Itoa (ffmpeg.Width params) ++ ":-2")%string
     else ("scale=-2:" ++ Itoa (ffmpeg.Height params))%string]
  else [].

Definition seconds (d : time.Duration) : string :=
  Itoa (to_int64 (fun _ => 0) (time.Seconds d)).

(** [Encode_args] step by step. *)
Lemma ffmpeg_args_steps probe params args total :
  ffmpeg.Encode_args probe params = Some (args, total) ->
  exists a1 a2 a3,
    a1 = (if ffmpeg.Is10Bit params
          then ffmpeg.replace_profile None (ffmpeg_base params (ffmpeg_scale params))
          else ffmpeg_base params (ffmpeg_scale params)) /\
    a2 = (if 0 <? ffmpeg.FromTime params
          then ffmpeg.insert_before_i "-ss" (seconds (ffmpeg.FromTime params)) a1
          else a1) /\
    (a3 = a2 \/ a3 = ffmpeg.insert_before_i "-t" (seconds (ffmpeg.Duration params)) a2) /\
    args = (a3 ++ ffmpeg.ExtraArgs params)%list.
Proof.
  unfold ffmpeg.Encode_args. fold seconds.
  set (a0 := (_ ++ [ffmpeg.OutputPath params])%list).
  assert (Ha0 : a0 = ffmpeg_base params (ffmpeg_scale params)).
  { unfold a0, ffmpeg_base, ffmpeg_scale.
    destruct (_ || _)%bool; reflexivity. }
  rewrite Ha0. clear a0 Ha0.
  set (a1 := if ffmpeg.Is10Bit params then _ else _).
  set (a2 := if 0 <? ffmpeg.FromTime params then _ else _).
  intros H. exists a1, a2.
  destruct (0 <? ffmpeg.Duration params).
  - injection H as <- _. eexists. repeat split. now right.
  - destruct (probe _); [|discriminate].
    injection H as <- _. eexists. repeat split. now left.
Qed.

Lemma ffmpeg_adjacent probe params args total a b :
  ffmpeg.Encode_args probe params = Some (args, total) ->
  a <> "-i" -> b <> "-i" -> a <> "main" -> b <> "main" ->
  adjacent a b (ffmpeg_base params (ffmpeg_scale params)) ->
  adjacent a b args.
Proof.
  intros H Ha Hb Ha' Hb' Hadj.
  destruct (ffmpeg_args_steps _ _ _ _ H) as (a1 & a2 & a3 & E1 & E2 & E3 & ->).
  apply adjacent_app.
  assert (H1 : adjacent a b a1).
  { subst a1. destruct (ffmpeg.Is10Bit params); auto using replace_adjacent. }
  assert (H2 : adjacent a b a2).
  { subst a2. destruct (0 <? ffmpeg.FromTime params); auto using insert_adjacent. }
  destruct E3 as [->| ->]; auto using insert_adjacent.
Qed.

Lemma ffmpeg_In probe params args total flag :
  ffmpeg.Encode_args probe params = Some (args, total) ->
  numeric flag = false ->
  flag <> "-ss" -> flag <> "-t" -> flag <> "main10" ->
  In flag args ->
  In flag (ffmpeg_base params (ffmpeg_scale params)) \/ In flag (ffmpeg.ExtraArgs params).
Proof.
  intros H Hnum Hss Ht Hmain Hin.
  destruct (ffmpeg_args_steps _ _ _ _ H) as (a1 & a2 & a3 & E1 & E2 & E3 & ->).
  apply in_app_or in Hin as [Hin|Hin]; [left | now right].
  assert (Hsec : forall d, flag <> seconds d).
  { intros d. apply numeric_neq; [apply numeric_Itoa | assumption]. }
  assert (H2 : In flag a2).
  { destruct E3 as [->| ->]; [assumption|].
    apply In_insert in Hin as [?|[?|?]]; [contradiction| |assumption].
    now destruct (Hsec (ffmpeg.Duration params)). }
  assert (H1 : In flag a1).
  { subst a2. destruct (0 <? ffmpeg.FromTime params); [|assumption].
    apply In_insert in H2 as [?|[?|?]]; [contradiction| |assumption].
    now destruct (Hsec (ffmpeg.FromTime params)). }
  subst a1. destruct (ffmpeg.Is10Bit params); [|assumption].
  apply In_replace in H1 as [?|?]; [contradiction | assumption].
Qed.

(** The strings that the caller hands over as they are. *)
Definition handbrake_supplied (params : handbrake.EncodeParams) (flag : string) : Prop :=
  flag = handbrake.InputPath params \/ flag = handbrake.OutputPath params \/
  In flag (handbrake.ExtraArgs params).

Definition ffmpeg_supplied (params : ffmpeg.EncodeParams) (flag : string) : Prop :=
  flag = ffmpeg.InputPath params \/ flag = ffmpeg.OutputPath params \/
  In flag (ffmpeg.ExtraArgs params).

Lemma handbrake_flag params flag scale :
  numeric flag = false ->
  String.prefix "duration:" flag = false ->
  ~ In flag ["HandbrakeCLI"; "--format"; "av_mp4"; "--input"; "--output"; "--optimize";
             "--encoder"; "vt_h265"; "vt_h265_10bit"; "--quality"; "--vfr";
             "--aencoder"; "ac3"; "--ab"; "160"; "--non-anamorphic"; "--verbose"; "1";
             "--start-at"; "--stop-at"; "--hqdn3d"; "light"] ->
  ~ In flag scale ->
  In flag (fixed_args params ++ scale ++ handbrake.ExtraArgs params) ->
  handbrake_supplied params flag.
Proof.
  intros Hnum Hdur Hfixed Hscale Hin. unfold handbrake_supplied.
  apply in_app_or in Hin as [Hin|Hin].
  - destruct (fixed_args_flag params flag Hnum Hdur Hfixed Hin); auto.
  - apply in_app_or in Hin as [Hin|Hin]; [contradiction | auto].
Qed.

Lemma ffmpeg_base_flag params flag :
  numeric flag = false ->
  String.prefix "title=" flag = false ->
  ~ In flag ["ffmpeg"; "-y"; "-progress"; "pipe:1"; "-stats_period"; "3"; "-i"; "-c:v";
             "hevc_videotoolbox"; "-q:v"; "-profile:v"; "main"; "-map_metadata"; "0";
             "-metadata"] ->
  In flag (ffmpeg_base params []) ->
  flag = ffmpeg.InputPath params \/ flag = ffmpeg.OutputPath params.
Proof.
  intros Hnum Htitle Hfixed Hin. unfold ffmpeg_base in Hin.
  pose proof (numeric_neq _ flag (numeric_Sprintf_f 0 (ffmpeg.Quality params)) Hnum) as Hq.
  pose proof (append_neq "title="
                (strings.TrimSuffix (filepath.Base (ffmpeg.InputPath params))
                                    (filepath.Ext (ffmpeg.InputPath params)))
                flag Htitle) as Ht.
  set (q := Sprintf_f 0 (ffmpeg.Quality params)) in *.
  set (t := ("title=" ++ _)%string) in *.
  clearbody q t. simpl in Hin, Hfixed. intuition congruence.
Qed.

(** C7, against the claim as stated: [ExtraArgs] are appended as they are,
    so a vector built for no width and no height holds a scaling argument
    that the caller passes through. *)
Lemma passthrough_scaling_argument :
  let hb := {| handbrake.InputPath := "in.mkv"; handbrake.OutputPath := "out.mp4";
               handbrake.Quality := of_int 35; handbrake.Is10Bit := true;
               handbrake.FromTime := 0; handbrake.Duration := 0;
               handbrake.Denoise := false; handbrake.Width := 0; handbrake.Height := 0;
               handbrake.ExtraArgs := ["--width"; "640"] |} in
  let ff := {| ffmpeg.InputPath := "in.mkv"; ffmpeg.OutputPath := "out.mp4";
               ffmpeg.Quality := of_int 35; ffmpeg.Is10Bit := true;
               ffmpeg.FromTime := 0; ffmpeg.Duration := time.Second;
               ffmpeg.Width := 0; ffmpeg.Height := 0;
               ffmpeg.ExtraArgs := ["-vf"; "scale=640:-2"] |} in
  adjacent "--width" "640" (handbrake.Encode_args hb) /\
  exists args total,
    ffmpeg.Encode_args (fun _ => None) ff = Some (args, total) /\
    adjacent "-vf" "scale=640:-2" args.
Proof.
  intros hb ff. split.
  - exists (firstn 20 (handbrake.Encode_args hb)), []. reflexivity.
  - do 2 eexists. split; [reflexivity|].
    match goal with |- adjacent _ _ ?l => exists (firstn 21 l), [] end.
    reflexivity.
Qed.

(** C7, amended.  With no width and no height neither builder adds a
    scaling argument: the vector of [handbrake] is the fixed arguments
    followed by [ExtraArgs], and a [--width], [--height] or [-vf] stands in
    a vector only where the caller's own strings (the two paths,
    [ExtraArgs]) put it.  With the width 1920 and no height [handbrake]
    adds [--width 1920] and no [--height], [ffmpeg] adds
    [-vf scale=1920:-2].  With both positive [handbrake] adds the exact
    [--width W --height H] and [ffmpeg] adds
    [-vf scale=W:H:force_original_aspect_ratio=decrease]. *)
Theorem scaling_arguments :
  (forall params : handbrake.EncodeParams,
      let args := handbrake.Encode_args params in
      let W := handbrake.Width params in
      let H := handbrake.Height params in
      (W = 0 -> H = 0 ->
       args = (fixed_args params ++ handbrake.ExtraArgs params)%list /\
       (In "--width" args -> handbrake_supplied params "--width") /\
       (In "--height" args -> handbrake_supplied params "--height")) /\
      (W = 1920 -> H = 0 ->
       args = (fixed_args params ++ ["--width"; "1920"] ++ handbrake.ExtraArgs params)%list /\
       (In "--height" args -> handbrake_supplied params "--height")) /\
      (0 < W -> 0 < H ->
       args = (fixed_args params ++ ["--width"; Itoa W; "--height"; Itoa H]
                 ++ handbrake.ExtraArgs params)%list)) /\
  (forall (probe : string -> option time.Duration) (params : ffmpeg.EncodeParams)
          (args : list string) (total : time.Duration),
      ffmpeg.Encode_args probe params = Some (args, total) ->
      let W := ffmpeg.Width params in
      let H := ffmpeg.Height params in
      (W = 0 -> H = 0 -> In "-vf" args -> ffmpeg_supplied params "-vf") /\
      (W = 1920 -> H = 0 -> adjacent "-vf" "scale=1920:-2" args) /\
      (0 < W -> 0 < H ->
       adjacent "-vf"
         ("scale=" ++ Itoa W ++ ":" ++ Itoa H ++ ":force_original_aspect_ratio=decrease")
         args)).
Proof.
  split.
  - intros params args W H. subst args W H.
    rewrite handbrake_args_shape. split; [|split].
    + intros HW HH. rewrite HW, HH. simpl.
      split; [reflexivity|]. split; intros Hin.
      * apply (handbrake_flag params "--width" []);
          try reflexivity; try assumption; simpl; intuition congruence.
      * apply (handbrake_flag params "--height" []);
          try reflexivity; try assumption; simpl; intuition congruence.
    + intros HW HH. rewrite HW, HH. simpl.
      split; [reflexivity|]. intros Hin.
      apply (handbrake_flag params "--height" ["--width"; "1920"]);
        try reflexivity; try assumption; simpl; intuition congruence.
    + intros HW HH. apply Z.ltb_lt in HW, HH. rewrite HW, HH. reflexivity.
  - intros probe params args total Hargs W H. subst W H. repeat split.
    + intros HW HH Hin. unfold ffmpeg_supplied.
      destruct (ffmpeg_In _ _ _ _ "-vf" Hargs) as [Hb|He];
        try reflexivity; try discriminate; try assumption; [|tauto].
      unfold ffmpeg_scale in Hb. rewrite HW, HH in Hb. simpl orb in Hb. cbv iota in Hb.
      destruct (ffmpeg_base_flag params "-vf") as [?|?];
        try reflexivity; try assumption; [|tauto|tauto].
      simpl. intuition congruence.
    + intros HW HH. apply (ffmpeg_adjacent _ _ _ _ _ _ Hargs); try discriminate.
      unfold ffmpeg_scale, ffmpeg_base. rewrite HW, HH.
      match goal with |- adjacent _ _ ?l => exists (firstn 18 l), (skipn 20 l) end.
      reflexivity.
    + intros HW HH. apply (ffmpeg_adjacent _ _ _ _ _ _ Hargs); try discriminate.
      unfold ffmpeg_scale, ffmpeg_base.
      apply Z.ltb_lt in HW, HH. rewrite HW, HH.
      match goal with |- adjacent _ _ ?l => exists (firstn 18 l), (skipn 20 l) end.
      reflexivity.
Qed.

Lemma scaling_arguments_witness :
  let hb := {| handbrake.InputPath := "in.mkv"; handbrake.OutputPath := "out.mp4";
               handbrake.Quality := of_int 35; handbrake.Is10Bit := true;
               handbrake.FromTime := 0; handbrake.Duration := 0;
               handbrake.Denoise := false; handbrake.Width := 1920; handbrake.Height := 0;
               handbrake.ExtraArgs := ["--crop"; "0:0:0:0"] |} in
  let ff := {| ffmpeg.InputPath := "in.mkv"; ffmpeg.OutputPath := "out.mp4";
               ffmpeg.Quality := of_int 35; ffmpeg.Is10Bit := true;
               ffmpeg.FromTime := 90 * time.Second; ffmpeg.Duration := 0;
               ffmpeg.Width := 1280; ffmpeg.Height := 720;
               ffmpeg.ExtraArgs := [] |} in
  (In "--height" (handbrake.Encode_args hb) -> handbrake_supplied hb "--height") /\
  adjacent "-vf" "scale=1280:720:force_original_aspect_ratio=decrease"
    (ffmpeg.insert_before_i "-ss" "90"
       (ffmpeg.replace_profile None
          (ffmpeg_base ff ["-vf"; "scale=1280:720:force_original_aspect_ratio=decrease"]))).
Proof.
  intros hb ff. split.
  - apply (proj1 scaling_arguments hb); reflexivity.
  - apply (proj2 scaling_arguments (fun _ => Some (600 * time.Second)) ff _
             (600 * time.Second)); reflexivity.
Defined.

End ArgsFacts.
(** ** The matcher *)

Module RegexpFacts.
Import Str StrFacts regexp.

(** The texts that a pattern matches. *)
Fixpoint lang (r : Regexp) (u : string) : Prop :=
  match r with
  | Lit l => u = l
  | Plus cls => nonempty u = true /\ Str.forallb cls u = true
  | Star cls => Str.forallb cls u = true
  | Cat r1 r2 => exists u1 u2, u = u1 ++ u2 /\ lang r1 u1 /\ lang r2 u2
  | Group _ r1 => lang r1 u
  | Opt r1 => u = "" \/ lang r1 u
  end.

(** What the groups of a pattern capture satisfies [P]. *)
Fixpoint groups_ok (P : nat -> string -> Prop) (r : Regexp) : Prop :=
  match r with
  | Lit _ | Plus _ | Star _ => True
  | Cat r1 r2 => groups_ok P r1 /\ groups_ok P r2
  | Group i r1 => (forall u, lang r1 u -> P i u) /\ groups_ok P r1
  | Opt r1 => groups_ok P r1
  end.

Definition caps_ok (P : nat -> string -> Prop) (caps : Submatches) : Prop :=
  forall i, P i (nth i caps "").

Lemma match_lit_app l v : match_lit l (l ++ v) = Some v.
Proof.
  induction l as [|c l IH]; simpl; [reflexivity|].
  now rewrite Ascii.eqb_refl.
Qed.

Lemma match_lit_sound l : forall s s', match_lit l s = Some s' -> s = l ++ s'.
Proof.
  induction l as [|c l IH]; intros s s'; simpl.
  - congruence.
  - destruct s as [|b s]; [discriminate|].
    destruct (Ascii.eqb_spec c b) as [->|]; [|discriminate].
    intros H. now rewrite (IH _ _ H).
Qed.

Lemma take_app u v : strings.take (String.length (u ++ v) - String.length v) (u ++ v) = u.
Proof.
  rewrite length_append.
  replace (String.length u + String.length v - String.length v)%nat
    with (String.length u) by lia.
  induction u as [|c u IH]; simpl; [now destruct v | now rewrite IH].
Qed.

Lemma nth_set_nth i j w (caps : Submatches) :
  nth j (set_nth i w caps) "" = nth j caps "" \/
  (j = i /\ nth j (set_nth i w caps) "" = w).
Proof.
  revert j caps. induction i as [|i IH]; intros j [|c caps]; simpl; auto.
  - destruct j; auto.
  - destruct j; auto. destruct (IH j caps) as [H|[-> H]]; auto.
Qed.

Lemma caps_ok_set P i w caps : caps_ok P caps -> P i w -> caps_ok P (set_nth i w caps).
Proof.
  intros Hcaps Hw j. destruct (nth_set_nth i j w caps) as [->|[-> ->]]; auto.
Qed.

(** *** Completeness: a text of the language, followed by what the
    continuation accepts, is matched. *)

Lemma match_star_complete cls u : forall v caps (k : Cont),
  Str.forallb cls u = true ->
  (forall caps', k v caps' <> None) ->
  match_star cls (u ++ v) caps k <> None.
Proof.
  induction u as [|c u IH]; intros v caps k Hu Hk; simpl in *.
  - destruct v as [|c v]; simpl; [apply Hk|].
    destruct (cls c); [|apply Hk].
    destruct (match_star cls v caps k); [discriminate | apply Hk].
  - apply andb_prop in Hu as [Hc Hu]. rewrite Hc.
    specialize (IH v caps k Hu Hk).
    destruct (match_star cls (u ++ v) caps k); [discriminate | contradiction].
Qed.

Lemma match_re_complete r : forall u v caps (k : Cont),
  lang r u ->
  (forall caps', k v caps' <> None) ->
  match_re r (u ++ v) caps k <> None.
Proof.
  induction r as [l|cls|cls|r1 IH1 r2 IH2|i r1 IH1|r1 IH1];
    intros u v caps k Hu Hk; simpl in *.
  - subst u. rewrite match_lit_app. apply Hk.
  - destruct Hu as [Hne Hall]. destruct u as [|c u]; [discriminate|].
    simpl in *. apply andb_prop in Hall as [Hc Hall]. rewrite Hc.
    now apply match_star_complete.
  - now apply match_star_complete.
  - destruct Hu as (u1 & u2 & -> & H1 & H2). rewrite append_assoc.
    apply IH1; [assumption|]. intros caps'. now apply IH2.
  - apply IH1; [assumption|]. intros caps'. apply Hk.
  - destruct Hu as [->|Hu].
    + simpl. destruct (match_re r1 v caps k); [discriminate | apply Hk].
    + specialize (IH1 u v caps k Hu Hk).
      destruct (match_re r1 (u ++ v) caps k); [discriminate | contradiction].
Qed.

Lemma FindStringSubmatch_complete n r u post : forall pre,
  lang r u -> FindStringSubmatch n r (pre ++ u ++ post) <> None.
Proof.
  intros pre Hu.
  assert (Hhere : match_here n r (u ++ post) <> None).
  { unfold match_here. apply match_re_complete; [exact Hu | discriminate]. }
  induction pre as [|c pre IH]; simpl.
  - destruct (u ++ post) as [|c s]; simpl in *;
      destruct (match_here n r _); congruence.
  - destruct (match_here n r (String c (pre ++ u ++ post))); [discriminate | exact IH].
Qed.

(** *** Soundness: what is matched is a text of the language, and the
    groups hold what they matched. *)

Lemma match_star_sound cls : forall s caps (k : Cont) res,
  match_star cls s caps k = Some res ->
  exists u v, s = u ++ v /\ Str.forallb cls u = true /\ k v caps = Some res.
Proof.
  induction s as [|c s IH]; intros caps k res; simpl.
  - intros H. now exists "", "".
  - destruct (cls c) eqn:Hc; [|intros H; now exists "", (String c s)].
    destruct (match_star cls s caps k) as [r|] eqn:Hs.
    + intros [= ->]. destruct (IH _ _ _ Hs) as (u & v & -> & Hu & Hk).
      exists (String c u), v. simpl. now rewrite Hc, Hu.
    + intros H. now exists "", (String c s).
Qed.

Lemma match_re_sound P r : forall s caps (k : Cont) res,
  groups_ok P r -> caps_ok P caps ->
  match_re r s caps k = Some res ->
  exists u v caps',
    s = u ++ v /\ lang r u /\ caps_ok P caps' /\ k v caps' = Some res.
Proof.
  induction r as [l|cls|cls|r1 IH1 r2 IH2|i r1 IH1|r1 IH1];
    intros s caps k res Hg Hcaps; simpl in *.
  - destruct (match_lit l s) as [s'|] eqn:Hl; [|discriminate].
    intros H. apply match_lit_sound in Hl. now exists l, s', caps.
  - destruct s as [|c s]; [discriminate|].
    destruct (cls c) eqn:Hc; [|discriminate].
    intros H. destruct (match_star_sound _ _ _ _ _ H) as (u & v & -> & Hu & Hk).
    exists (String c u), v, caps. simpl. now rewrite Hc, Hu.
  - intros H. destruct (match_star_sound _ _ _ _ _ H) as (u & v & -> & Hu & Hk).
    now exists u, v, caps.
  - destruct Hg as [Hg1 Hg2]. intros H.
    destruct (IH1 _ _ _ _ Hg1 Hcaps H) as (u1 & v1 & caps1 & -> & Hu1 & Hc1 & H1).
    destruct (IH2 _ _ _ _ Hg2 Hc1 H1) as (u2 & v2 & caps2 & -> & Hu2 & Hc2 & H2).
    exists (u1 ++ u2), v2, caps2. rewrite append_assoc.
    repeat split; try assumption. now exists u1, u2.
  - destruct Hg as [Hi Hg1]. intros H.
    destruct (IH1 _ _ _ _ Hg1 Hcaps H) as (u & v & caps1 & -> & Hu & Hc1 & H1).
    rewrite take_app in H1.
    exists u, v, (set_nth i u caps1). repeat split; try assumption.
    apply caps_ok_set; auto.
  - destruct (match_re r1 s caps k) as [r|] eqn:H1.
    + intros [= ->]. destruct (IH1 _ _ _ _ Hg Hcaps H1) as (u & v & caps1 & -> & Hu & Hc & Hk).
      exists u, v, caps1. auto.
    + intros H. exists "", s, caps. auto.
Qed.

Lemma FindStringSubmatch_sound P n r : forall s caps,
  groups_ok P r -> (forall u, P 0%nat u) -> (forall i, P i "") ->
  FindStringSubmatch n r s = Some caps ->
  exists pre u post, s = pre ++ u ++ post /\ lang r u /\ caps_ok P caps.
Proof.
  intros s caps Hg H0 Hempty.
  assert (Hhere : forall s, match_here n r s = Some caps ->
                       exists u post, s = u ++ post /\ lang r u /\ caps_ok P caps).
  { intros s' H. unfold match_here in H.
    apply (match_re_sound P) in H as (u & v & caps' & -> & Hu & Hc & [= <-]).
    - now exists u, v.
    - simpl. auto.
    - intros i. replace (nth i (repeat "" (S n)) "") with ""; [apply Hempty|].
      generalize (S n). intros m. revert i.
      induction m as [|m IH]; intros [|i]; simpl; auto. }
  induction s as [|c s IH]; simpl.
  - destruct (match_here n r "") eqn:H; [|discriminate].
    intros [= ->]. destruct (Hhere _ H) as (u & post & E & Hu & Hc).
    now exists "", u, post.
  - destruct (match_here n r (String c s)) eqn:H.
    + intros [= ->]. destruct (Hhere _ H) as (u & post & E & Hu & Hc).
      now exists "", u, post.
    + intros H'. destruct (IH H') as (pre & u & post & -> & Hu & Hc).
      now exists (String c pre), u, post.
Qed.

End RegexpFacts.
(** ** The extractor of [handbrake] *)

Module ParseFacts.
Import F64 handbrake.

(** C4.  The line of the specification matches; the snapshot has the
    percent 42.5, the average speed 6.9 and an ETA of a minute and a
    half, with the size that [os.Stat] reports (0 when it fails). *)
Theorem parseProgress_example :
  forall (stat : string -> option Z) (outputPath : string),
    parseProgress stat
      "Encoding: task 1 of 1, 42.5 % (7.3 fps, avg 6.9 fps, ETA 00h01m30s)" outputPath
    = ({| Percent := div (of_int 425) ten;
          FPSAvg := div (of_int 69) ten;
          ETA := 60 * time.Second + 30 * time.Second;
          CurrentSize := match stat outputPath with Some size => size | None => 0 end |},
       true) /\
    strconv.Sprintf_f 1 (div (of_int 425) ten) = "42.5" /\
    strconv.Sprintf_f 1 (div (of_int 69) ten) = "6.9".
Proof. intros stat outputPath. repeat split. Qed.

(** The marker [Encoding: task N of M, P %]: [N] and [M] are digits, [P]
    is made of digits and points. *)
Definition has_marker (line : string) : Prop :=
  exists pre n m p post,
    line = pre ++ "Encoding: task " ++ n ++ " of " ++ m ++ ", " ++ p ++ " %" ++ post /\
    (Str.nonempty n = true /\ Str.forallb regexp.digit n = true) /\
    (Str.nonempty m = true /\ Str.forallb regexp.digit m = true) /\
    (Str.nonempty p = true /\ Str.forallb regexp.digit_or_dot p = true).

(** What the three groups of [progressRe] may hold. *)
Definition group_text (i : nat) (u : string) : Prop :=
  match i with
  | 1%nat | 2%nat => Str.forallb regexp.digit_or_dot u = true
  | _ => True
  end.

Lemma progressRe_groups : RegexpFacts.groups_ok group_text progressRe.
Proof. simpl. intuition. Qed.

Lemma progressRe_marker u :
  RegexpFacts.lang progressRe u ->
  exists n m p opt,
    u = "Encoding: task " ++ n ++ " of " ++ m ++ ", " ++ p ++ " %" ++ opt /\
    (Str.nonempty n = true /\ Str.forallb regexp.digit n = true) /\
    (Str.nonempty m = true /\ Str.forallb regexp.digit m = true) /\
    (Str.nonempty p = true /\ Str.forallb regexp.digit_or_dot p = true).
Proof.
  simpl.
  intros (u1 & r1 & -> & -> & n & r2 & -> & Hn & u3 & r3 & -> & -> & m & r4 & -> & Hm &
          u5 & r5 & -> & -> & p & r6 & -> & Hp & u7 & opt & -> & -> & _).
  exists n, m, p, opt. repeat split; try tauto.
Qed.

Lemma marker_progressRe n m p :
  (Str.nonempty n = true /\ Str.forallb regexp.digit n = true) ->
  (Str.nonempty m = true /\ Str.forallb regexp.digit m = true) ->
  (Str.nonempty p = true /\ Str.forallb regexp.digit_or_dot p = true) ->
  RegexpFacts.lang progressRe
    ("Encoding: task " ++ n ++ " of " ++ m ++ ", " ++ p ++ " %").
Proof.
  intros Hn Hm Hp. simpl.
  do 2 eexists; split; [|split; [reflexivity|]]; [reflexivity|].
  exists n; eexists; split; [|split; [exact Hn|]]; [reflexivity|].
  do 2 eexists; split; [|split; [reflexivity|]]; [reflexivity|].
  exists m; eexists; split; [|split; [exact Hm|]]; [reflexivity|].
  do 2 eexists; split; [|split; [reflexivity|]]; [reflexivity|].
  exists p; eexists; split; [|split; [exact Hp|]]; [reflexivity|].
  exists " %", "". split; [reflexivity|]. split; [reflexivity | now left].
Qed.

Lemma matched_iff_marker line :
  regexp.FindStringSubmatch 3 progressRe line <> None <-> has_marker line.
Proof.
  split.
  - destruct (regexp.FindStringSubmatch 3 progressRe line) as [caps|] eqn:H;
      [intros _ | congruence].
    apply (RegexpFacts.FindStringSubmatch_sound group_text) in H
        as (pre & u & post & -> & Hu & _).
    + destruct (progressRe_marker u Hu) as (n & m & p & opt & -> & Hn & Hm & Hp).
      exists pre, n, m, p, (opt ++ post).
      split; [|tauto].
      repeat (rewrite StrFacts.append_assoc; simpl). reflexivity.
    + apply progressRe_groups.
    + intros u. exact I.
    + intros [|[|[|i]]]; reflexivity.
  - intros (pre & n & m & p & post & -> & Hn & Hm & Hp).
    pose proof (marker_progressRe n m p Hn Hm Hp) as Hlang.
    pose proof (RegexpFacts.FindStringSubmatch_complete 3 progressRe _ post pre Hlang) as H.
    destruct (regexp.FindStringSubmatch 3 progressRe _) eqn:E in H; [|contradiction].
    revert E. repeat (rewrite StrFacts.append_assoc; simpl). congruence.
Qed.

Lemma existsb_append p (s t : string) :
  Str.existsb p (s ++ t) = Str.existsb p s || Str.existsb p t.
Proof.
  induction s as [|c s IH]; simpl; [reflexivity|].
  now rewrite IH, orb_assoc.
Qed.

Lemma marker_has_percent line :
  has_marker line -> Str.existsb (Ascii.eqb "%") line = true.
Proof.
  intros (pre & n & m & p & post & -> & _).
  rewrite existsb_append. apply orb_true_iff. right.
  change ("Encoding: task " ++ n ++ " of " ++ m ++ ", " ++ p ++ " %" ++ post)
    with ("Encoding: task " ++ (n ++ " of " ++ (m ++ ", " ++ (p ++ " %" ++ post)))).
  rewrite !existsb_append. simpl. rewrite !orb_true_r. reflexivity.
Qed.

(** C5, against the claim as stated: a percent of 310 digits is too large
    for a [float64]; [ParseFloat] returns an error ([ErrRange]) together
    with [+Inf], and the percent of the snapshot is [+Inf], not zero. *)
Lemma out_of_range_percent_is_not_zero :
  let line := "Encoding: task 1 of 1, 1" ++ strconv.zeros 309 ++ " %" in
  let result := parseProgress (fun _ => None) line "out.mp4" in
  exists matches,
    regexp.FindStringSubmatch 3 progressRe line = Some matches /\
    strconv.ParseFloat (nth 1 matches "") = strconv.FloatRange (S754_infinity false) /\
    snd result = true /\
    Percent (fst result) = S754_infinity false /\
    Percent (fst result) <> zero.
Proof.
  eexists. split; [vm_compute; reflexivity|].
  split; [vm_compute; reflexivity|].
  split; [vm_compute; reflexivity|].
  split; [vm_compute; reflexivity|].
  vm_compute. discriminate.
Qed.

Lemma round_zero : div (Round (mul zero ten)) ten = zero.
Proof. reflexivity. Qed.

(** [parseProgress] on a match, field by field. *)
Lemma parseProgress_matched stat line outputPath matches :
  regexp.FindStringSubmatch 3 progressRe line = Some matches ->
  let clause := ((4 <=? List.length matches)%nat && Str.nonempty (nth 2 matches ""))%bool in
  parseProgress stat line outputPath =
  ({| Percent :=
        div (Round (mul (strconv.float_value (strconv.ParseFloat (nth 1 matches ""))) ten))
            ten;
      FPSAvg :=
        if clause then strconv.float_value (strconv.ParseFloat (nth 2 matches ""))
        else zero;
      ETA :=
        if clause then
          match time.ParseDuration (strings.TrimSpace (nth 3 matches "")) with
          | Some d => d
          | None => 0
          end
        else 0;
      CurrentSize := match stat outputPath with Some size => size | None => 0 end |},
   true).
Proof.
  intros H clause. unfold parseProgress. rewrite H. fold clause.
  now destruct clause.
Qed.

(** C5, amended.  [parseProgress] has no error to return.  It reports a
    match exactly for the lines that hold the marker
    [Encoding: task N of M, P %], so never for a line without a [%], and
    then returns the zero snapshot.  On a match a percent or a speed that
    is no number syntactically is zero, a speed and an ETA are zero when
    the optional clause is absent, and an ETA that is no duration is zero.
    (A well-formed number too large for a [float64] is [+Inf].) *)
Theorem parseProgress_absorbs_parse_failures :
  forall (stat : string -> option Z) (line outputPath : string),
    let p := fst (parseProgress stat line outputPath) in
    let matched := snd (parseProgress stat line outputPath) in
    (matched = true <-> has_marker line) /\
    (Str.existsb (Ascii.eqb "%") line = false -> matched = false) /\
    (matched = false -> p = no_progress) /\
    (forall matches,
        regexp.FindStringSubmatch 3 progressRe line = Some matches ->
        (strconv.ParseFloat (nth 1 matches "") = strconv.FloatSyntax ->
         Percent p = zero) /\
        (nth 2 matches "" = "" \/
         strconv.ParseFloat (nth 2 matches "") = strconv.FloatSyntax ->
         FPSAvg p = zero) /\
        (nth 2 matches "" = "" \/
         time.ParseDuration (strings.TrimSpace (nth 3 matches "")) = None ->
         ETA p = 0)).
Proof.
  intros stat line outputPath p matched.
  assert (Hm : matched = true <-> has_marker line).
  { rewrite <- matched_iff_marker. subst matched.
    destruct (regexp.FindStringSubmatch 3 progressRe line) as [matches|] eqn:H.
    - rewrite (parseProgress_matched stat line outputPath matches H). simpl.
      split; [discriminate | reflexivity].
    - unfold parseProgress. rewrite H. simpl.
      split; [discriminate | congruence]. }
  split; [exact Hm|]. split; [|split].
  - intros Hpc. destruct (Bool.bool_dec matched true) as [E|E].
    + apply Hm, marker_has_percent in E. congruence.
    + now destruct matched.
  - subst p matched.
    destruct (regexp.FindStringSubmatch 3 progressRe line) as [matches|] eqn:H.
    + rewrite (parseProgress_matched stat line outputPath matches H). discriminate.
    + unfold parseProgress. now rewrite H.
  - intros matches Hfind. subst p.
    rewrite (parseProgress_matched stat line outputPath matches Hfind). simpl.
    split; [|split].
    + intros Hsyntax. rewrite Hsyntax. apply round_zero.
    + intros [Hempty|Hsyntax].
      * rewrite Hempty. simpl. now rewrite andb_false_r.
      * rewrite Hsyntax. now destruct (_ && _)%bool.
    + intros [Hempty|Hnone].
      * rewrite Hempty. simpl. now rewrite andb_false_r.
      * rewrite Hnone. now destruct (_ && _)%bool.
Qed.

Lemma parseProgress_absorbs_parse_failures_witness :
  let line := "Encoding: task 1 of 2, 1.2.3 % (7.3 fps, avg . fps, ETA --h--m--s)" in
  let p := fst (parseProgress (fun _ => None) line "out.mp4") in
  (snd (parseProgress (fun _ => None) "Encoding: task 1 of 2, done" "out.mp4") = false) /\
  Percent p = zero /\ FPSAvg p = zero /\ ETA p = 0.
Proof.
  intros line p. split.
  - apply (proj1 (proj2 (parseProgress_absorbs_parse_failures _ _ _))). reflexivity.
  - pose proof (proj2 (proj2 (proj2
                  (parseProgress_absorbs_parse_failures (fun _ => None) line "out.mp4")))
                  ["Encoding: task 1 of 2, 1.2.3 % (7.3 fps, avg . fps, ETA --h--m--s)";
                   "1.2.3"; "."; "--h--m--s"] eq_refl) as (HP & HF & HE).
    split; [apply HP; reflexivity|].
    split; [apply HF; right; reflexivity | apply HE; right; reflexivity].
Defined.

End ParseFacts.
(** ** Rounding to [float64] *)

Module RoundingFacts.
Import F64.

(** *** Digits *)

Lemma digits2_pos_log2 (m : positive) :
  Z.pos (digits2_pos m) = Z.log2 (Z.pos m) + 1.
Proof.
  induction m as [m IH|m IH|]; simpl digits2_pos; [| |reflexivity].
  - rewrite Pos2Z.inj_succ, IH.
    change (Z.pos m~1) with (2 * Z.pos m + 1).
    rewrite Z.log2_succ_double by lia. lia.
  - rewrite Pos2Z.inj_succ, IH.
    change (Z.pos m~0) with (2 * Z.pos m).
    rewrite Z.log2_double by lia. lia.
Qed.

(** The number of binary digits of [m >= 0]. *)
Lemma Zdigits2_log2 (m : Z) : 0 < m -> Zdigits2 m = Z.log2 m + 1.
Proof. destruct m; try lia. intros _. apply digits2_pos_log2. Qed.

Lemma Zdigits2_nonneg (m : Z) : 0 <= Zdigits2 m.
Proof. destruct m; simpl; lia. Qed.

Lemma Zdigits2_bounds (m : Z) :
  0 < m -> 2 ^ (Zdigits2 m - 1) <= m < 2 ^ Zdigits2 m.
Proof.
  intros Hm. rewrite Zdigits2_log2 by assumption.
  replace (Z.log2 m + 1 - 1) with (Z.log2 m) by lia.
  pose proof (Z.log2_spec m Hm). now rewrite <- Z.add_1_r in *.
Qed.

Lemma Zdigits2_unique (m g : Z) :
  0 < g -> 2 ^ (g - 1) <= m < 2 ^ g -> Zdigits2 m = g.
Proof.
  intros Hg Hm.
  assert (0 < m) by (pose proof (Z.pow_pos_nonneg 2 (g - 1)); lia).
  rewrite Zdigits2_log2 by assumption.
  rewrite (Z.log2_unique m (g - 1)); try lia.
  now replace (Z.succ (g - 1)) with g by lia.
Qed.

(** *** Where a quotient lies between two integers *)

(** The location of [n / d] with respect to the integer [m] below it. *)
Definition loc_of (n d : Z) : location :=
  if n mod d =? 0 then loc_Exact else loc_Inexact (2 * (n mod d) ?= d).

Definition record_of (n d : Z) : shr_record :=
  shr_record_of_loc (n / d) (loc_of n d).

Lemma loc_of_record m l : loc_of_shr_record (shr_record_of_loc m l) = l.
Proof. now destruct l as [|[| |]]. Qed.

Lemma shr_m_record m l : shr_m (shr_record_of_loc m l) = m.
Proof. now destruct l as [|[| |]]. Qed.

Lemma div_mod_double (n d : Z) :
  0 < d -> 0 <= n ->
  n / (2 * d) = n / d / 2 /\
  n mod (2 * d) = n mod d + d * ((n / d) mod 2).
Proof.
  intros Hd Hn.
  assert (H1 : n / (2 * d) = n / d / 2).
  { rewrite (Z.mul_comm 2 d). now rewrite Z.div_div by lia. }
  split; [exact H1|].
  pose proof (Z.div_mod n (2 * d) ltac:(lia)) as E1.
  pose proof (Z.div_mod n d ltac:(lia)) as E2.
  pose proof (Z.div_mod (n / d) 2 ltac:(lia)) as E3.
  rewrite H1 in E1. nia.
Qed.

Lemma shr_1_spec (m : Z) (r s : bool) :
  0 <= m ->
  shr_1 {| shr_m := m; shr_r := r; shr_s := s |} =
  {| shr_m := m / 2; shr_r := Z.odd m; shr_s := r || s |}.
Proof.
  intros Hm. destruct m as [|p|p]; [reflexivity| |lia].
  destruct p as [p|p|]; simpl shr_1; f_equal.
  - rewrite Pos2Z.inj_xI. apply Z.div_unique with 1; lia.
  - rewrite Pos2Z.inj_xO. apply Z.div_unique with 0; lia.
Qed.

Lemma record_of_bits (n d : Z) :
  0 < d ->
  record_of n d =
  {| shr_m := n / d;
     shr_r := negb (n mod d =? 0) && (d <=? 2 * (n mod d));
     shr_s := negb (n mod d =? 0) && negb (2 * (n mod d) =? d) |}.
Proof.
  intros Hd. unfold record_of, loc_of.
  destruct (Z.eqb_spec (n mod d) 0); [reflexivity|].
  destruct (Z.compare_spec (2 * (n mod d)) d);
    destruct (Z.leb_spec d (2 * (n mod d)));
    destruct (Z.eqb_spec (2 * (n mod d)) d); try lia; reflexivity.
Qed.

(** One step to the right halves the quotient and keeps its location. *)
Lemma shr_1_record (n d : Z) :
  0 < d -> 0 <= n -> shr_1 (record_of n d) = record_of n (2 * d).
Proof.
  intros Hd Hn.
  rewrite !record_of_bits by lia.
  pose proof (Z.div_pos n d Hn Hd) as Hm.
  rewrite shr_1_spec by assumption.
  destruct (div_mod_double n d Hd Hn) as [Hq Hr]. rewrite Hq, Hr.
  pose proof (Z.mod_pos_bound n d Hd) as Hb.
  set (m := n / d) in *. set (r := n mod d) in *.
  rewrite Zmod_odd.
  destruct (Z.odd m); f_equal;
    repeat match goal with
           | |- context [Z.eqb ?a ?b] => destruct (Z.eqb_spec a b)
           | |- context [Z.leb ?a ?b] => destruct (Z.leb_spec a b)
           end; simpl; try reflexivity; lia.
Qed.

(** [iter_pos] is plain iteration. *)
Lemma iter_pos_nat {A : Type} (f : A -> A) (p : positive) (x : A) :
  iter_pos f p x = Nat.iter (Pos.to_nat p) f x.
Proof.
  assert (Hswap : forall k y, Nat.iter k f (f y) = f (Nat.iter k f y)).
  { induction k as [|k IHk]; intros y; simpl; [reflexivity | now rewrite IHk]. }
  revert x. induction p as [p IH|p IH|]; intros x; simpl iter_pos.
  - rewrite !IH, Pos2Nat.inj_xI.
    replace (S (2 * Pos.to_nat p)) with (S (Pos.to_nat p + Pos.to_nat p)) by lia.
    simpl. now rewrite Nat.iter_add, !Hswap.
  - rewrite !IH, Pos2Nat.inj_xO.
    replace (2 * Pos.to_nat p)%nat with (Pos.to_nat p + Pos.to_nat p)%nat by lia.
    now rewrite Nat.iter_add.
  - reflexivity.
Qed.

Lemma iter_shr_1_record (k : nat) (n d : Z) :
  0 < d -> 0 <= n ->
  Nat.iter k shr_1 (record_of n d) = record_of n (2 ^ Z.of_nat k * d).
Proof.
  intros Hd Hn. induction k as [|k IH].
  - change (2 ^ Z.of_nat 0) with 1. now rewrite Z.mul_1_l.
  - rewrite Nat2Z.inj_succ, Z.pow_succ_r by lia.
    change (Nat.iter (S k) shr_1 (record_of n d))
      with (shr_1 (Nat.iter k shr_1 (record_of n d))).
    rewrite IH.
    assert (0 < 2 ^ Z.of_nat k) by (apply Z.pow_pos_nonneg; lia).
    rewrite shr_1_record by nia.
    f_equal. lia.
Qed.

(** A shift by [k] places. *)
Lemma shr_record (n d e k : Z) :
  0 < d -> 0 <= n -> 0 <= k ->
  shr (record_of n d) e k = (record_of n (2 ^ k * d), e + k).
Proof.
  intros Hd Hn Hk. unfold shr. destruct k as [|p|p]; [| |lia].
  - change (2 ^ 0) with 1. now rewrite Z.mul_1_l, Z.add_0_r.
  - rewrite iter_pos_nat, iter_shr_1_record by assumption.
    now rewrite positive_nat_Z.
Qed.

End RoundingFacts.
Module RoundFacts2.
Import F64 RoundingFacts.

(** *** Rounding a quotient to the nearest integer, ties to even *)

Definition rne (n d : Z) : Z := round_nearest_even (n / d) (loc_of n d).

Lemma rne_cases (n d : Z) :
  0 < d ->
  (2 * (n mod d) < d /\ rne n d = n / d) \/
  (2 * (n mod d) = d /\ rne n d = n / d + (n / d) mod 2) \/
  (d < 2 * (n mod d) /\ rne n d = n / d + 1).
Proof.
  intros Hd. unfold rne, loc_of, round_nearest_even.
  pose proof (Z.mod_pos_bound n d Hd) as Hb.
  destruct (Z.eqb_spec (n mod d) 0) as [E|E]; [left; lia|].
  destruct (Z.compare_spec (2 * (n mod d)) d) as [C|C|C]; [|left; lia|right; right; lia].
  right; left. split; [assumption|].
  rewrite Zmod_even. destruct (Z.even (n / d)); lia.
Qed.

Lemma rne_between (n d : Z) : 0 < d -> n / d <= rne n d <= n / d + 1.
Proof.
  intros Hd. pose proof (Z.mod_pos_bound (n / d) 2 ltac:(lia)).
  destruct (rne_cases n d Hd) as [[_ ->]|[[_ ->]|[_ ->]]]; lia.
Qed.

(** [rne] stays below every integer that is above the quotient, and above
    every integer that is below it. *)
Lemma rne_le (n d B : Z) : 0 < d -> n <= B * d -> rne n d <= B.
Proof.
  intros Hd Hn.
  pose proof (Z.div_mod n d ltac:(lia)) as E.
  pose proof (Z.mod_pos_bound n d Hd) as Hb.
  pose proof (Z.mod_pos_bound (n / d) 2 ltac:(lia)).
  assert (n / d <= B) by nia.
  destruct (rne_cases n d Hd) as [[_ ->]|[[C ->]|[C ->]]]; try lia; nia.
Qed.

Lemma rne_ge (n d B : Z) : 0 < d -> B * d <= n -> B <= rne n d.
Proof.
  intros Hd Hn.
  pose proof (Z.div_mod n d ltac:(lia)) as E.
  pose proof (Z.mod_pos_bound n d Hd) as Hb.
  assert (B <= n / d) by nia.
  pose proof (rne_between n d Hd). lia.
Qed.

Lemma rne_exact (B d : Z) : 0 < d -> rne (B * d) d = B.
Proof.
  intros Hd. pose proof (rne_le (B * d) d B Hd ltac:(lia)).
  pose proof (rne_ge (B * d) d B Hd ltac:(lia)). lia.
Qed.

(** The error of [rne] is half a unit at most. *)
Lemma rne_error (n d : Z) : 0 < d -> 2 * Z.abs (rne n d * d - n) <= d.
Proof.
  intros Hd.
  pose proof (Z.div_mod n d ltac:(lia)) as E.
  pose proof (Z.mod_pos_bound n d Hd) as Hb.
  pose proof (Z.mod_pos_bound (n / d) 2 ltac:(lia)).
  destruct (rne_cases n d Hd) as [[C ->]|[[C ->]|[C ->]]]; nia.
Qed.

Lemma loc_of_scale (c n d : Z) : 0 < c -> 0 < d -> loc_of (c * n) (c * d) = loc_of n d.
Proof.
  intros Hc Hd. unfold loc_of.
  rewrite Z.mul_mod_distr_l by lia.
  pose proof (Z.mod_pos_bound n d Hd) as Hb.
  destruct (Z.eqb_spec (c * (n mod d)) 0), (Z.eqb_spec (n mod d) 0); try nia; try reflexivity.
  f_equal. rewrite Z.mul_assoc, (Z.mul_comm 2 c), <- Z.mul_assoc.
  now rewrite <- Zmult_compare_compat_l by lia.
Qed.

Lemma rne_scale (c n d : Z) : 0 < c -> 0 < d -> rne (c * n) (c * d) = rne n d.
Proof.
  intros Hc Hd. unfold rne.
  rewrite loc_of_scale by assumption.
  now rewrite Z.div_mul_cancel_l by lia.
Qed.

End RoundFacts2.
Module RoundFacts3.
Import F64 RoundingFacts RoundFacts2.

(** *** What [binary_round_aux] returns *)

Lemma fexp_eq (z : Z) : fexp prec emax z = Z.max (z - 53) (-1074).
Proof. reflexivity. Qed.

(** The float of mantissa [M] and exponent [E], after the carry of a
    mantissa that rounding took to [2^53]. *)
Definition finish (s : bool) (M E : Z) : float64 :=
  match M with
  | Z0 => S754_zero s
  | Z.pos p =>
      if Z.pos (digits2_pos p) <=? 53 then
        if E <=? 971 then S754_finite s p E else S754_infinity s
      else
        if E + 1 <=? 971 then S754_finite s (Pos.div2 p) (E + 1) else S754_infinity s
  | Z.neg _ => S754_nan
  end.

Lemma shr_fexp_record (n d e : Z) :
  0 < d -> 0 <= n ->
  e <= fexp prec emax (Zdigits2 (n / d) + e) ->
  shr_fexp prec emax (n / d) e (loc_of n d) =
  (record_of n (2 ^ (fexp prec emax (Zdigits2 (n / d) + e) - e) * d),
   fexp prec emax (Zdigits2 (n / d) + e)).
Proof.
  intros Hd Hn He. unfold shr_fexp. fold (record_of n d).
  rewrite shr_record by lia. f_equal. lia.
Qed.

(** The mantissa that the first rounding gives. *)
Lemma rne_range (n d e : Z) :
  0 < d -> 0 <= n ->
  e <= fexp prec emax (Zdigits2 (n / d) + e) ->
  let E := fexp prec emax (Zdigits2 (n / d) + e) in
  let M := rne n (2 ^ (E - e) * d) in
  0 <= M <= 2 ^ 53 /\ (E = -1074 \/ 2 ^ 52 <= M).
Proof.
  intros Hd Hn He E M. subst M.
  set (k := E - e). assert (Hk : 0 <= k) by (unfold k, E; lia).
  assert (Hpk : 0 < 2 ^ k) by (apply Z.pow_pos_nonneg; lia).
  assert (HD : 0 < 2 ^ k * d) by nia.
  pose proof (rne_between n (2 ^ k * d) HD) as Hb.
  assert (Hq : n / (2 ^ k * d) = n / d / 2 ^ k).
  { rewrite (Z.mul_comm (2 ^ k) d). now rewrite Z.div_div by lia. }
  rewrite Hq in Hb.
  pose proof (Z.div_pos n d Hn Hd) as Hm.
  set (m := n / d) in *.
  pose proof (Zdigits2_nonneg m) as Hg.
  assert (Hlow : 0 <= m / 2 ^ k) by (apply Z.div_pos; lia).
  assert (Hup : m / 2 ^ k < 2 ^ 53).
  { apply Z.div_lt_upper_bound; [assumption|].
    rewrite <- Z.pow_add_r by lia.
    destruct (Z.eq_dec m 0) as [->|Hm0]; [apply Z.pow_pos_nonneg; lia|].
    pose proof (Zdigits2_bounds m ltac:(lia)) as [_ Hlt].
    apply Z.lt_le_trans with (1 := Hlt).
    apply Z.pow_le_mono_r; [lia|].
    unfold k, E. rewrite fexp_eq. lia. }
  split; [lia|].
  destruct (Z.eq_dec E (-1074)) as [HE|HE]; [now left | right].
  assert (Hm0 : 0 < m).
  { destruct (Z.eq_dec m 0) as [E0|E0]; [|lia].
    exfalso. unfold E in HE, He. rewrite fexp_eq in HE, He.
    rewrite E0 in HE, He. simpl Zdigits2 in HE, He. lia. }
  pose proof (Zdigits2_bounds m Hm0) as [Hge _].
  assert (Ek : k = Zdigits2 m - 53).
  { unfold k, E in *. rewrite fexp_eq in *. lia. }
  apply Z.le_trans with (m / 2 ^ k); [|lia].
  apply Z.div_le_lower_bound; [assumption|].
  rewrite <- Z.pow_add_r by lia.
  replace (k + 52) with (Zdigits2 m - 1) by lia. assumption.
Qed.

Lemma digits_le_53 (p : positive) :
  Z.pos (digits2_pos p) <= 53 <-> Z.pos p < 2 ^ 53.
Proof.
  rewrite digits2_pos_log2.
  rewrite (Z.log2_lt_pow2 (Z.pos p) 53) by lia. lia.
Qed.

Theorem binary_round_aux_finish (s : bool) (n d e : Z) :
  0 < d -> 0 <= n ->
  e <= fexp prec emax (Zdigits2 (n / d) + e) ->
  let E := fexp prec emax (Zdigits2 (n / d) + e) in
  binary_round_aux prec emax s (n / d) e (loc_of n d) =
  finish s (rne n (2 ^ (E - e) * d)) E.
Proof.
  intros Hd Hn He E.
  destruct (rne_range n d e Hd Hn He) as [HM Hnormal]. fold E in HM, Hnormal.
  unfold binary_round_aux. rewrite shr_fexp_record by assumption. fold E.
  unfold record_of at 1 2. rewrite shr_m_record, loc_of_record.
  fold (rne n (2 ^ (E - e) * d)).
  set (M := rne n (2 ^ (E - e) * d)) in *.
  assert (HE : -1074 <= E) by (unfold E; rewrite fexp_eq; lia).
  unfold shr_fexp. rewrite fexp_eq.
  destruct M as [|p|p]; [| |lia].
  - simpl Zdigits2. unfold shr.
    destruct (Z.max (0 + E - 53) (-1074) - E) eqn:Hz; try lia; reflexivity.
  - unfold finish. simpl Zdigits2.
    destruct (Z.leb_spec (Z.pos (digits2_pos p)) 53) as [Hdig|Hdig].
    + unfold shr.
      destruct (Z.max (Z.pos (digits2_pos p) + E - 53) (-1074) - E) eqn:Hz; try lia;
        reflexivity.
    + assert (Hp : Z.pos p = 2 ^ 53).
      { pose proof (proj2 (digits_le_53 p)). lia. }
      assert (Hdig54 : Z.pos (digits2_pos p) = 54).
      { rewrite digits2_pos_log2, Hp. reflexivity. }
      rewrite Hdig54.
      replace (Z.max (54 + E - 53) (-1074) - E) with 1 by lia.
      injection Hp as ->. reflexivity.
Qed.

End RoundFacts3.
Module UnitFacts.
Import F64 RoundingFacts RoundFacts2 RoundFacts3.

(** *** Values counted in units of [2^-1074]

    Every finite [float64] is a whole number of units of [2^-1074], the
    smallest positive one. *)

Definition units (x : float64) : Z :=
  match x with
  | S754_finite _ m e => Z.pos m * 2 ^ (e + 1074)
  | _ => 0
  end.

(** The float of sign [s] that is [I] units, the infinity when that is
    too large. *)
Definition of_units (s : bool) (I : Z) : float64 :=
  match I with
  | Z0 => S754_zero s
  | Z.pos _ =>
      let sh := Z.max (Zdigits2 I - 53) 0 in
      if sh - 1074 <=? 971
      then S754_finite s (Z.to_pos (I / 2 ^ sh)) (sh - 1074)
      else S754_infinity s
  | Z.neg _ => S754_nan
  end.

(** [N / D] units rounded to a float, in units. *)
Definition rnd_units (N D : Z) : Z :=
  let sh := Z.max (Zdigits2 (N / D) - 53) 0 in
  rne N (D * 2 ^ sh) * 2 ^ sh.

Lemma Zdigits2_mul_pow2 (m j : Z) :
  0 < m -> 0 <= j -> Zdigits2 (m * 2 ^ j) = Zdigits2 m + j.
Proof.
  intros Hm Hj.
  assert (0 < 2 ^ j) by (apply Z.pow_pos_nonneg; lia).
  rewrite !Zdigits2_log2 by nia.
  rewrite Z.log2_mul_pow2 by lia. lia.
Qed.

Lemma Zdigits2_between (m t j : Z) :
  0 < m -> 0 <= j -> m * 2 ^ j <= t < (m + 1) * 2 ^ j ->
  Zdigits2 t = Zdigits2 m + j.
Proof.
  intros Hm Hj Ht.
  pose proof (Zdigits2_bounds m Hm) as [Hlo Hhi].
  pose proof (Zdigits2_nonneg m).
  assert (0 < 2 ^ j) by (apply Z.pow_pos_nonneg; lia).
  assert (Zdigits2 m <> 0).
  { intros E. rewrite E in Hhi. simpl in Hhi. lia. }
  apply Zdigits2_unique; [lia|].
  replace (Zdigits2 m + j - 1) with (Zdigits2 m - 1 + j) by lia.
  rewrite !Z.pow_add_r by lia. nia.
Qed.

Lemma Zdigits2_div_pow2 (m j : Z) :
  0 <= m -> 0 <= j -> Zdigits2 (m / 2 ^ j) = Z.max (Zdigits2 m - j) 0.
Proof.
  intros Hm Hj.
  assert (Hp : 0 < 2 ^ j) by (apply Z.pow_pos_nonneg; lia).
  destruct (Z.eq_dec m 0) as [->|Hm0].
  { rewrite Z.div_0_l by lia. simpl. lia. }
  pose proof (Zdigits2_bounds m ltac:(lia)) as [Hlo Hhi].
  pose proof (Zdigits2_nonneg m).
  destruct (Z_lt_le_dec (Zdigits2 m) (j + 1)) as [Hsmall|Hbig].
  - rewrite Z.div_small; [simpl; lia|]. split; [lia|].
    apply Z.lt_le_trans with (1 := Hhi). apply Z.pow_le_mono_r; lia.
  - rewrite Z.max_l by lia. apply Zdigits2_unique; [lia|]. split.
    + apply Z.div_le_lower_bound; [assumption|].
      rewrite <- Z.pow_add_r by lia.
      now replace (j + (Zdigits2 m - j - 1)) with (Zdigits2 m - 1) by lia.
    + apply Z.div_lt_upper_bound; [assumption|].
      rewrite <- Z.pow_add_r by lia.
      now replace (j + (Zdigits2 m - j)) with (Zdigits2 m) by lia.
Qed.

Lemma Zdigits2_le_53 (M : Z) : 0 <= M -> (Zdigits2 M <= 53 <-> M < 2 ^ 53).
Proof.
  intros HM. destruct M as [|p|p]; [simpl; lia| |lia].
  apply digits_le_53.
Qed.

Lemma finish_of_units (s : bool) (M E : Z) :
  -1074 <= E -> 0 <= M <= 2 ^ 53 -> (E = -1074 \/ 2 ^ 52 <= M) ->
  finish s M E = of_units s (M * 2 ^ (E + 1074)).
Proof.
  intros HE HM Hnormal.
  set (j := E + 1074). assert (Hj : 0 <= j) by (unfold j; lia).
  assert (Hpj : 0 < 2 ^ j) by (apply Z.pow_pos_nonneg; lia).
  destruct M as [|p|p]; [reflexivity| |lia].
  assert (HI : 0 < Z.pos p * 2 ^ j) by nia.
  unfold finish, of_units.
  destruct (Z.pos p * 2 ^ j) as [|I|I] eqn:EI; try lia. rewrite <- EI.
  rewrite Zdigits2_mul_pow2 by lia.
  change (Zdigits2 (Z.pos p)) with (Z.pos (digits2_pos p)).
  destruct (Z.leb_spec (Z.pos (digits2_pos p)) 53) as [Hd|Hd].
  - assert (Hsh : Z.max (Z.pos (digits2_pos p) + j - 53) 0 = j).
    { destruct Hnormal as [->|H52]; [unfold j; lia|].
      assert (Z.pos (digits2_pos p) = 53); [|lia].
      change (Z.pos (digits2_pos p)) with (Zdigits2 (Z.pos p)) in *.
      apply Z.le_antisymm; [assumption|].
      pose proof (Zdigits2_bounds (Z.pos p) ltac:(lia)) as [_ Hhi].
      destruct (Z_lt_le_dec (Zdigits2 (Z.pos p)) 53) as [Hlt|]; [|assumption].
      exfalso. assert (2 ^ Zdigits2 (Z.pos p) <= 2 ^ 52) by (apply Z.pow_le_mono_r; lia).
      lia. }
    rewrite Hsh. replace (j - 1074) with E by (unfold j; lia).
    rewrite Z.div_mul by lia. reflexivity.
  - assert (Hp : Z.pos p = 2 ^ 53).
    { pose proof (proj2 (digits_le_53 p)). lia. }
    assert (Hdig54 : Z.pos (digits2_pos p) = 54).
    { rewrite digits2_pos_log2, Hp. reflexivity. }
    rewrite Hdig54. replace (Z.max (54 + j - 53) 0) with (j + 1) by lia.
    replace (j + 1 - 1074) with (E + 1) by (unfold j; lia).
    rewrite Hp. rewrite Z.pow_add_r by lia.
    replace (2 ^ 53 * 2 ^ j / (2 ^ j * 2 ^ 1)) with (2 ^ 52).
    + injection Hp as ->. reflexivity.
    + apply Z.div_unique with 0; [lia|].
      change (2 ^ 53) with (2 ^ 52 * 2 ^ 1). lia.
Qed.

End UnitFacts.
Module UnitFacts2.
Import F64 RoundingFacts RoundFacts2 RoundFacts3 UnitFacts.

(** [rnd_units] depends on the quotient only. *)
Lemma rnd_units_ratio (N1 D1 N2 D2 : Z) :
  0 < D1 -> 0 < D2 -> N1 * D2 = N2 * D1 -> rnd_units N1 D1 = rnd_units N2 D2.
Proof.
  intros H1 H2 E. unfold rnd_units.
  assert (Hq : N1 / D1 = N2 / D2).
  { rewrite <- (Z.div_mul_cancel_r N1 D1 D2) by lia.
    rewrite <- (Z.div_mul_cancel_r N2 D2 D1) by lia.
    rewrite E. f_equal. lia. }
  rewrite Hq. set (sh := Z.max (Zdigits2 (N2 / D2) - 53) 0).
  assert (0 < 2 ^ sh) by (apply Z.pow_pos_nonneg; lia).
  f_equal.
  rewrite <- (rne_scale D2 N1 (D1 * 2 ^ sh)) by nia.
  rewrite <- (rne_scale D1 N2 (D2 * 2 ^ sh)) by nia.
  f_equal; lia.
Qed.

(** The exact result [n / d * 2^e] in units of [2^-1074]. *)
Definition in_units (n d e : Z) : Z * Z :=
  if 0 <=? e + 1074 then (n * 2 ^ (e + 1074), d) else (n, d * 2 ^ (- (e + 1074))).

Theorem binary_round_aux_units (s : bool) (n d e : Z) :
  0 < d -> 0 <= n ->
  e <= fexp prec emax (Zdigits2 (n / d) + e) ->
  binary_round_aux prec emax s (n / d) e (loc_of n d) =
  of_units s (rnd_units (fst (in_units n d e)) (snd (in_units n d e))).
Proof.
  intros Hd Hn He.
  rewrite binary_round_aux_finish by assumption.
  destruct (rne_range n d e Hd Hn He) as [HM Hnormal].
  set (E := fexp prec emax (Zdigits2 (n / d) + e)) in *.
  assert (HE : -1074 <= E) by (unfold E; rewrite fexp_eq; lia).
  rewrite finish_of_units by assumption. f_equal.
  pose proof (Z.div_pos n d Hn Hd) as Hm.
  pose proof (Zdigits2_nonneg (n / d)) as Hg.
  unfold in_units, rnd_units.
  destruct (Z.leb_spec 0 (e + 1074)) as [Hj|Hj]; simpl fst; simpl snd.
  - set (j := e + 1074) in *.
    assert (Hpj : 0 < 2 ^ j) by (apply Z.pow_pos_nonneg; lia).
    assert (Hsh : Z.max (Zdigits2 (n * 2 ^ j / d) - 53) 0 = E + 1074).
    { destruct (Z.eq_dec (n / d) 0) as [E0|E0].
      - assert (e <= -1074).
        { unfold E in He. rewrite fexp_eq, E0 in He. simpl Zdigits2 in He. lia. }
        assert (j = 0) by lia.
        replace (2 ^ j) with 1 by (now replace j with 0).
        rewrite Z.mul_1_r, E0. unfold E. rewrite fexp_eq, E0. simpl Zdigits2. lia.
      - rewrite (Zdigits2_between (n / d) (n * 2 ^ j / d) j); try lia.
        + unfold E. rewrite fexp_eq. lia.
        + pose proof (Z.div_mod n d ltac:(lia)) as En.
          pose proof (Z.mod_pos_bound n d Hd) as Hb.
          split.
          * apply Z.div_le_lower_bound; [assumption | nia].
          * apply Z.div_lt_upper_bound; [assumption | nia]. }
    rewrite Hsh. f_equal.
    replace (n * 2 ^ j) with (2 ^ j * n) by lia.
    replace (d * 2 ^ (E + 1074)) with (2 ^ j * (2 ^ (E - e) * d)).
    + rewrite rne_scale; [reflexivity | assumption|].
      assert (0 < 2 ^ (E - e)) by (apply Z.pow_pos_nonneg; lia). nia.
    + rewrite Z.mul_assoc, <- Z.pow_add_r by lia.
      replace (j + (E - e)) with (E + 1074) by (unfold j; lia). lia.
  - set (j := - (e + 1074)) in *.
    assert (Hpj : 0 < 2 ^ j) by (apply Z.pow_pos_nonneg; lia).
    assert (Hq : n / (d * 2 ^ j) = n / d / 2 ^ j) by (now rewrite Z.div_div by lia).
    assert (Hsh : Z.max (Zdigits2 (n / (d * 2 ^ j)) - 53) 0 = E + 1074).
    { rewrite Hq, Zdigits2_div_pow2 by lia.
      unfold E. rewrite fexp_eq. lia. }
    rewrite Hsh. f_equal. f_equal.
    rewrite <- Z.mul_assoc, <- Z.pow_add_r by lia.
    replace (j + (E + 1074)) with (E - e) by (unfold j; lia). lia.
Qed.

End UnitFacts2.
Module OpFacts.
Import F64 RoundingFacts RoundFacts2 RoundFacts3 UnitFacts UnitFacts2.

(** *** Valid floats *)

Lemma valid_finite (s : bool) (m : positive) (e : Z) :
  is_float64 (S754_finite s m e) <->
  -1074 <= e <= 971 /\
  (Zdigits2 (Z.pos m) = 53 \/ (e = -1074 /\ Zdigits2 (Z.pos m) <= 53)).
Proof.
  unfold is_float64, valid_binary, bounded, canonical_mantissa.
  rewrite andb_true_iff, Z.eqb_eq, Z.leb_le, fexp_eq.
  change (emax - prec) with 971.
  change (Zdigits2 (Z.pos m)) with (Z.pos (digits2_pos m)). lia.
Qed.

Lemma of_units_valid (s : bool) (I : Z) : 0 <= I -> is_float64 (of_units s I).
Proof.
  intros HI. destruct I as [|p|p]; [reflexivity| |lia].
  unfold of_units.
  set (sh := Z.max (Zdigits2 (Z.pos p) - 53) 0).
  destruct (Z.leb_spec (sh - 1074) 971) as [Hsh|Hsh]; [|reflexivity].
  assert (Hp : 0 < 2 ^ sh) by (apply Z.pow_pos_nonneg; lia).
  assert (Hg : 0 < Zdigits2 (Z.pos p)) by (simpl; lia).
  pose proof (Zdigits2_div_pow2 (Z.pos p) sh ltac:(lia) ltac:(lia)) as Hdig.
  pose proof (Zdigits2_bounds (Z.pos p) ltac:(lia)) as [Hlo Hhi].
  assert (Hq : 0 < Z.pos p / 2 ^ sh).
  { apply Z.div_str_pos. split; [assumption|].
    apply Z.le_trans with (2 := Hlo). apply Z.pow_le_mono_r; lia. }
  apply valid_finite. rewrite Z2Pos.id by assumption. rewrite Hdig. lia.
Qed.

Lemma units_pos (s : bool) (m : positive) (e : Z) :
  -1074 <= e -> 0 < units (S754_finite s m e).
Proof.
  intros He. unfold units.
  assert (0 < 2 ^ (e + 1074)) by (apply Z.pow_pos_nonneg; lia). nia.
Qed.

Lemma of_units_pos (s : bool) (I : Z) :
  0 < I ->
  of_units s I =
  if Z.max (Zdigits2 I - 53) 0 - 1074 <=? 971
  then S754_finite s (Z.to_pos (I / 2 ^ Z.max (Zdigits2 I - 53) 0))
         (Z.max (Zdigits2 I - 53) 0 - 1074)
  else S754_infinity s.
Proof. destruct I; try lia. reflexivity. Qed.

(** A valid finite float is the float of its units. *)
Lemma of_units_units (s : bool) (m : positive) (e : Z) :
  is_float64 (S754_finite s m e) ->
  of_units s (units (S754_finite s m e)) = S754_finite s m e.
Proof.
  intros Hv. apply valid_finite in Hv as [He Hd].
  pose proof (units_pos s m e ltac:(lia)) as HI.
  rewrite of_units_pos by assumption. unfold units in *.
  assert (Hp : 0 < 2 ^ (e + 1074)) by (apply Z.pow_pos_nonneg; lia).
  rewrite Zdigits2_mul_pow2 by lia.
  assert (Hsh : Z.max (Zdigits2 (Z.pos m) + (e + 1074) - 53) 0 = e + 1074) by lia.
  rewrite Hsh. replace (e + 1074 - 1074) with e by lia.
  destruct (Z.leb_spec e 971); [|lia].
  now rewrite Z.div_mul by lia.
Qed.

(** *** The operations, in units *)

Lemma mul_units (sa sb : bool) (ma mb : positive) (ea eb : Z) :
  is_float64 (S754_finite sa ma ea) -> is_float64 (S754_finite sb mb eb) ->
  mul (S754_finite sa ma ea) (S754_finite sb mb eb) =
  of_units (xorb sa sb)
    (rnd_units (units (S754_finite sa ma ea) * units (S754_finite sb mb eb)) (2 ^ 1074)).
Proof.
  intros Ha Hb. apply valid_finite in Ha as [Hea Hda], Hb as [Heb Hdb].
  unfold mul, SFmul.
  set (n := Z.pos (ma * mb)). set (e := ea + eb).
  assert (Hn : 0 < n) by (unfold n; lia).
  assert (Hloc : loc_Exact = loc_of n 1).
  { unfold loc_of. now rewrite Z.mod_1_r. }
  rewrite Hloc. rewrite <- (Z.div_1_r n) at 1.
  assert (Hdn : Zdigits2 (Z.pos ma) + Zdigits2 (Z.pos mb) - 1 <= Zdigits2 n).
  { unfold n. rewrite Pos2Z.inj_mul. rewrite !Zdigits2_log2 by lia.
    pose proof (Z.log2_mul_below (Z.pos ma) (Z.pos mb) ltac:(lia) ltac:(lia)). lia. }
  pose proof (Zdigits2_bounds (Z.pos ma) ltac:(lia)) as Hba.
  pose proof (Zdigits2_bounds (Z.pos mb) ltac:(lia)) as Hbb.
  assert (Zdigits2 (Z.pos ma) <> 0 /\ Zdigits2 (Z.pos mb) <> 0) as [Hza Hzb].
  { split; intros E0; rewrite E0 in *; simpl in *; lia. }
  pose proof (Zdigits2_nonneg (Z.pos ma)). pose proof (Zdigits2_nonneg (Z.pos mb)).
  rewrite binary_round_aux_units; try lia.
  - f_equal. apply rnd_units_ratio.
    + unfold in_units.
      destruct (Z.leb_spec 0 (e + 1074)); cbv beta iota delta [fst snd]; [reflexivity|].
      apply Z.mul_pos_pos; [lia|]. apply Z.pow_pos_nonneg; lia.
    + lia.
    + unfold units, in_units, n, e. rewrite Pos2Z.inj_mul.
      destruct (Z.leb_spec 0 (ea + eb + 1074)); cbv beta iota delta [fst snd].
      * replace (Z.pos ma * 2 ^ (ea + 1074) * (Z.pos mb * 2 ^ (eb + 1074)) * 1)
          with (Z.pos ma * Z.pos mb * (2 ^ (ea + 1074) * 2 ^ (eb + 1074))) by lia.
        rewrite <- Z.pow_add_r by lia.
        rewrite <- Z.mul_assoc, <- Z.pow_add_r by lia.
        do 2 f_equal. lia.
      * replace (Z.pos ma * 2 ^ (ea + 1074) * (Z.pos mb * 2 ^ (eb + 1074)) *
                 (1 * 2 ^ (- (ea + eb + 1074))))
          with (Z.pos ma * Z.pos mb *
                (2 ^ (ea + 1074) * 2 ^ (eb + 1074) * 2 ^ (- (ea + eb + 1074)))) by lia.
        rewrite <- !Z.pow_add_r by lia.
        do 2 f_equal. lia.
  - rewrite Z.div_1_r, fexp_eq. unfold e. lia.
Qed.

End OpFacts.
Module OpFacts2.
Import F64 RoundingFacts RoundFacts2 RoundFacts3 UnitFacts UnitFacts2 OpFacts.

Lemma new_location_loc (n d : Z) :
  0 < d -> new_location d (n mod d) = loc_of n d.
Proof.
  intros Hd. unfold new_location, loc_of, new_location_even, new_location_odd.
  pose proof (Z.mod_pos_bound n d Hd) as Hb.
  destruct (Z.even d) eqn:Heven; [reflexivity|].
  destruct (Z.eqb_spec (n mod d) 0); [reflexivity|]. f_equal.
  assert (Hodd : d mod 2 = 1) by (rewrite Zmod_even, Heven; reflexivity).
  pose proof (Z.div_mod d 2 ltac:(lia)) as Ed.
  destruct (Z.compare_spec (2 * (n mod d) + 1) d);
    destruct (Z.compare_spec (2 * (n mod d)) d); try reflexivity; lia.
Qed.

Lemma Zdigits2_ge (q g : Z) : 0 <= g -> 2 ^ g <= q -> g + 1 <= Zdigits2 q.
Proof.
  intros Hg Hq.
  assert (0 < q) by (pose proof (Z.pow_pos_nonneg 2 g); lia).
  rewrite Zdigits2_log2 by assumption.
  pose proof (proj1 (Z.log2_le_pow2 q g H) Hq). lia.
Qed.

(** The division of two mantissas with their exponents, rounded. *)
Lemma div_core_units (s : bool) (ma mb : positive) (ea eb : Z) :
  -1074 <= ea -> -1074 <= eb ->
  (let '(q, e, l) := SFdiv_core_binary prec emax (Z.pos ma) ea (Z.pos mb) eb in
   binary_round_aux prec emax s q e l) =
  of_units s
    (rnd_units (units (S754_finite s ma ea) * 2 ^ 1074) (units (S754_finite s mb eb))).
Proof.
  intros Hea Heb.
  unfold SFdiv_core_binary.
  set (d1 := Zdigits2 (Z.pos ma)) in *. set (d2 := Zdigits2 (Z.pos mb)) in *.
  set (e' := Z.min (fexp prec emax (d1 + ea - (d2 + eb))) (ea - eb)).
  set (sh := ea - eb - e').
  assert (Hsh : 0 <= sh) by (unfold sh, e'; lia).
  assert (Hpsh : 0 < 2 ^ sh) by (apply Z.pow_pos_nonneg; lia).
  set (n := Z.pos ma * 2 ^ sh).
  assert (Hm' : match sh with
                | 0 => Z.pos ma
                | Z.pos _ => Z.shiftl (Z.pos ma) sh
                | Z.neg _ => 0
                end = n).
  { unfold n. destruct sh as [|p|p] eqn:Es; [| |lia].
    - change (2 ^ 0) with 1. lia.
    - rewrite Z.shiftl_mul_pow2 by lia. reflexivity. }
  rewrite Hm'.
  assert (Hdiv : Z.div_eucl n (Z.pos mb) = (n / Z.pos mb, n mod Z.pos mb)).
  { unfold Z.div, Z.modulo. now destruct (Z.div_eucl n (Z.pos mb)). }
  rewrite Hdiv. rewrite new_location_loc by lia.
  assert (Hn : 0 < n) by (unfold n; nia).
  pose proof (Zdigits2_bounds (Z.pos ma) ltac:(lia)) as Hba.
  pose proof (Zdigits2_bounds (Z.pos mb) ltac:(lia)) as Hbb.
  fold d1 in Hba. fold d2 in Hbb.
  assert (Hd1 : 0 < d1) by (unfold d1; simpl; lia).
  assert (Hd2 : 0 < d2) by (unfold d2; simpl; lia).
  rewrite binary_round_aux_units; try lia.
  - f_equal. apply rnd_units_ratio.
    + unfold in_units.
      destruct (Z.leb_spec 0 (e' + 1074)); cbv beta iota delta [fst snd]; [reflexivity|].
      apply Z.mul_pos_pos; [lia|]. apply Z.pow_pos_nonneg; lia.
    + apply units_pos. lia.
    + unfold units, in_units, n.
      destruct (Z.leb_spec 0 (e' + 1074)); cbv beta iota delta [fst snd].
      * replace (Z.pos ma * 2 ^ sh * 2 ^ (e' + 1074) * (Z.pos mb * 2 ^ (eb + 1074)))
          with (Z.pos ma * Z.pos mb * (2 ^ sh * 2 ^ (e' + 1074) * 2 ^ (eb + 1074))) by lia.
        rewrite <- !Z.pow_add_r by lia.
        replace (Z.pos ma * 2 ^ (ea + 1074) * 2 ^ 1074 * Z.pos mb)
          with (Z.pos ma * Z.pos mb * (2 ^ (ea + 1074) * 2 ^ 1074)) by lia.
        rewrite <- !Z.pow_add_r by lia.
        do 2 f_equal. unfold sh. lia.
      * replace (Z.pos ma * 2 ^ sh * (Z.pos mb * 2 ^ (eb + 1074)))
          with (Z.pos ma * Z.pos mb * (2 ^ sh * 2 ^ (eb + 1074))) by lia.
        rewrite <- !Z.pow_add_r by lia.
        replace (Z.pos ma * 2 ^ (ea + 1074) * 2 ^ 1074 * (Z.pos mb * 2 ^ (- (e' + 1074))))
          with (Z.pos ma * Z.pos mb * (2 ^ (ea + 1074) * 2 ^ 1074 * 2 ^ (- (e' + 1074))))
          by lia.
        rewrite <- !Z.pow_add_r by lia.
        do 2 f_equal. unfold sh. lia.
  - rewrite fexp_eq.
    destruct (Z_le_gt_dec e' (-1074)) as [Hsub|Hnorm]; [lia|].
    assert (HG : e' + 53 <= d1 + ea - (d2 + eb)).
    { unfold e' in Hnorm |- *. rewrite fexp_eq in *. lia. }
    assert (Hq : 2 ^ 52 <= n / Z.pos mb).
    { apply Z.div_le_lower_bound; [lia|].
      apply Z.le_trans with (2 ^ d2 * 2 ^ 52); [nia|].
      rewrite <- Z.pow_add_r by lia.
      apply Z.le_trans with (2 ^ (d1 - 1) * 2 ^ sh); [|unfold n; nia].
      rewrite <- Z.pow_add_r by lia.
      apply Z.pow_le_mono_r; [lia|]. unfold sh. lia. }
    pose proof (Zdigits2_ge (n / Z.pos mb) 52 ltac:(lia) Hq). lia.
Qed.

Lemma div_units (sa sb : bool) (ma mb : positive) (ea eb : Z) :
  is_float64 (S754_finite sa ma ea) -> is_float64 (S754_finite sb mb eb) ->
  div (S754_finite sa ma ea) (S754_finite sb mb eb) =
  of_units (xorb sa sb)
    (rnd_units (units (S754_finite sa ma ea) * 2 ^ 1074) (units (S754_finite sb mb eb))).
Proof.
  intros Ha Hb. apply valid_finite in Ha as [Hea _], Hb as [Heb _].
  unfold div, SFdiv.
  exact (div_core_units (xorb sa sb) ma mb ea eb (proj1 Hea) (proj1 Heb)).
Qed.

End OpFacts2.
Module UnitOrder.
Import F64 RoundingFacts RoundFacts2 RoundFacts3 UnitFacts UnitFacts2 OpFacts OpFacts2.

(** *** Representable numbers of units *)

(** The shift that brings [I] down to 53 digits. *)
Definition shift_of (I : Z) : Z := Z.max (Zdigits2 I - 53) 0.

Definition representable (I : Z) : Prop := 0 <= I /\ I mod 2 ^ shift_of I = 0.

Lemma Zdigits2_mono (a b : Z) : 0 <= a <= b -> Zdigits2 a <= Zdigits2 b.
Proof.
  intros [Ha Hab]. destruct (Z.eq_dec a 0) as [->|Ha0].
  - simpl. apply Zdigits2_nonneg.
  - rewrite !Zdigits2_log2 by lia.
    pose proof (Z.log2_le_mono a b Hab). lia.
Qed.

Lemma mod_pow2_mul (c a b : Z) : 0 <= a <= b -> (c * 2 ^ b) mod 2 ^ a = 0.
Proof.
  intros Hab. replace b with ((b - a) + a) by lia.
  rewrite Z.pow_add_r, Z.mul_assoc by lia.
  apply Z.mod_mul. apply Z.pow_nonzero; lia.
Qed.

Lemma units_representable (x : float64) : is_float64 x -> representable (units x).
Proof.
  intros Hv. destruct x as [s|s| |s m e]; try (split; [simpl; lia | reflexivity]).
  apply valid_finite in Hv as [He Hd].
  pose proof (units_pos s m e ltac:(lia)) as Hpos.
  split; [lia|]. unfold shift_of, units in *.
  rewrite Zdigits2_mul_pow2 by lia.
  apply mod_pow2_mul. lia.
Qed.

(** The mantissa that [rnd_units] rounds to has 53 digits, or is [2^53]. *)
Lemma rnd_units_mantissa (N D : Z) :
  0 <= N -> 0 < D ->
  let sh := shift_of (N / D) in
  let M := rne N (D * 2 ^ sh) in
  rnd_units N D = M * 2 ^ sh /\ 0 <= M <= 2 ^ 53 /\ (0 < sh -> 2 ^ 52 <= M).
Proof.
  intros HN HD sh M. split; [reflexivity|].
  assert (Hsh : 0 <= sh) by (unfold sh, shift_of; lia).
  assert (Hp : 0 < 2 ^ sh) by (apply Z.pow_pos_nonneg; lia).
  pose proof (rne_between N (D * 2 ^ sh) ltac:(nia)) as Hb. fold M in Hb.
  rewrite <- Z.div_div in Hb by lia.
  pose proof (Z.div_pos N D HN HD) as Hq.
  pose proof (Zdigits2_div_pow2 (N / D) sh Hq Hsh) as Hdig.
  pose proof (Z.div_pos (N / D) (2 ^ sh) Hq Hp) as Hq'.
  assert (Hlt : N / D / 2 ^ sh < 2 ^ 53).
  { apply Zdigits2_le_53; [assumption|]. rewrite Hdig. unfold sh, shift_of. lia. }
  split; [lia|]. intros Hpos.
  apply Z.le_trans with (N / D / 2 ^ sh); [|lia].
  assert (Hg : Zdigits2 (N / D / 2 ^ sh) = 53).
  { rewrite Hdig. unfold sh, shift_of in *. lia. }
  destruct (Z.eq_dec (N / D / 2 ^ sh) 0) as [E0|E0]; [rewrite E0 in Hg; discriminate|].
  pose proof (Zdigits2_bounds (N / D / 2 ^ sh) ltac:(lia)) as [Hlo _].
  now rewrite Hg in Hlo.
Qed.

Lemma rnd_units_nonneg (N D : Z) : 0 <= N -> 0 < D -> 0 <= rnd_units N D.
Proof.
  intros HN HD. destruct (rnd_units_mantissa N D HN HD) as (-> & HM & _).
  assert (0 < 2 ^ shift_of (N / D)) by (apply Z.pow_pos_nonneg; unfold shift_of; lia).
  nia.
Qed.

Lemma rnd_units_representable (N D : Z) :
  0 <= N -> 0 < D -> representable (rnd_units N D).
Proof.
  intros HN HD. split; [now apply rnd_units_nonneg|].
  destruct (rnd_units_mantissa N D HN HD) as (-> & HM & _).
  set (sh := shift_of (N / D)) in *. set (M := rne N (D * 2 ^ sh)) in *.
  assert (Hsh : 0 <= sh) by (unfold sh, shift_of; lia).
  destruct (Z.eq_dec M 0) as [->|HM0]; [now rewrite Z.mul_0_l, Z.mod_0_l by
      (apply Z.pow_nonzero; unfold shift_of; lia)|].
  unfold shift_of at 1. rewrite Zdigits2_mul_pow2 by lia.
  destruct (Z.eq_dec M (2 ^ 53)) as [->|HM53].
  - change (Zdigits2 (2 ^ 53)) with 54.
    rewrite <- Z.pow_add_r by lia.
    replace (2 ^ (53 + sh)) with (1 * 2 ^ (53 + sh)) by lia.
    apply mod_pow2_mul. lia.
  - apply mod_pow2_mul.
    pose proof (proj2 (Zdigits2_le_53 M ltac:(lia)) ltac:(lia)). lia.
Qed.

(** Rounding is monotone with respect to the representable numbers. *)
Lemma rnd_units_le (N D B : Z) :
  0 <= N -> 0 < D -> representable B -> N <= B * D -> rnd_units N D <= B.
Proof.
  intros HN HD [HB HBr] Hle.
  destruct (rnd_units_mantissa N D HN HD) as (-> & HM & _).
  set (sh := shift_of (N / D)) in *.
  assert (Hsh : 0 <= sh) by (unfold sh, shift_of; lia).
  assert (Hp : 0 < 2 ^ sh) by (apply Z.pow_pos_nonneg; lia).
  assert (Hq : N / D <= B) by (apply Z.div_le_upper_bound; lia).
  pose proof (Z.div_pos N D HN HD) as Hq0.
  pose proof (Zdigits2_mono (N / D) B ltac:(lia)) as Hmono.
  assert (HshB : sh <= shift_of B) by (unfold sh, shift_of; lia).
  assert (Hdiv : B mod 2 ^ sh = 0).
  { apply Z.mod_divide in HBr; [|apply Z.pow_nonzero; unfold shift_of; lia].
    destruct HBr as [c ->]. apply mod_pow2_mul. lia. }
  pose proof (Z.div_mod B (2 ^ sh) ltac:(lia)) as EB. rewrite Hdiv in EB.
  assert (rne N (D * 2 ^ sh) <= B / 2 ^ sh) by (apply rne_le; nia).
  nia.
Qed.

Lemma rnd_units_ge (N D B : Z) :
  0 <= N -> 0 < D -> representable B -> B * D <= N -> B <= rnd_units N D.
Proof.
  intros HN HD [HB HBr] Hle.
  destruct (rnd_units_mantissa N D HN HD) as (-> & HM & Hnormal).
  set (sh := shift_of (N / D)) in *.
  assert (Hsh : 0 <= sh) by (unfold sh, shift_of; lia).
  assert (Hp : 0 < 2 ^ sh) by (apply Z.pow_pos_nonneg; lia).
  destruct (Z_le_gt_dec sh (shift_of B)) as [HshB|HshB].
  - assert (Hdiv : B mod 2 ^ sh = 0).
    { apply Z.mod_divide in HBr; [|apply Z.pow_nonzero; unfold shift_of; lia].
      destruct HBr as [c ->]. apply mod_pow2_mul. lia. }
    pose proof (Z.div_mod B (2 ^ sh) ltac:(lia)) as EB. rewrite Hdiv in EB.
    assert (B / 2 ^ sh <= rne N (D * 2 ^ sh)) by (apply rne_ge; nia).
    nia.
  - assert (Hpos : 0 < sh) by (unfold shift_of in HshB; lia).
    specialize (Hnormal Hpos).
    destruct (Z.eq_dec B 0) as [->|HB0]; [nia|].
    pose proof (Zdigits2_bounds B ltac:(lia)) as [_ Hhi].
    apply Z.le_trans with (2 ^ 52 * 2 ^ sh); [|nia].
    rewrite <- Z.pow_add_r by lia.
    apply Z.lt_le_incl, Z.lt_le_trans with (1 := Hhi).
    apply Z.pow_le_mono_r; [lia|]. unfold shift_of in HshB. lia.
Qed.

(** The rounding error is half a unit in the last place at most. *)
Lemma rnd_units_error (N D : Z) :
  0 <= N -> 0 < D ->
  2 * Z.abs (rnd_units N D * D - N) <= D * 2 ^ shift_of (N / D).
Proof.
  intros HN HD. unfold rnd_units. fold (shift_of (N / D)).
  set (sh := shift_of (N / D)).
  assert (Hp : 0 < 2 ^ sh) by (apply Z.pow_pos_nonneg; unfold sh, shift_of; lia).
  pose proof (rne_error N (D * 2 ^ sh) ltac:(nia)) as H.
  replace (rne N (D * 2 ^ sh) * 2 ^ sh * D) with (rne N (D * 2 ^ sh) * (D * 2 ^ sh)) by lia.
  exact H.
Qed.

Lemma rnd_units_exact (B D : Z) :
  0 < D -> representable B -> rnd_units (B * D) D = B.
Proof.
  intros HD HB. pose proof HB as [HB0 _].
  apply Z.le_antisymm.
  - apply rnd_units_le; try assumption; nia.
  - apply rnd_units_ge; try assumption; nia.
Qed.

End UnitOrder.
Module UnitOrder2.
Import F64 RoundingFacts RoundFacts2 RoundFacts3 UnitFacts UnitFacts2 OpFacts OpFacts2.
Import UnitOrder.

(** The units of the largest finite float are below [2^2098]. *)
Definition overflow : Z := 2 ^ 2098.

Lemma shift_of_small (I : Z) : 0 < I -> (shift_of I - 1074 <= 971 <-> I < overflow).
Proof.
  intros HI. unfold shift_of, overflow.
  rewrite Zdigits2_log2 by assumption.
  rewrite (Z.log2_lt_pow2 I 2098) by assumption. lia.
Qed.

Lemma units_of_units (s : bool) (I : Z) :
  representable I -> I < overflow -> units (of_units s I) = I.
Proof.
  intros [HI Hr] Hlt. destruct (Z.eq_dec I 0) as [->|HI0]; [reflexivity|].
  rewrite of_units_pos by lia. fold (shift_of I).
  destruct (Z.leb_spec (shift_of I - 1074) 971) as [Hs|Hs];
    [|apply shift_of_small in Hlt; lia].
  assert (Hsh : 0 <= shift_of I) by (unfold shift_of; lia).
  assert (Hp : 0 < 2 ^ shift_of I) by (apply Z.pow_pos_nonneg; lia).
  pose proof (Z.div_mod I (2 ^ shift_of I) ltac:(lia)) as E. rewrite Hr in E.
  assert (0 < I / 2 ^ shift_of I) by nia.
  unfold units. rewrite Z2Pos.id by assumption.
  replace (shift_of I - 1074 + 1074) with (shift_of I) by lia. lia.
Qed.

Lemma of_units_overflow (s : bool) (I : Z) :
  overflow <= I -> of_units s I = S754_infinity s.
Proof.
  intros HI. assert (0 < I) by (unfold overflow in HI; lia).
  rewrite of_units_pos by assumption. fold (shift_of I).
  destruct (Z.leb_spec (shift_of I - 1074) 971) as [Hs|Hs]; [|reflexivity].
  apply shift_of_small in Hs; lia.
Qed.

Lemma of_units_finite (s : bool) (I : Z) :
  0 <= I < overflow ->
  of_units s I = S754_zero s \/ exists m e, of_units s I = S754_finite s m e.
Proof.
  intros [HI Hlt]. destruct (Z.eq_dec I 0) as [->|HI0]; [now left | right].
  rewrite of_units_pos by lia. fold (shift_of I).
  destruct (Z.leb_spec (shift_of I - 1074) 971) as [Hs|Hs]; [eauto|].
  apply shift_of_small in Hlt; lia.
Qed.

Lemma units_lt_overflow (x : float64) : is_float64 x -> units x < overflow.
Proof.
  intros Hv. destruct x as [s|s| |s m e]; try reflexivity.
  apply valid_finite in Hv as [He Hd]. unfold units, overflow.
  pose proof (Zdigits2_bounds (Z.pos m) ltac:(lia)) as [_ Hhi].
  assert (Hm : Z.pos m < 2 ^ 53).
  { apply Z.lt_le_trans with (1 := Hhi). apply Z.pow_le_mono_r; lia. }
  assert (Hp : 0 < 2 ^ (e + 1074)) by (apply Z.pow_pos_nonneg; lia).
  apply Z.lt_le_trans with (2 ^ 53 * 2 ^ (e + 1074)); [nia|].
  rewrite <- Z.pow_add_r by lia. apply Z.pow_le_mono_r; lia.
Qed.

(** *** Order *)

(** Valid positive floats compare as their units do. *)
Lemma compare_finite (m1 m2 : positive) (e1 e2 : Z) :
  is_float64 (S754_finite false m1 e1) -> is_float64 (S754_finite false m2 e2) ->
  SFcompare (S754_finite false m1 e1) (S754_finite false m2 e2) =
  Some (units (S754_finite false m1 e1) ?= units (S754_finite false m2 e2)).
Proof.
  intros H1 H2. apply valid_finite in H1 as [He1 Hd1], H2 as [He2 Hd2].
  unfold SFcompare, units. f_equal.
  pose proof (Zdigits2_bounds (Z.pos m1) ltac:(lia)) as [Hlo1 Hhi1].
  pose proof (Zdigits2_bounds (Z.pos m2) ltac:(lia)) as [Hlo2 Hhi2].
  assert (Hp1 : 0 < 2 ^ (e1 + 1074)) by (apply Z.pow_pos_nonneg; lia).
  assert (Hp2 : 0 < 2 ^ (e2 + 1074)) by (apply Z.pow_pos_nonneg; lia).
  assert (Hm1 : Z.pos m1 < 2 ^ 53).
  { apply Z.lt_le_trans with (1 := Hhi1). apply Z.pow_le_mono_r; lia. }
  assert (Hm2 : Z.pos m2 < 2 ^ 53).
  { apply Z.lt_le_trans with (1 := Hhi2). apply Z.pow_le_mono_r; lia. }
  destruct (Z.compare_spec e1 e2) as [->|Hlt|Hgt].
  - rewrite Pos.compare_cont_spec. simpl Pos.switch_Eq.
    transitivity (Z.pos m1 ?= Z.pos m2);
      [simpl Z.compare; now destruct (m1 ?= m2)%positive|].
    apply Zmult_compare_compat_r. apply Z.lt_gt. exact Hp2.
  - symmetry. apply Z.compare_lt_iff.
    assert (Hn : Zdigits2 (Z.pos m2) = 53) by lia. rewrite Hn in Hlo2.
    apply Z.lt_le_trans with (2 ^ 53 * 2 ^ (e1 + 1074)); [nia|].
    apply Z.le_trans with (2 ^ 52 * 2 ^ (e2 + 1074)); [|nia].
    rewrite <- !Z.pow_add_r by lia. apply Z.pow_le_mono_r; lia.
  - symmetry. apply Z.compare_gt_iff.
    assert (Hn : Zdigits2 (Z.pos m1) = 53) by lia. rewrite Hn in Hlo1.
    apply Z.lt_le_trans with (2 ^ 53 * 2 ^ (e2 + 1074)); [nia|].
    apply Z.le_trans with (2 ^ 52 * 2 ^ (e1 + 1074)); [|nia].
    rewrite <- !Z.pow_add_r by lia. apply Z.pow_le_mono_r; lia.
Qed.

(** The floats that are [+0] or positive and finite. *)
Definition finite_nonneg (x : float64) : Prop :=
  match x with
  | S754_zero false | S754_finite false _ _ => True
  | _ => False
  end.

Lemma compare_nonneg (x y : float64) :
  is_float64 x -> is_float64 y -> finite_nonneg x -> finite_nonneg y ->
  SFcompare x y = Some (units x ?= units y).
Proof.
  intros Hx Hy Fx Fy.
  destruct x as [[|]|[|]| |[|] m1 e1]; try contradiction;
    destruct y as [[|]|[|]| |[|] m2 e2]; try contradiction.
  - reflexivity.
  - pose proof (units_pos false m2 e2) as H.
    apply valid_finite in Hy as [He _]. specialize (H ltac:(lia)).
    simpl SFcompare. change (units (S754_zero false)) with 0.
    f_equal. symmetry. now apply Z.compare_lt_iff.
  - pose proof (units_pos false m1 e1) as H.
    apply valid_finite in Hx as [He _]. specialize (H ltac:(lia)).
    simpl SFcompare. change (units (S754_zero false)) with 0.
    f_equal. symmetry. now apply Z.compare_gt_iff.
  - now apply compare_finite.
Qed.

Lemma of_units_nonneg (I : Z) : 0 <= I < overflow -> finite_nonneg (of_units false I).
Proof.
  intros HI. destruct (of_units_finite false I HI) as [->|(m & e & ->)]; exact Logic.I.
Qed.

(** Floats of representable units compare as the units do. *)
Lemma leb_of_units (I J : Z) :
  representable I -> representable J -> I < overflow -> J < overflow ->
  leb (of_units false I) (of_units false J) = (I <=? J).
Proof.
  intros HI HJ HIo HJo. unfold leb, SFleb.
  rewrite compare_nonneg;
    try (apply of_units_valid; apply HI || apply HJ);
    try (apply of_units_nonneg; split; [apply HI || apply HJ | assumption]).
  rewrite !units_of_units by assumption.
  unfold Z.leb. now destruct (I ?= J).
Qed.

(** A valid [x >= +0] is the float of its units. *)
Lemma nonneg_of_units (x : float64) :
  is_float64 x -> finite_nonneg x -> x = of_units false (units x).
Proof.
  intros Hv Hx. destruct x as [[|]|[|]| |[|] m e]; try contradiction; [reflexivity|].
  symmetry. now apply of_units_units.
Qed.

End UnitOrder2.
Module ConvFacts.
Import F64 RoundingFacts RoundFacts2 RoundFacts3 UnitFacts UnitFacts2 OpFacts OpFacts2.
Import UnitOrder UnitOrder2.

(** The units of [1.0]. *)
Definition unit : Z := 2 ^ 1074.

Lemma unit_pos : 0 < unit.
Proof. reflexivity. Qed.

(** An integer of at most 53 bits, scaled by a power of two, is
    representable. *)
Lemma representable_scaled (c j : Z) :
  0 <= c < 2 ^ 53 -> 0 <= j -> representable (c * 2 ^ j).
Proof.
  intros Hc Hj.
  assert (Hp : 0 < 2 ^ j) by (apply Z.pow_pos_nonneg; lia).
  split; [nia|].
  destruct (Z.eq_dec c 0) as [->|Hc0]; [apply Z.mod_0_l; apply Z.pow_nonzero; unfold shift_of; lia|].
  apply mod_pow2_mul. unfold shift_of.
  rewrite Zdigits2_mul_pow2 by lia.
  pose proof (proj2 (Zdigits2_le_53 c ltac:(lia)) ltac:(lia)). lia.
Qed.

Lemma iter_xO (d m : positive) : Z.pos (Pos.iter xO m d) = Z.pos m * 2 ^ Z.pos d.
Proof.
  change (Pos.iter xO m d) with (shift_pos d m).
  rewrite shift_pos_correct. change (Z.pow_pos 2 d) with (2 ^ Z.pos d). lia.
Qed.

(** [binary_round] rounds [m * 2^e]. *)
Lemma binary_round_units (s : bool) (m : positive) (e : Z) :
  binary_round prec emax s m e =
  of_units s (rnd_units (fst (in_units (Z.pos m) 1 e)) (snd (in_units (Z.pos m) 1 e))).
Proof.
  unfold binary_round, shl_align.
  change (Z.pos (digits2_pos m)) with (Zdigits2 (Z.pos m)).
  rewrite fexp_eq.
  set (g := Zdigits2 (Z.pos m)).
  assert (Hg : 0 < g) by (unfold g; simpl; lia).
  set (e' := Z.max (g + e - 53) (-1074)).
  assert (He' : -1074 <= e') by (unfold e'; lia).
  assert (Hin : forall n x, 0 < n -> 0 < snd (in_units n 1 x)).
  { intros n x Hn. unfold in_units.
    destruct (Z.leb_spec 0 (x + 1074)); cbv beta iota delta [fst snd]; [lia|].
    apply Z.mul_pos_pos; [lia|]. apply Z.pow_pos_nonneg; lia. }
  destruct (e' - e) as [|d|d] eqn:Ed.
  - replace (Z.pos m) with (Z.pos m / 1) at 1 by apply Z.div_1_r.
    replace loc_Exact with (loc_of (Z.pos m) 1)
      by (unfold loc_of; now rewrite Z.mod_1_r).
    apply binary_round_aux_units; try lia.
    rewrite Z.div_1_r, fexp_eq. fold g. lia.
  - replace (Z.pos m) with (Z.pos m / 1) at 1 by apply Z.div_1_r.
    replace loc_Exact with (loc_of (Z.pos m) 1)
      by (unfold loc_of; now rewrite Z.mod_1_r).
    apply binary_round_aux_units; try lia.
    rewrite Z.div_1_r, fexp_eq. fold g. lia.
  - assert (Em : Z.pos (Pos.iter xO m d) = Z.pos m * 2 ^ Z.pos d) by apply iter_xO.
    assert (Hpd : 0 < 2 ^ Z.pos d) by (apply Z.pow_pos_nonneg; lia).
    assert (Hd : e = e' + Z.pos d) by (rewrite <- Pos2Z.opp_pos in Ed; lia).
    replace (Z.pos (Pos.iter xO m d)) with (Z.pos (Pos.iter xO m d) / 1) at 1
      by apply Z.div_1_r.
    replace loc_Exact with (loc_of (Z.pos (Pos.iter xO m d)) 1)
      by (unfold loc_of; now rewrite Z.mod_1_r).
    rewrite binary_round_aux_units; try lia.
    + f_equal. apply rnd_units_ratio; try (apply Hin; lia).
      rewrite Em. unfold in_units.
      replace (0 <=? e' + 1074) with true by (symmetry; apply Z.leb_le; lia).
      replace (0 <=? e + 1074) with true by (symmetry; apply Z.leb_le; lia).
      cbv beta iota delta [fst snd].
      replace (e + 1074) with (Z.pos d + (e' + 1074)) by lia.
      rewrite (Z.pow_add_r 2 (Z.pos d) (e' + 1074)) by lia. ring.
    + rewrite Z.div_1_r, fexp_eq, Em.
      rewrite Zdigits2_mul_pow2 by lia. fold g. lia.
Qed.

(** [binary_round] of an integer that fits the mantissa is exact. *)
Lemma binary_round_int (s : bool) (m : positive) :
  Z.pos m < 2 ^ 53 -> binary_round prec emax s m 0 = of_units s (Z.pos m * unit).
Proof.
  intros Hm. rewrite binary_round_units. unfold in_units.
  change (0 <=? 0 + 1074) with true. cbv beta iota delta [fst snd].
  change (2 ^ (0 + 1074)) with unit. f_equal.
  replace (Z.pos m * unit) with (Z.pos m * unit * 1) at 1 by lia.
  apply rnd_units_exact; [lia|]. apply representable_scaled; lia.
Qed.

(** *** [math.Round] in units *)

Definition Round_units (I : Z) : Z := (I + 2 ^ 1073) / unit * unit.

Lemma Round_units_multiple (K : Z) : Round_units (K * unit) = K * unit.
Proof.
  unfold Round_units. f_equal.
  rewrite Z.add_comm, Z.div_add by (unfold unit; lia).
  now rewrite Z.div_small by (unfold unit; lia).
Qed.

(** Within half a unit of [K], [Round] gives [K]. *)
Lemma Round_units_near (I K : Z) :
  K * unit - 2 ^ 1073 <= I < K * unit + 2 ^ 1073 -> Round_units I = K * unit.
Proof.
  intros HI. unfold Round_units. f_equal. symmetry.
  apply Z.div_unique with (I + 2 ^ 1073 - K * unit); [|lia].
  left. change unit with (2 * 2 ^ 1073) in *. lia.
Qed.

Lemma Round_units_le (I K : Z) : I <= K * unit -> Round_units I <= K * unit.
Proof.
  intros HI. unfold Round_units.
  apply Z.mul_le_mono_nonneg_r; [unfold unit; lia|].
  assert (H : (I + 2 ^ 1073) / unit < K + 1); [|lia].
  apply Z.div_lt_upper_bound; [reflexivity|].
  change unit with (2 * 2 ^ 1073) in *. lia.
Qed.

Lemma Round_units_nonneg (I : Z) : 0 <= I -> 0 <= Round_units I.
Proof.
  intros HI. unfold Round_units.
  apply Z.mul_nonneg_nonneg; [|unfold unit; lia].
  apply Z.div_pos; [lia | reflexivity].
Qed.

End ConvFacts.
Module CanonFacts.
Import F64 RoundingFacts RoundFacts2 RoundFacts3 UnitFacts UnitFacts2 OpFacts OpFacts2.
Import UnitOrder UnitOrder2 ConvFacts.

(** [math.Round] of a valid finite float, in units. *)
Lemma Round_spec (s : bool) (m : positive) (e : Z) :
  is_float64 (S754_finite s m e) ->
  Round (S754_finite s m e) = of_units s (Round_units (units (S754_finite s m e))).
Proof.
  intros Hv. pose proof Hv as Hv'. apply valid_finite in Hv' as [He Hd].
  pose proof (Zdigits2_bounds (Z.pos m) ltac:(lia)) as [_ Hhi].
  assert (Hm : Z.pos m < 2 ^ 53).
  { apply Z.lt_le_trans with (1 := Hhi). apply Z.pow_le_mono_r; lia. }
  unfold Round. destruct (Z.leb_spec 0 e) as [Hpos|Hneg].
  - replace (units (S754_finite s m e)) with (Z.pos m * 2 ^ e * unit).
    + rewrite Round_units_multiple.
      replace (Z.pos m * 2 ^ e * unit) with (units (S754_finite s m e)).
      * symmetry. now apply of_units_units.
      * unfold units, unit. rewrite Z.pow_add_r by lia. ring.
    + unfold units, unit. rewrite Z.pow_add_r by lia. ring.
  - set (k := - e). assert (Hk : 1 <= k <= 1074) by (unfold k; lia).
    replace (- e - 1) with (k - 1) by (unfold k; lia).
    assert (HP : 0 < 2 ^ (k - 1)) by (apply Z.pow_pos_nonneg; lia).
    assert (Ek : 2 ^ k = 2 * 2 ^ (k - 1)).
    { replace k with (1 + (k - 1)) at 1 by lia. now rewrite Z.pow_add_r by lia. }
    assert (Hc : 0 < 2 ^ (e + 1074)) by (apply Z.pow_pos_nonneg; lia).
    assert (EQ : Round_units (units (S754_finite s m e)) =
                 (Z.pos m + 2 ^ (k - 1)) / 2 ^ k * unit).
    { unfold Round_units. f_equal.
      rewrite <- (Z.div_mul_cancel_r (Z.pos m + 2 ^ (k - 1)) (2 ^ k) (2 ^ (e + 1074)))
        by lia.
      f_equal.
      - unfold units. rewrite Z.mul_add_distr_r. f_equal.
        rewrite <- Z.pow_add_r by lia. f_equal. unfold k. lia.
      - unfold unit. rewrite <- Z.pow_add_r by lia. f_equal. unfold k. lia. }
    rewrite EQ.
    assert (HQ : 0 <= (Z.pos m + 2 ^ (k - 1)) / 2 ^ k < 2 ^ 53).
    { split; [apply Z.div_pos; lia|].
      apply Z.div_lt_upper_bound; [lia|]. rewrite Ek. lia. }
    destruct ((Z.pos m + 2 ^ (k - 1)) / 2 ^ k) as [|q|q]; [reflexivity| |lia].
    apply binary_round_int. lia.
Qed.

Lemma Round_of_units (s : bool) (I : Z) :
  representable I -> I < overflow ->
  Round (of_units s I) = of_units s (Round_units I).
Proof.
  intros HI Hlt. pose proof (units_of_units s I HI Hlt) as EI.
  pose proof (of_units_valid s I (proj1 HI)) as Hv.
  destruct (of_units_finite s I (conj (proj1 HI) Hlt)) as [E|(m & e & E)];
    rewrite E in *.
  - change (units (S754_zero s)) with 0 in EI. now subst I.
  - rewrite Round_spec by assumption. now rewrite EI.
Qed.

(** [Round] of a representable [I] is representable. *)
Lemma Round_units_representable (I : Z) :
  representable I -> representable (Round_units I).
Proof.
  intros [HI Hr].
  destruct (Z_lt_ge_dec I (2 ^ 1127 - 2 ^ 1073)) as [Hsmall|Hbig].
  - unfold Round_units. apply representable_scaled; [|lia].
    split; [apply Z.div_pos; [lia | reflexivity]|].
    apply Z.div_lt_upper_bound; [reflexivity|].
    change (unit * 2 ^ 53) with (2 ^ 1127). lia.
  - assert (Hs : 1074 <= shift_of I).
    { unfold shift_of. pose proof (Zdigits2_ge I 1126 ltac:(lia) ltac:(lia)). lia. }
    assert (Hu : I mod unit = 0).
    { pose proof (Z.div_mod I (2 ^ shift_of I) ltac:(apply Z.pow_nonzero; lia)) as E.
      rewrite Hr, Z.add_0_r in E. rewrite E.
      rewrite Z.mul_comm. apply mod_pow2_mul. lia. }
    pose proof (Z.div_mod I unit ltac:(unfold unit; lia)) as E.
    rewrite Hu, Z.add_0_r in E.
    replace I with (I / unit * unit) at 1 by lia.
    rewrite Round_units_multiple.
    replace (I / unit * unit) with I by lia. now split.
Qed.

(** *** Conversions of integers *)

Lemma of_int_units (n : Z) :
  of_int n = of_units (n <? 0) (rnd_units (Z.abs n * unit) 1).
Proof.
  unfold of_int, binary_normalize. destruct n as [|p|p].
  - reflexivity.
  - rewrite binary_round_units. reflexivity.
  - rewrite binary_round_units. reflexivity.
Qed.

Lemma of_int_small (n : Z) :
  Z.abs n < 2 ^ 53 -> of_int n = of_units (n <? 0) (Z.abs n * unit).
Proof.
  intros Hn. rewrite of_int_units. f_equal.
  replace (Z.abs n * unit) with (Z.abs n * unit * 1) at 1 by lia.
  apply rnd_units_exact; [lia|]. apply representable_scaled; lia.
Qed.

(** *** The operations on floats given by their units *)

Lemma of_units_zero (s : bool) (I : Z) :
  representable I -> I < overflow -> forall s', of_units s I = S754_zero s' -> I = 0.
Proof.
  intros HI Hlt s' E. rewrite <- (units_of_units s I HI Hlt), E. reflexivity.
Qed.

Lemma of_units_cases (s : bool) (I : Z) :
  representable I -> I < overflow ->
  (I = 0 /\ of_units s I = S754_zero s) \/
  (0 < I /\ exists m e, of_units s I = S754_finite s m e /\
                        is_float64 (S754_finite s m e) /\
                        units (S754_finite s m e) = I).
Proof.
  intros HI Hlt. pose proof (units_of_units s I HI Hlt) as EI.
  pose proof (of_units_valid s I (proj1 HI)) as Hv.
  destruct (Z.eq_dec I 0) as [->|H0]; [now left | right].
  split; [destruct HI; lia|].
  destruct (of_units_finite s I (conj (proj1 HI) Hlt)) as [E|(m & e & E)].
  - apply of_units_zero in E; [contradiction | assumption | assumption].
  - exists m, e. rewrite E in *. auto.
Qed.

Lemma rnd_units_0 (D : Z) : 0 < D -> rnd_units 0 D = 0.
Proof.
  intros HD. replace 0 with (0 * D) at 1 by lia.
  apply rnd_units_exact; [assumption|]. split; [lia|]. apply Z.mod_0_l.
  apply Z.pow_nonzero; unfold shift_of; lia.
Qed.

Lemma mul_of_units (sa sb : bool) (I J : Z) :
  representable I -> representable J -> I < overflow -> J < overflow ->
  mul (of_units sa I) (of_units sb J) = of_units (xorb sa sb) (rnd_units (I * J) unit).
Proof.
  intros HI HJ HIo HJo.
  destruct (of_units_cases sa I HI HIo) as [[-> ->]|[HI0 (ma & ea & -> & Ha & Ea)]];
    destruct (of_units_cases sb J HJ HJo) as [[-> ->]|[HJ0 (mb & eb & -> & Hb & Eb)]].
  - reflexivity.
  - rewrite Z.mul_0_l, rnd_units_0 by reflexivity. reflexivity.
  - rewrite Z.mul_0_r, rnd_units_0 by reflexivity. reflexivity.
  - rewrite mul_units by assumption. now rewrite Ea, Eb.
Qed.

Lemma div_of_units (sa sb : bool) (I J : Z) :
  representable I -> representable J -> I < overflow -> 0 < J < overflow ->
  div (of_units sa I) (of_units sb J) = of_units (xorb sa sb) (rnd_units (I * unit) J).
Proof.
  intros HI HJ HIo [HJ0 HJo].
  destruct (of_units_cases sa I HI HIo) as [[-> ->]|[HI0 (ma & ea & -> & Ha & Ea)]];
    destruct (of_units_cases sb J HJ HJo) as [[-> ->]|[_ (mb & eb & -> & Hb & Eb)]];
    try lia.
  - rewrite Z.mul_0_l, rnd_units_0 by assumption. reflexivity.
  - rewrite div_units by assumption. now rewrite Ea, Eb.
Qed.

End CanonFacts.
Module SignFacts.
Import F64 RoundingFacts RoundFacts2 RoundFacts3 UnitFacts UnitFacts2 OpFacts OpFacts2.
Import UnitOrder UnitOrder2 ConvFacts CanonFacts.

(** [x] is a number (no NaN) of sign [s]: a zero, a valid finite float or
    an infinity. *)
Definition signed (s : bool) (x : float64) : Prop :=
  match x with
  | S754_nan => False
  | S754_zero s' | S754_infinity s' => s' = s
  | S754_finite s' _ _ => s' = s /\ is_float64 x
  end.

Lemma of_units_signed (s : bool) (I : Z) : 0 <= I -> signed s (of_units s I).
Proof.
  intros HI. pose proof (of_units_valid s I HI) as Hv.
  destruct I as [|p|p]; [reflexivity| |lia].
  rewrite of_units_pos in * by lia.
  destruct (_ <=? 971); [split; [reflexivity | exact Hv] | reflexivity].
Qed.

Lemma units_nonneg (x : float64) : 0 <= units x.
Proof.
  destruct x as [s|s| |s m e]; try reflexivity.
  unfold units. apply Z.mul_nonneg_nonneg; [lia|]. apply Z.pow_nonneg. lia.
Qed.

Lemma mul_signed (s sb : bool) (x : float64) (mb : positive) (eb : Z) :
  signed s x -> is_float64 (S754_finite sb mb eb) ->
  signed (xorb s sb) (mul x (S754_finite sb mb eb)).
Proof.
  intros Hx Hb. destruct x as [s'|s'| |s' m e]; simpl in Hx.
  - subst s'. reflexivity.
  - subst s'. reflexivity.
  - contradiction.
  - destruct Hx as [-> Hv]. rewrite mul_units by assumption.
    apply of_units_signed. apply rnd_units_nonneg; [|reflexivity].
    apply Z.mul_nonneg_nonneg; apply units_nonneg.
Qed.

Lemma div_signed (s sb : bool) (x : float64) (mb : positive) (eb : Z) :
  signed s x -> is_float64 (S754_finite sb mb eb) ->
  signed (xorb s sb) (div x (S754_finite sb mb eb)).
Proof.
  intros Hx Hb. destruct x as [s'|s'| |s' m e]; simpl in Hx.
  - subst s'. reflexivity.
  - subst s'. reflexivity.
  - contradiction.
  - destruct Hx as [-> Hv]. rewrite div_units by assumption.
    apply of_units_signed. apply rnd_units_nonneg.
    + apply Z.mul_nonneg_nonneg; [apply units_nonneg | lia].
    + apply units_pos. apply valid_finite in Hb. lia.
Qed.

Lemma Round_signed (s : bool) (x : float64) : signed s x -> signed s (Round x).
Proof.
  intros Hx. destruct x as [s'|s'| |s' m e]; try exact Hx.
  destruct Hx as [-> Hv]. rewrite Round_spec by assumption.
  apply of_units_signed, Round_units_nonneg, units_nonneg.
Qed.

Lemma in_units_pos (n e : Z) :
  0 <= n -> 0 <= fst (in_units n 1 e) /\ 0 < snd (in_units n 1 e).
Proof.
  intros Hn. unfold in_units.
  destruct (Z.leb_spec 0 (e + 1074)); cbv beta iota delta [fst snd].
  - split; [|lia]. apply Z.mul_nonneg_nonneg; [lia|]. apply Z.pow_nonneg. lia.
  - split; [lia|]. apply Z.mul_pos_pos; [lia|]. apply Z.pow_pos_nonneg; lia.
Qed.

Lemma binary_round_signed (s : bool) (m : positive) (e : Z) :
  signed s (binary_round prec emax s m e).
Proof.
  rewrite binary_round_units.
  destruct (in_units_pos (Z.pos m) e ltac:(lia)).
  apply of_units_signed. now apply rnd_units_nonneg.
Qed.

Lemma of_int_signed (n : Z) : signed (n <? 0) (of_int n).
Proof.
  rewrite of_int_units. apply of_units_signed.
  apply rnd_units_nonneg; [|lia]. unfold unit. lia.
Qed.

Lemma round_ratio_signed (neg : bool) (n d : positive) :
  signed neg (strconv.round_ratio neg n d).
Proof.
  assert (E : strconv.round_ratio neg n d =
              of_units neg (rnd_units (units (S754_finite neg n 0) * 2 ^ 1074)
                                      (units (S754_finite neg d 0))))
    by exact (div_core_units neg n d 0 0 ltac:(lia) ltac:(lia)).
  rewrite E. apply of_units_signed. apply rnd_units_nonneg.
  - apply Z.mul_nonneg_nonneg; [apply units_nonneg | lia].
  - apply units_pos. lia.
Qed.

(** A number that is not negative is at least zero. *)
Lemma leb_zero_signed (x : float64) : signed false x -> leb zero x = true.
Proof.
  intros Hx. destruct x as [s|s| |s m e]; simpl in Hx.
  - reflexivity.
  - now subst s.
  - contradiction.
  - destruct Hx as [-> _]. reflexivity.
Qed.

(** A number that is not positive is below every positive float. *)
Lemma leb_signed_true (x : float64) (m : positive) (e : Z) :
  signed true x -> leb x (S754_finite false m e) = true.
Proof.
  intros Hx. destruct x as [s|s| |s mx ex]; simpl in Hx.
  - reflexivity.
  - now subst s.
  - contradiction.
  - destruct Hx as [-> _]. reflexivity.
Qed.

Lemma signed_valid (s : bool) (x : float64) : signed s x -> is_float64 x.
Proof.
  intros Hx. destruct x as [s'|s'| |s' m e]; try reflexivity. apply Hx.
Qed.

End SignFacts.
Module ParseFloatFacts.
Import F64 strconv SignFacts.

(** The bytes of the class [[\d.]]. *)
Lemma digit_or_dot_cases (c : ascii) :
  regexp.digit_or_dot c = true ->
  In c ["0"; "1"; "2"; "3"; "4"; "5"; "6"; "7"; "8"; "9"; "."]%char.
Proof.
  destruct c as [[] [] [] [] [] [] [] []]; intros H; try discriminate H;
    simpl; tauto.
Qed.

Lemma scaled_value_signed (neg base2 : bool) (mant e : Z) :
  signed neg (scaled_value neg base2 mant e).
Proof.
  unfold scaled_value. destruct mant as [|m|m]; try reflexivity.
  destruct base2; [apply binary_round_signed|].
  destruct (0 <=? e); [apply binary_round_signed | apply round_ratio_signed].
Qed.

Lemma special_digits (c : ascii) (r : string) :
  regexp.digit_or_dot c = true -> special (String c r) = None.
Proof.
  intros H. apply digit_or_dot_cases in H. simpl in H.
  repeat (destruct H as [<-|H]; [reflexivity|]). contradiction.
Qed.

(** A text of digits and points denotes no negative number and no NaN. *)
Lemma ParseFloat_signed (s : string) :
  Str.forallb regexp.digit_or_dot s = true ->
  signed false (float_value (ParseFloat s)).
Proof.
  intros H. destruct s as [|c r]; [reflexivity|].
  simpl in H. apply andb_prop in H as [Hc _].
  unfold ParseFloat. rewrite (special_digits c r Hc).
  apply digit_or_dot_cases in Hc. simpl in Hc.
  repeat (destruct Hc as [<-|Hc]; [|]); try contradiction;
    cbv beta iota zeta;
    repeat match goal with
      | |- context [match scaled_value ?n ?h ?m ?e with _ => _ end] =>
          let E := fresh "E" in
          pose proof (scaled_value_signed n h m e) as E;
          destruct (scaled_value n h m e); exact E
      | |- signed false (float_value FloatSyntax) => reflexivity
      | |- context [match ?x with _ => _ end] => destruct x; cbv beta iota zeta
      end.
Qed.

End ParseFloatFacts.
Module PercentFacts.
Import F64 UnitFacts OpFacts UnitOrder UnitOrder2 ConvFacts CanonFacts SignFacts.

Lemma hundred_units : hundred = of_units false (100 * unit).
Proof. change hundred with (of_int 100). now apply of_int_small. Qed.

Lemma hundred_finite :
  exists m e, hundred = S754_finite false m e /\ is_float64 (S754_finite false m e).
Proof. unfold hundred. eexists. eexists. split; reflexivity. Qed.

Lemma ten_finite :
  exists m e, ten = S754_finite false m e /\ is_float64 (S754_finite false m e).
Proof. unfold ten. eexists. eexists. split; reflexivity. Qed.

Lemma Pow_ten_2 : Pow ten 2 = hundred.
Proof. reflexivity. Qed.

Lemma representable_100 : representable (100 * unit).
Proof. apply representable_scaled; lia. Qed.

Lemma below_overflow (c : Z) : c <= 2 ^ 64 -> c * unit < overflow.
Proof.
  intros Hc. apply Z.le_lt_trans with (2 ^ 64 * unit).
  - apply Z.mul_le_mono_nonneg_r; [unfold unit; lia | assumption].
  - reflexivity.
Qed.

(** [float64(n)] of a positive [int64] (or [uint64]) is positive and finite. *)
Lemma of_int_pos_finite (n : Z) :
  0 < n <= 2 ^ 64 ->
  exists m e, of_int n = S754_finite false m e /\ is_float64 (S754_finite false m e).
Proof.
  intros Hn. rewrite of_int_units.
  replace (n <? 0) with false by (symmetry; apply Z.ltb_ge; lia).
  rewrite Z.abs_eq by lia.
  set (I := rnd_units (n * unit) 1).
  assert (Hu : 0 < unit) by reflexivity.
  assert (Hr : representable I).
  { apply rnd_units_representable; [|lia]. apply Z.mul_nonneg_nonneg; lia. }
  assert (Hlo : 1 * unit <= I).
  { apply rnd_units_ge; [apply Z.mul_nonneg_nonneg; lia | lia | |].
    - apply representable_scaled; lia.
    - rewrite Z.mul_1_r. apply Z.mul_le_mono_nonneg_r; lia. }
  assert (Hhi : I <= 1 * 2 ^ 1138).
  { apply rnd_units_le; [apply Z.mul_nonneg_nonneg; lia | lia | |].
    - apply representable_scaled; lia.
    - rewrite Z.mul_1_r. change (1 * 2 ^ 1138) with (2 ^ 64 * unit).
      apply Z.mul_le_mono_nonneg_r; lia. }
  assert (Ho : I < overflow).
  { apply Z.le_lt_trans with (1 := Hhi). reflexivity. }
  destruct (of_units_cases false I Hr Ho) as [[E _]|[_ (m & e & E & Hv & _)]]; [lia|].
  exists m, e. now split.
Qed.

(** *** [min(100, q)] *)

Lemma min_hundred_neg (q : float64) : signed true q -> min hundred q = q.
Proof.
  intros Hq. destruct q as [s|s| |s m e]; simpl in Hq.
  - now subst s.
  - now subst s.
  - contradiction.
  - destruct Hq as [-> _]. reflexivity.
Qed.

Lemma min_hundred_pos (q : float64) :
  signed false q ->
  exists I, representable I /\ I <= 100 * unit /\ min hundred q = of_units false I.
Proof.
  intros Hq. destruct q as [s|s| |s m e]; simpl in Hq.
  - subst s. exists 0. split; [split; reflexivity|]. split; [|reflexivity].
    unfold unit. lia.
  - subst s. exists (100 * unit). split; [apply representable_100|].
    split; [lia|]. rewrite <- hundred_units. reflexivity.
  - contradiction.
  - destruct Hq as [-> Hv].
    destruct hundred_finite as (mh & eh & Eh & Hvh).
    assert (Emin : min hundred (S754_finite false m e) =
                   if ltb (S754_finite false m e) hundred
                   then S754_finite false m e else hundred) by reflexivity.
    rewrite Emin. destruct (ltb (S754_finite false m e) hundred) eqn:L.
    + exists (units (S754_finite false m e)).
      split; [now apply units_representable|]. split.
      * unfold ltb, SFltb in L. rewrite Eh in L.
        rewrite compare_nonneg in L by (assumption || exact Logic.I).
        rewrite <- Eh in L.
        replace (units hundred) with (100 * unit) in L by reflexivity.
        destruct (Z.compare_spec (units (S754_finite false m e)) (100 * unit));
          try discriminate L. lia.
      * apply nonneg_of_units; [assumption | exact Logic.I].
    + exists (100 * unit). split; [apply representable_100|].
      split; [lia | apply hundred_units].
Qed.

(** *** Rounding to two decimals stays below 100 *)

Lemma round2_le (I : Z) :
  representable I -> I <= 100 * unit ->
  leb (ffmpeg.round (of_units false I) 2) hundred = true.
Proof.
  intros HI Hle. destruct HI as [HI0 HIr].
  assert (Hu : 0 < unit) by reflexivity.
  assert (H100 : 100 * unit < overflow) by (apply below_overflow; lia).
  assert (H10000 : 10000 * unit < overflow) by (apply below_overflow; lia).
  unfold ffmpeg.round. change (2 <? 0) with false. cbv zeta.
  rewrite Pow_ten_2, hundred_units.
  rewrite mul_of_units; [|now split | apply representable_100 | lia | lia].
  set (I1 := rnd_units (I * (100 * unit)) unit).
  assert (H1r : representable I1).
  { apply rnd_units_representable; [|lia]. apply Z.mul_nonneg_nonneg; lia. }
  assert (H1 : I1 <= 10000 * unit).
  { apply rnd_units_le; [apply Z.mul_nonneg_nonneg; lia | lia | |].
    - apply representable_scaled; lia.
    - replace (10000 * unit * unit) with (100 * unit * (100 * unit)) by ring.
      apply Z.mul_le_mono_nonneg_r; lia. }
  rewrite Round_of_units by (assumption || lia).
  set (I2 := Round_units I1).
  assert (H2r : representable I2) by now apply Round_units_representable.
  assert (H2 : I2 <= 10000 * unit) by now apply Round_units_le.
  assert (H20 : 0 <= I2) by apply H2r.
  rewrite div_of_units; [|assumption | apply representable_100 | lia | lia].
  set (I3 := rnd_units (I2 * unit) (100 * unit)).
  assert (H3r : representable I3).
  { apply rnd_units_representable; [|lia]. apply Z.mul_nonneg_nonneg; lia. }
  assert (H3 : I3 <= 100 * unit).
  { apply rnd_units_le; [apply Z.mul_nonneg_nonneg; lia | lia | |].
    - apply representable_100.
    - replace (100 * unit * (100 * unit)) with (10000 * unit * unit) by ring.
      apply Z.mul_le_mono_nonneg_r; lia. }
  simpl xorb. rewrite leb_of_units; [|assumption | apply representable_100 | lia | lia].
  now apply Z.leb_le.
Qed.

(** The sign of [round(x, 2)] is that of [x]. *)
Lemma round2_signed (s : bool) (x : float64) :
  signed s x -> signed s (ffmpeg.round x 2).
Proof.
  intros Hx. destruct hundred_finite as (mh & eh & Eh & Hvh).
  unfold ffmpeg.round. change (2 <? 0) with false. cbv zeta.
  rewrite Pow_ten_2, Eh.
  rewrite <- (xorb_false_r s). apply div_signed; [|assumption].
  apply Round_signed.
  rewrite <- (xorb_false_r s). apply mul_signed; assumption.
Qed.

(** The quotient of the percentage, before [min] and [round]. *)
Lemma ratio_signed (ct total : Z) :
  0 < total <= 2 ^ 64 ->
  signed (ct <? 0) (mul (div (of_int ct) (of_int total)) hundred).
Proof.
  intros Ht. destruct hundred_finite as (mh & eh & Eh & Hvh).
  destruct (of_int_pos_finite total Ht) as (mt & et & Et & Hvt).
  rewrite Eh, Et.
  rewrite <- (xorb_false_r (ct <? 0)). apply mul_signed; [|assumption].
  rewrite <- (xorb_false_r (ct <? 0)). apply div_signed; [|assumption].
  apply of_int_signed.
Qed.

Section Percent.
Variable ms : Z.
Variable total : time.Duration.
Hypothesis total_pos : 0 < total.
Hypothesis total_int64 : total <= max_int64.

Lemma percent_le : leb (ffmpeg.percent_of ms total) hundred = true.
Proof.
  unfold ffmpeg.percent_of.
  set (ct := time.wrap_int64 (ms * 1000)).
  assert (Ht : 0 < total <= 2 ^ 64) by (unfold max_int64 in total_int64; lia).
  pose proof (ratio_signed ct total Ht) as Hq.
  set (q := mul (div (of_int ct) (of_int total)) hundred) in *.
  destruct (ct <? 0).
  - rewrite min_hundred_neg by assumption.
    destruct hundred_finite as (mh & eh & Eh & Hvh). rewrite Eh.
    apply leb_signed_true. now apply round2_signed.
  - destruct (min_hundred_pos q Hq) as (I & HI & Hle & ->).
    now apply round2_le.
Qed.

Lemma percent_ge :
  0 <= time.wrap_int64 (ms * 1000) -> leb zero (ffmpeg.percent_of ms total) = true.
Proof.
  intros Hct. unfold ffmpeg.percent_of.
  set (ct := time.wrap_int64 (ms * 1000)) in *.
  assert (Ht : 0 < total <= 2 ^ 64) by (unfold max_int64 in total_int64; lia).
  pose proof (ratio_signed ct total Ht) as Hq.
  set (q := mul (div (of_int ct) (of_int total)) hundred) in *.
  replace (ct <? 0) with false in Hq by (symmetry; apply Z.ltb_ge; lia).
  apply leb_zero_signed, round2_signed.
  destruct (min_hundred_pos q Hq) as (I & HI & Hle & ->).
  apply of_units_signed, HI.
Qed.

End Percent.

(** The percent of [parseProgress] is a number that is not negative. *)
Lemma handbrake_percent_ge (stat : string -> option Z) (line out : string)
      (p : handbrake.EncodeProgress) :
  handbrake.parseProgress stat line out = (p, true) ->
  leb zero (handbrake.Percent p) = true.
Proof.
  intros H.
  destruct (regexp.FindStringSubmatch 3 handbrake.progressRe line) as [matches|] eqn:E.
  - rewrite (ParseFacts.parseProgress_matched stat line out matches E) in H.
    injection H as <-. cbn [handbrake.Percent].
    apply (RegexpFacts.FindStringSubmatch_sound ParseFacts.group_text) in E
      as (pre & u & post & _ & _ & Hc).
    + specialize (Hc 1%nat). simpl in Hc.
      apply ParseFloatFacts.ParseFloat_signed in Hc.
      destruct ten_finite as (mt & et & Et & Hvt). rewrite Et.
      apply leb_zero_signed.
      change false with (xorb false false). apply div_signed; [|assumption].
      apply Round_signed.
      change false with (xorb false false) at 1. apply mul_signed; assumption.
    + apply ParseFacts.progressRe_groups.
    + intros u. exact Logic.I.
    + intros [|[|[|i]]]; simpl; auto.
  - unfold handbrake.parseProgress in H. rewrite E in H. discriminate H.
Qed.

End PercentFacts.
(** ** The range of the percent *)

Module PercentRange.
Import F64 ffmpeg ProgressFacts PercentFacts.

(** The line carries no [out_time_ms] value, or one that is not negative
    once it is taken to nanoseconds in an [int64]. *)
Definition nonneg_time (text : string) : bool :=
  match out_time_value text with
  | Some ms => 0 <=? time.wrap_int64 (ms * 1000)
  | None => true
  end.

Lemma forallb_fields (P : float64 -> bool) (l : list EncodeProgress) :
  forallb (fun p => P (Percent p)) l = forallb (fun t => P (fst (fst t))) (map fields l).
Proof. induction l as [|p l IH]; simpl; [reflexivity | now rewrite IH]. Qed.

Lemma expected_percents (total : Z) (ok : string -> bool) (P : float64 -> bool) :
  (forall text ms,
      ok text = true -> out_time_value text = Some ms -> P (percent_of ms total) = true) ->
  forall lines before,
    forallb ok lines = true ->
    forallb (fun t => P (fst (fst t))) (expected total before lines) = true.
Proof.
  intros HP. induction lines as [|l rest IH]; intros before Hok; simpl; [reflexivity|].
  simpl in Hok. apply andb_prop in Hok as [Hl Hrest].
  destruct (out_time_value l) as [ms|] eqn:E; [|now apply IH].
  simpl. rewrite (HP l ms Hl E). now apply IH.
Qed.

Lemma forallb_always {A : Type} (l : list A) : forallb (fun _ => true) l = true.
Proof. induction l; simpl; auto. Qed.

Section Snapshots.
Variable now : nat -> Z.
Variable indefinite : float64 -> Z.

Lemma collect_fields (stream : list ascii) (total : time.Duration) :
  0 < total ->
  map fields (collect (iterProgress now indefinite stream total)) =
  expected total [] (bufio.Scanner_lines stream).
Proof.
  intros Htotal. unfold collect, iterProgress.
  change (fun (v : EncodeProgress) (acc : list EncodeProgress) => (v :: acc, true))
    with record.
  now rewrite (loop_record now indefinite total _ 0%nat [] initial_state []).
Qed.

Lemma collect_silent (stream : list ascii) (total : time.Duration) :
  total <= 0 -> collect (iterProgress now indefinite stream total) = [].
Proof.
  intros Htotal. unfold collect, iterProgress.
  change (fun (v : EncodeProgress) (acc : list EncodeProgress) => (v :: acc, true))
    with record.
  now rewrite loop_silent.
Qed.

Lemma snapshots_percents (ok : string -> bool) (P : float64 -> bool)
      (stream : list ascii) (total : time.Duration) :
  (0 < total -> forall text ms,
      ok text = true -> out_time_value text = Some ms ->
      P (percent_of ms total) = true) ->
  forallb ok (bufio.Scanner_lines stream) = true ->
  forallb (fun p => P (Percent p)) (collect (iterProgress now indefinite stream total))
  = true.
Proof.
  intros HP Hok. destruct (Z_lt_le_dec 0 total) as [Hpos|Hneg].
  - rewrite forallb_fields, collect_fields by assumption.
    apply expected_percents with (ok := ok); [exact (HP Hpos) | assumption].
  - now rewrite collect_silent.
Qed.

End Snapshots.

(** C3, against the claim as stated: neither extractor keeps the percent
    within 0 and 100 on every input.
    HandBrake's takes the percent as the line gives it: a line that says
    250 percent yields a snapshot of percent 250.  FFmpeg's bounds it from
    above only: the line [out_time_ms=-5000000] yields a percent of -5 when
    the total is 100 s. *)
Lemma Percent_leaves_the_range :
  (let result :=
     handbrake.parseProgress (fun _ => None) "Encoding: task 1 of 1, 250.0 %" "out.mp4" in
   snd result = true /\
   handbrake.Percent (fst result) = of_int 250 /\
   leb (handbrake.Percent (fst result)) hundred = false) /\
  (exists p,
      collect (iterProgress (fun i => Z.of_nat i) (fun _ => 0)
                 (stream_of ["out_time_ms=-5000000"]) (100 * time.Second)) = [p] /\
      Percent p = of_int (-5) /\
      leb zero (Percent p) = false).
Proof.
  split.
  - split; [vm_compute; reflexivity|]. split; vm_compute; reflexivity.
  - eexists. split; [vm_compute; reflexivity|]. split; vm_compute; reflexivity.
Qed.

(** X1.  [iterProgress] never reports more than 100 percent: whatever the
    stream, the clock and the total duration (an [int64]), the percent of
    every snapshot is a number that is at most 100.  [min(100.0, ...)]
    bounds the quotient and [round(..., 2)] does not take it above. *)
Theorem iterProgress_percent_at_most_100 :
  forall (now : nat -> Z) (indefinite : float64 -> Z)
         (stream : list ascii) (total : time.Duration),
    total <= max_int64 ->
    forallb (fun p => leb (Percent p) hundred)
            (collect (iterProgress now indefinite stream total)) = true.
Proof.
  intros now indefinite stream total Hmax.
  apply (snapshots_percents now indefinite (fun _ => true) (fun x => leb x hundred));
    [|apply forallb_always].
  intros Hpos text ms _ _. now apply percent_le.
Qed.

Lemma iterProgress_percent_at_most_100_witness :
  forallb (fun p => leb (Percent p) hundred)
          (collect (iterProgress (fun i => Z.of_nat i) (fun _ => 0)
                      (stream_of ["out_time_ms=50000000"; "out_time_ms=990000000"])
                      (100 * time.Second))) = true.
Proof. apply iterProgress_percent_at_most_100. vm_compute. discriminate. Defined.

(** X2.  The percent of [iterProgress] has no lower bound of its own: it
    is a number that is not negative in every snapshot of a stream whose
    [out_time_ms] values, taken to nanoseconds in an [int64], are not
    negative. *)
Theorem iterProgress_percent_nonneg :
  forall (now : nat -> Z) (indefinite : float64 -> Z)
         (stream : list ascii) (total : time.Duration),
    total <= max_int64 ->
    forallb nonneg_time (bufio.Scanner_lines stream) = true ->
    forallb (fun p => leb zero (Percent p))
            (collect (iterProgress now indefinite stream total)) = true.
Proof.
  intros now indefinite stream total Hmax Hok.
  apply (snapshots_percents now indefinite nonneg_time (fun x => leb zero x));
    [|assumption].
  intros Hpos text ms Hnn E. apply percent_ge; try assumption.
  unfold nonneg_time in Hnn. rewrite E in Hnn. now apply Z.leb_le.
Qed.

Lemma iterProgress_percent_nonneg_witness :
  forallb (fun p => leb zero (Percent p))
          (collect (iterProgress (fun i => Z.of_nat i) (fun _ => 0)
                      (stream_of ["out_time_ms=50000000"; "fps=24"; "out_time_ms=0"])
                      (100 * time.Second))) = true.
Proof.
  apply iterProgress_percent_nonneg; [vm_compute; discriminate | vm_compute; reflexivity].
Defined.

(** X3.  The percent that [parseProgress] returns with a match is a number
    that is not negative: the pattern lets digits and points through only,
    and neither [ParseFloat] on such a text nor the rounding to one decimal
    gives a NaN or a negative value.  (It can exceed 100, and it is [+Inf]
    for a number too large for a [float64].) *)
Theorem parseProgress_percent_nonneg :
  forall (stat : string -> option Z) (line outputPath : string)
         (p : handbrake.EncodeProgress),
    handbrake.parseProgress stat line outputPath = (p, true) ->
    leb zero (handbrake.Percent p) = true /\ is_nan (handbrake.Percent p) = false.
Proof.
  intros stat line outputPath p H.
  pose proof (handbrake_percent_ge stat line outputPath p H) as Hge.
  split; [assumption|].
  destruct (handbrake.Percent p); try reflexivity. discriminate Hge.
Qed.

Lemma parseProgress_percent_nonneg_witness :
  let p := fst (handbrake.parseProgress (fun _ => None)
                  "Encoding: task 1 of 1, 45.3 %" "out.mp4") in
  leb zero (handbrake.Percent p) = true /\ is_nan (handbrake.Percent p) = false.
Proof.
  apply (parseProgress_percent_nonneg (fun _ => None)
           "Encoding: task 1 of 1, 45.3 %" "out.mp4").
  vm_compute. reflexivity.
Defined.

End PercentRange.
Module PowFacts.
Import F64 UnitFacts OpFacts UnitOrder UnitOrder2 ConvFacts CanonFacts SignFacts.

(** [math.Pow(10, N)] is exactly [10^N] up to [N = 22], the last power of
    ten that a [float64] holds. *)
Lemma Pow_ten_units (N : Z) :
  0 <= N <= 22 -> Pow ten N = of_units false (10 ^ N * unit).
Proof.
  intros HN.
  assert (H : N = 0 \/ N = 1 \/ N = 2 \/ N = 3 \/ N = 4 \/ N = 5 \/ N = 6 \/ N = 7 \/
              N = 8 \/ N = 9 \/ N = 10 \/ N = 11 \/ N = 12 \/ N = 13 \/ N = 14 \/
              N = 15 \/ N = 16 \/ N = 17 \/ N = 18 \/ N = 19 \/ N = 20 \/ N = 21 \/
              N = 22) by lia.
  repeat (destruct H as [->|H]; [vm_compute; reflexivity|]).
  subst N. vm_compute. reflexivity.
Qed.

Lemma pow10_scaled (N : Z) :
  0 <= N <= 22 ->
  representable (10 ^ N * unit) /\ 1 <= 10 ^ N <= 10 ^ 22.
Proof.
  intros HN. split.
  - replace (10 ^ N * unit) with (5 ^ N * 2 ^ (N + 1074)).
    + apply representable_scaled; [|lia]. split; [apply Z.pow_nonneg; lia|].
      apply Z.le_lt_trans with (5 ^ 22); [apply Z.pow_le_mono_r; lia | reflexivity].
    + unfold unit. change 10 with (5 * 2). rewrite Z.pow_mul_l, Z.pow_add_r by lia. ring.
  - split; [|apply Z.pow_le_mono_r; lia].
    pose proof (Z.pow_pos_nonneg 10 N ltac:(lia) ltac:(lia)). lia.
Qed.

End PowFacts.
Module IdempotenceFacts.
Import F64 RoundingFacts UnitFacts OpFacts OpFacts2.
Import UnitOrder UnitOrder2 ConvFacts CanonFacts SignFacts PowFacts.

Lemma SFabs_of_units (s : bool) (I : Z) : SFabs (of_units s I) = of_units false I.
Proof.
  unfold of_units. destruct I as [|p|p]; try reflexivity.
  cbv zeta. destruct (_ <=? 971); reflexivity.
Qed.

Lemma unit_facts : 0 < unit /\ unit = 2 ^ 1074 /\ 10 ^ 22 * 2 ^ 53 <= unit.
Proof.
  split; [reflexivity|]. split; [reflexivity|].
  apply Z.leb_le. vm_compute. reflexivity.
Qed.

Lemma F_below (F : Z) : 1 <= F <= 10 ^ 22 -> F * unit < overflow.
Proof.
  intros F_range.
  apply Z.le_lt_trans with (10 ^ 22 * unit); [|reflexivity].
  apply Z.mul_le_mono_nonneg_r; [unfold unit|]; lia.
Qed.

Lemma K_repr (K : Z) :
  1 <= K <= 2 ^ 50 -> representable (K * unit) /\ K * unit < overflow.
Proof.
  intros K_range.
  split; [apply representable_scaled; lia|].
  apply Z.le_lt_trans with (2 ^ 50 * unit); [|reflexivity].
  apply Z.mul_le_mono_nonneg_r; [unfold unit|]; lia.
Qed.

Section Fixed.
(** The factor [F = 10^N] and an integer [K] of at most 50 bits. *)
Variable F K : Z.
Hypothesis F_range : 1 <= F <= 10 ^ 22.
Hypothesis F_repr : representable (F * unit).
Hypothesis K_range : 1 <= K <= 2 ^ 50.

Let Iw : Z := rnd_units (K * unit * unit) (F * unit).

(** The quotient [K / F], rounded, times [F] is within an eighth of [K]. *)
Lemma quotient_error : Z.abs (Iw * F - K * unit) <= 2 ^ 1071.
Proof.
  destruct unit_facts as (Hu & Eu & Hbig).
  assert (HN : 0 <= K * unit * unit) by (apply Z.mul_nonneg_nonneg; lia).
  assert (HD : 0 < F * unit) by lia.
  pose proof (rnd_units_error (K * unit * unit) (F * unit) HN HD) as E.
  fold Iw in E.
  replace (K * unit * unit / (F * unit)) with (K * unit / F) in E
    by (symmetry; apply Z.div_mul_cancel_r; lia).
  set (t := K * unit / F) in *.
  assert (Ht : 2 ^ 53 <= t).
  { apply Z.div_le_lower_bound; [lia|].
    apply Z.le_trans with (10 ^ 22 * 2 ^ 53); [|lia].
    apply Z.mul_le_mono_nonneg_r; lia. }
  assert (HtF : F * t <= K * unit) by (apply Z.mul_div_le; lia).
  pose proof (Zdigits2_ge t 53 ltac:(lia) Ht) as Hg.
  pose proof (Zdigits2_bounds t ltac:(lia)) as [Hlo _].
  unfold shift_of in E. rewrite Z.max_l in E by lia.
  set (g := Zdigits2 t) in *.
  set (P := 2 ^ (g - 53)) in *.
  assert (HP : 0 < P) by (apply Z.pow_pos_nonneg; lia).
  assert (EP : P * 2 ^ 52 = 2 ^ (g - 1)).
  { unfold P. rewrite <- Z.pow_add_r by lia. f_equal. lia. }
  set (X := Iw * F) in *.
  replace (Iw * (F * unit) - K * unit * unit) with ((X - K * unit) * unit) in E
    by (unfold X; ring).
  rewrite Z.abs_mul, (Z.abs_eq unit) in E by lia.
  assert (E2 : 2 * Z.abs (X - K * unit) <= F * P).
  { apply (Z.mul_le_mono_pos_r _ _ unit Hu).
    replace (2 * Z.abs (X - K * unit) * unit)
      with (2 * (Z.abs (X - K * unit) * unit)) by ring.
    replace (F * P * unit) with (F * unit * P) by ring. exact E. }
  assert (E3 : F * P * 2 ^ 52 <= K * unit).
  { apply Z.le_trans with (F * t); [|assumption].
    rewrite <- Z.mul_assoc, EP. apply Z.mul_le_mono_nonneg_l; lia. }
  set (A := Z.abs (X - K * unit)) in *.
  set (FP := F * P) in *.
  rewrite Eu in *. lia.
Qed.

Lemma Iw_facts : representable Iw /\ Iw < overflow.
Proof.
  destruct unit_facts as (Hu & Eu & Hbig).
  assert (Hr : representable Iw).
  { apply rnd_units_representable; [|lia]. apply Z.mul_nonneg_nonneg; lia. }
  split; [assumption|].
  pose proof quotient_error as E.
  assert (H0 : 0 <= Iw) by apply Hr.
  assert (HF : Iw <= Iw * F) by nia.
  set (X := Iw * F) in *.
  apply Z.le_lt_trans with (2 ^ 50 * unit + 2 ^ 1071); [|reflexivity].
  rewrite Eu in *. lia.
Qed.

(** Scaling the quotient back and rounding gives [K] again. *)
Lemma scaled_back : Round_units (rnd_units (Iw * (F * unit)) unit) = K * unit.
Proof.
  destruct unit_facts as (Hu & Eu & Hbig).
  destruct Iw_facts as [Hr Ho]. assert (H0 : 0 <= Iw) by apply Hr.
  pose proof quotient_error as E.
  assert (HN : 0 <= Iw * (F * unit)) by (apply Z.mul_nonneg_nonneg; lia).
  assert (Hlo : (4 * K - 1) * 2 ^ 1072 <= rnd_units (Iw * (F * unit)) unit).
  { apply rnd_units_ge; [assumption | lia | apply representable_scaled; lia|].
    replace (Iw * (F * unit)) with (Iw * F * unit) by ring.
    apply Z.mul_le_mono_nonneg_r; [lia|].
    set (X := Iw * F) in *. rewrite Eu in *. lia. }
  assert (Hhi : rnd_units (Iw * (F * unit)) unit <= (4 * K + 1) * 2 ^ 1072).
  { apply rnd_units_le; [assumption | lia | apply representable_scaled; lia|].
    replace (Iw * (F * unit)) with (Iw * F * unit) by ring.
    apply Z.mul_le_mono_nonneg_r; [lia|].
    set (X := Iw * F) in *. rewrite Eu in *. lia. }
  apply Round_units_near. rewrite Eu in *. lia.
Qed.

(** [round] leaves [K / F] as it is. *)
Lemma round_fixed (s : bool) :
  let f := of_units false (F * unit) in
  let w := div (of_units s (K * unit)) f in
  div (Round (mul w f)) f = w.
Proof.
  intros f w. unfold w, f.
  destruct unit_facts as (Hu & Eu & Hbig).
  destruct (K_repr K K_range) as [HKr HKo]. pose proof (F_below F F_range) as HFo.
  destruct Iw_facts as [Hr Ho].
  rewrite div_of_units by (assumption || lia).
  rewrite xorb_false_r. fold Iw.
  rewrite mul_of_units by assumption.
  rewrite xorb_false_r.
  assert (HN : 0 <= Iw * (F * unit)).
  { apply Z.mul_nonneg_nonneg; [apply Hr | lia]. }
  rewrite Round_of_units.
  - rewrite scaled_back, div_of_units by (assumption || lia).
    now rewrite xorb_false_r.
  - apply rnd_units_representable; lia.
  - apply Z.le_lt_trans with ((4 * K + 1) * 2 ^ 1072).
    + apply rnd_units_le; [assumption | lia | apply representable_scaled; lia|].
      replace (Iw * (F * unit)) with (Iw * F * unit) by ring.
      apply Z.mul_le_mono_nonneg_r; [lia|].
      pose proof quotient_error as E.
      set (X := Iw * F) in *. rewrite Eu in *. lia.
    + apply Z.le_lt_trans with ((4 * 2 ^ 50 + 1) * 2 ^ 1072); [|reflexivity].
      apply Z.mul_le_mono_nonneg_r; lia.
Qed.

End Fixed.

End IdempotenceFacts.
Module RoundTrip.
Import F64 RoundingFacts UnitFacts OpFacts OpFacts2.
Import UnitOrder UnitOrder2 ConvFacts CanonFacts SignFacts PowFacts IdempotenceFacts.

Section Factor.
Variable F : Z.
Hypothesis F_range : 1 <= F <= 10 ^ 22.
Hypothesis F_repr : representable (F * unit).

Let f : float64 := of_units false (F * unit).

Lemma representable_0 : representable 0.
Proof. split; reflexivity. Qed.

Lemma f_finite :
  exists m e, f = S754_finite false m e /\ is_float64 (S754_finite false m e).
Proof.
  destruct (of_units_cases false (F * unit) F_repr (F_below F F_range))
    as [[E _]|[_ (m & e & E & Hv & _)]].
  - pose proof (unit_facts) as (Hu & _). lia.
  - exists m, e. now split.
Qed.

Lemma round_zero_fixed (s : bool) :
  div (Round (mul (of_units s 0) f)) f = of_units s 0.
Proof.
  pose proof (F_below F F_range) as HFo.
  pose proof unit_facts as (Hu & _).
  unfold f.
  rewrite mul_of_units by (assumption || apply representable_0 || reflexivity).
  rewrite xorb_false_r, Z.mul_0_l, rnd_units_0 by assumption.
  rewrite Round_of_units by (apply representable_0 || reflexivity).
  replace (Round_units 0) with 0 by reflexivity.
  rewrite div_of_units by (assumption || apply representable_0 || reflexivity || lia).
  rewrite xorb_false_r, Z.mul_0_l, rnd_units_0 by lia. reflexivity.
Qed.

(** [math.Round(v * f) / f] is a fixed point of that operation when
    [|v * f|] is at most [2^50]. *)
Lemma round_core_idempotent (v : float64) :
  is_float64 v ->
  leb (SFabs (mul v f)) (of_int (2 ^ 50)) = true ->
  div (Round (mul (div (Round (mul v f)) f) f)) f = div (Round (mul v f)) f.
Proof.
  intros Hv Hle.
  pose proof (F_below F F_range) as HFo.
  pose proof unit_facts as (Hu & Eu & Hbig).
  destruct f_finite as (mf & ef & Ef & Hvf).
  destruct v as [s|s| |s m e].
  - change (S754_zero s) with (of_units s 0).
    now rewrite !round_zero_fixed.
  - rewrite Ef in Hle. discriminate Hle.
  - discriminate Hle.
  - rewrite <- (of_units_units s m e Hv) in *.
    set (V := units (S754_finite s m e)) in *.
    assert (HVr : representable V) by now apply units_representable.
    assert (HVo : V < overflow) by now apply units_lt_overflow.
    unfold f in *.
    rewrite mul_of_units in * by assumption.
    rewrite xorb_false_r in *.
    set (I1 := rnd_units (V * (F * unit)) unit) in *.
    assert (H1r : representable I1).
    { apply rnd_units_representable; [|assumption].
      apply Z.mul_nonneg_nonneg; [apply HVr | lia]. }
    rewrite SFabs_of_units in Hle.
    assert (H1 : I1 <= 2 ^ 50 * unit).
    { destruct (Z_lt_le_dec I1 overflow) as [Ho|Ho].
      - rewrite of_int_small in Hle by reflexivity.
        change (2 ^ 50 <? 0) with false in Hle.
        change (Z.abs (2 ^ 50)) with (2 ^ 50) in Hle.
        rewrite leb_of_units in Hle;
          [now apply Z.leb_le | assumption | apply representable_scaled; lia
          | assumption | reflexivity].
      - rewrite of_units_overflow in Hle by assumption. discriminate Hle. }
    assert (H1o : I1 < overflow).
    { apply Z.le_lt_trans with (1 := H1). reflexivity. }
    rewrite Round_of_units by assumption.
    pose proof (Round_units_le I1 (2 ^ 50) H1) as HK.
    pose proof (Round_units_nonneg I1 (proj1 H1r)) as HK0.
    unfold Round_units in *.
    set (K := (I1 + 2 ^ 1073) / unit) in *.
    assert (HKr : 0 <= K <= 2 ^ 50).
    { split.
      - apply Z.div_pos; [destruct H1r; lia | assumption].
      - apply (Z.mul_le_mono_pos_r _ _ unit Hu). exact HK. }
    destruct (Z.eq_dec K 0) as [->|HKn].
    + rewrite Z.mul_0_l.
      assert (E0 : div (of_units s 0) (of_units false (F * unit)) = of_units s 0).
      { rewrite div_of_units
          by (assumption || apply representable_0 || reflexivity || lia).
        rewrite xorb_false_r, Z.mul_0_l, rnd_units_0 by lia. reflexivity. }
      rewrite E0. apply round_zero_fixed.
    + apply (round_fixed F K F_range F_repr); lia.
Qed.

End Factor.

End RoundTrip.
(** ** [round] on what it has rounded *)

Module RoundAgain.
Import F64 UnitFacts UnitOrder ConvFacts SignFacts PowFacts RoundTrip.

Lemma Pow_ten_finite (N : Z) :
  0 <= N <= 22 ->
  exists m e, Pow ten N = S754_finite false m e /\ is_float64 (S754_finite false m e).
Proof.
  intros HN. rewrite (Pow_ten_units N HN).
  destruct (pow10_scaled N HN) as [Hr HF].
  exact (f_finite (10 ^ N) HF Hr).
Qed.

(** X4.  Rounding twice is rounding once, within limits: for a precision
    [N] from 0 to 22 and a [v] whose product [v * 10^N] is at most [2^50]
    in magnitude, both helpers return [round(v, N)] for
    [round(round(v, N), N)].  Beyond that magnitude they need not:
    37483031987697.016 rounds to ...97.02 and that to ...97.03 at two
    decimals. *)
Theorem round_twice_is_round_once :
  (forall (v : float64) (N : Z),
      is_float64 v -> 0 <= N <= 22 ->
      leb (SFabs (mul v (Pow ten N))) (of_int (2 ^ 50)) = true ->
      handbrake.round (handbrake.round v N) N = handbrake.round v N /\
      ffmpeg.round (ffmpeg.round v N) N = ffmpeg.round v N) /\
  (let v := S754_finite false 4797828094425218 (-7) in
   is_float64 v /\
   handbrake.round v 2 = S754_finite false 4797828094425219 (-7) /\
   handbrake.round (handbrake.round v 2) 2 = S754_finite false 4797828094425220 (-7) /\
   ffmpeg.round (ffmpeg.round v 2) 2 <> ffmpeg.round v 2).
Proof.
  split.
  - intros v N Hv HN Hle.
    destruct (pow10_scaled N HN) as [Hr HF].
    pose proof (round_core_idempotent (10 ^ N) HF Hr v Hv) as H.
    rewrite <- (Pow_ten_units N HN) in H. specialize (H Hle).
    unfold handbrake.round, ffmpeg.round.
    replace (N <? 0) with false by (symmetry; apply Z.ltb_ge; lia).
    split; exact H.
  - split; [reflexivity|]. split; [vm_compute; reflexivity|].
    split; [vm_compute; reflexivity|]. vm_compute. discriminate.
Qed.

Lemma round_twice_is_round_once_witness :
  handbrake.round (handbrake.round (of_int 7) 2) 2 = handbrake.round (of_int 7) 2 /\
  ffmpeg.round (ffmpeg.round (of_int 7) 2) 2 = ffmpeg.round (of_int 7) 2.
Proof.
  apply (proj1 round_twice_is_round_once (of_int 7) 2);
    [reflexivity | lia | vm_compute; reflexivity].
Defined.

(** X5.  [round] keeps what kind of number it is given: at a precision from
    0 to 22 the result for a NaN is a NaN, and the result for a zero, a
    finite number or an infinity is a number of the same sign, never a
    NaN. *)
Theorem round_keeps_sign :
  forall (v : float64) (N : Z) (s : bool),
    0 <= N <= 22 ->
    (signed s v -> signed s (handbrake.round v N) /\ signed s (ffmpeg.round v N)) /\
    handbrake.round S754_nan N = S754_nan /\ ffmpeg.round S754_nan N = S754_nan.
Proof.
  intros v N s HN.
  destruct (Pow_ten_finite N HN) as (m & e & E & Hv).
  unfold handbrake.round, ffmpeg.round.
  replace (N <? 0) with false by (symmetry; apply Z.ltb_ge; lia).
  cbv zeta. rewrite E. split; [|split; reflexivity].
  intros Hs.
  assert (H : signed s (div (Round (mul v (S754_finite false m e)))
                            (S754_finite false m e))).
  { rewrite <- (xorb_false_r s). apply div_signed; [|assumption].
    apply Round_signed.
    rewrite <- (xorb_false_r s). now apply mul_signed. }
  now split.
Qed.

Lemma round_keeps_sign_witness :
  signed true (handbrake.round (of_int (-3)) 1) /\
  signed true (ffmpeg.round (of_int (-3)) 1).
Proof.
  apply (proj1 (round_keeps_sign (of_int (-3)) 1 true ltac:(lia))).
  split; reflexivity.
Defined.

End RoundAgain.
(** ** The order of the arguments of [ffmpeg] *)

Module ArgsOrder.
Import F64 strconv ArgsFacts.

Lemma seconds_not_i (d : time.Duration) : String.eqb (seconds d) "-i" = false.
Proof.
  apply String.eqb_neq. intros E. symmetry in E. revert E.
  apply numeric_neq; [apply numeric_Itoa | reflexivity].
Qed.

(** [insert_before_i] up to the first [-i]. *)
Lemma insert_upto flag value (pre rest : list string) :
  Forall (fun x => String.eqb x "-i" = false) pre ->
  ffmpeg.insert_before_i flag value (pre ++ "-i" :: rest)%list =
  (pre ++ flag :: value :: "-i" :: ffmpeg.insert_before_i flag value rest)%list.
Proof.
  induction 1 as [|x pre Hx _ IH]; simpl; [reflexivity|].
  now rewrite Hx, IH.
Qed.

Lemma insert_input flag value (ip : string) (rest : list string) :
  ip <> "-i" ->
  ffmpeg.insert_before_i flag value (ip :: rest) =
  ip :: ffmpeg.insert_before_i flag value rest.
Proof. intros H. apply String.eqb_neq in H. simpl. now rewrite H. Qed.

(** The three steps that follow the base vector. *)
Definition with_profile (params : ffmpeg.EncodeParams) : list string :=
  if ffmpeg.Is10Bit params
  then ffmpeg.replace_profile None (ffmpeg_base params (ffmpeg_scale params))
  else ffmpeg_base params (ffmpeg_scale params).

Definition with_seek (params : ffmpeg.EncodeParams) : list string :=
  if 0 <? ffmpeg.FromTime params
  then ffmpeg.insert_before_i "-ss" (seconds (ffmpeg.FromTime params)) (with_profile params)
  else with_profile params.

Definition with_length (params : ffmpeg.EncodeParams) : list string :=
  if 0 <? ffmpeg.Duration params
  then ffmpeg.insert_before_i "-t" (seconds (ffmpeg.Duration params)) (with_seek params)
  else with_seek params.

Lemma ffmpeg_args_exact probe params args total :
  ffmpeg.Encode_args probe params = Some (args, total) ->
  args = (with_length params ++ ffmpeg.ExtraArgs params)%list /\
  (0 < ffmpeg.Duration params -> total = ffmpeg.Duration params) /\
  (ffmpeg.Duration params <= 0 -> probe (ffmpeg.InputPath params) = Some total).
Proof.
  unfold ffmpeg.Encode_args. fold seconds.
  set (a0 := (_ ++ [ffmpeg.OutputPath params])%list).
  assert (Ha0 : a0 = ffmpeg_base params (ffmpeg_scale params)).
  { unfold a0, ffmpeg_base, ffmpeg_scale.
    destruct (_ || _)%bool; reflexivity. }
  rewrite Ha0. clear a0 Ha0.
  unfold with_length, with_seek, with_profile.
  destruct (Z.ltb_spec 0 (ffmpeg.Duration params)) as [Hd|Hd].
  - intros [= <- <-]. split; [reflexivity|]. split; intros; [reflexivity | lia].
  - destruct (probe _) as [d|]; [|discriminate].
    intros [= <- <-]. split; [reflexivity|]. split; intros; [lia | reflexivity].
Qed.

Lemma ffmpeg_args_none probe params :
  ffmpeg.Encode_args probe params = None <->
  ffmpeg.Duration params <= 0 /\ probe (ffmpeg.InputPath params) = None.
Proof.
  unfold ffmpeg.Encode_args.
  destruct (Z.ltb_spec 0 (ffmpeg.Duration params)) as [Hd|Hd].
  - split; [discriminate | lia].
  - destruct (probe _) as [d|].
    + split; [discriminate | intros [_ H]; discriminate H].
    + split; [now split | reflexivity].
Qed.

(** The vector up to the input path is the same with and without the
    profile for 10 bits. *)
Lemma profile_head params :
  exists rest,
    with_profile params =
    (["ffmpeg"; "-y"; "-progress"; "pipe:1"; "-stats_period"; "3"; "-i";
      ffmpeg.InputPath params] ++ rest)%list.
Proof.
  unfold with_profile, ffmpeg_base. destruct (ffmpeg.Is10Bit params).
  - cbn [app ffmpeg.replace_profile].
    cbn [String.eqb Ascii.eqb Bool.eqb andb].
    rewrite andb_false_r. eexists. reflexivity.
  - eexists. reflexivity.
Qed.

(** How the vector starts. *)
Lemma ffmpeg_prefix :
  forall (probe : string -> option time.Duration) (params : ffmpeg.EncodeParams)
         (args : list string) (total : time.Duration),
    ffmpeg.Encode_args probe params = Some (args, total) ->
    exists rest,
      args =
      (["ffmpeg"; "-y"; "-progress"; "pipe:1"; "-stats_period"; "3"] ++
       (if 0 <? ffmpeg.FromTime params
        then ["-ss"; seconds (ffmpeg.FromTime params)] else []) ++
       (if 0 <? ffmpeg.Duration params
        then ["-t"; seconds (ffmpeg.Duration params)] else []) ++
       "-i" :: rest)%list /\
      (ffmpeg.InputPath params <> "-i" ->
       exists rest', rest = ffmpeg.InputPath params :: rest').
Proof.
  intros probe params args total H.
  destruct (ffmpeg_args_exact _ _ _ _ H) as (-> & _ & _).
  destruct (profile_head params) as (r1 & E1).
  unfold with_length, with_seek. rewrite E1. clear E1.
  set (ip := ffmpeg.InputPath params).
  set (s := seconds (ffmpeg.FromTime params)).
  set (d := seconds (ffmpeg.Duration params)).
  pose proof (seconds_not_i (ffmpeg.FromTime params)) as Hs. fold s in Hs.
  destruct (0 <? ffmpeg.FromTime params), (0 <? ffmpeg.Duration params);
    cbn [app ffmpeg.insert_before_i String.eqb Ascii.eqb Bool.eqb];
    rewrite ?Hs; cbn [app ffmpeg.insert_before_i String.eqb Ascii.eqb Bool.eqb];
    eexists; (split; [reflexivity|]); intros Hip;
    apply String.eqb_neq in Hip;
    repeat (rewrite Hip; cbn [app ffmpeg.insert_before_i]);
    eexists; reflexivity.
Qed.

(** X6.  [Encode] of [ffmpeg] puts the seek arguments right in front of
    the input: the vector starts with the six fixed arguments, then [-ss]
    and the whole seconds of [FromTime] when that is positive, then [-t]
    and the whole seconds of [Duration] when that is positive, then [-i];
    the input path follows (when it is not itself [-i]). *)
Theorem ffmpeg_seek_before_input :
  forall (probe : string -> option time.Duration) (params : ffmpeg.EncodeParams)
         (args : list string) (total : time.Duration),
    ffmpeg.Encode_args probe params = Some (args, total) ->
    exists rest,
      args =
      (["ffmpeg"; "-y"; "-progress"; "pipe:1"; "-stats_period"; "3"] ++
       (if 0 <? ffmpeg.FromTime params
        then ["-ss"; seconds (ffmpeg.FromTime params)] else []) ++
       (if 0 <? ffmpeg.Duration params
        then ["-t"; seconds (ffmpeg.Duration params)] else []) ++
       "-i" :: rest)%list /\
      (ffmpeg.InputPath params <> "-i" ->
       exists rest', rest = ffmpeg.InputPath params :: rest').
Proof. exact ffmpeg_prefix. Qed.

Lemma ffmpeg_seek_before_input_witness :
  exists rest,
    fst (match ffmpeg.Encode_args (fun _ => None)
                 {| ffmpeg.InputPath := "in.mkv"; ffmpeg.OutputPath := "out.mkv";
                    ffmpeg.Quality := of_int 35; ffmpeg.Is10Bit := true;
                    ffmpeg.FromTime := 90 * time.Second;
                    ffmpeg.Duration := 30 * time.Second;
                    ffmpeg.Width := 0; ffmpeg.Height := 0;
                    ffmpeg.ExtraArgs := [] |} with
         | Some r => r
         | None => ([], 0)
         end) =
    (["ffmpeg"; "-y"; "-progress"; "pipe:1"; "-stats_period"; "3"] ++
     ["-ss"; "90"] ++ ["-t"; "30"] ++ "-i" :: rest)%list.
Proof.
  destruct (ffmpeg_seek_before_input (fun _ => None)
              {| ffmpeg.InputPath := "in.mkv"; ffmpeg.OutputPath := "out.mkv";
                 ffmpeg.Quality := of_int 35; ffmpeg.Is10Bit := true;
                 ffmpeg.FromTime := 90 * time.Second;
                 ffmpeg.Duration := 30 * time.Second;
                 ffmpeg.Width := 0; ffmpeg.Height := 0;
                 ffmpeg.ExtraArgs := [] |} _ _ eq_refl) as (rest & E & _).
  exists rest. exact E.
Defined.

(** The profile of the base vector and of the vector for 10 bits. *)
Lemma profile_adjacent params :
  adjacent "-profile:v" (if ffmpeg.Is10Bit params then "main10" else "main")
           (with_profile params).
Proof.
  unfold with_profile, ffmpeg_base. destruct (ffmpeg.Is10Bit params).
  - cbn [app ffmpeg.replace_profile].
    repeat (cbn [String.eqb Ascii.eqb Bool.eqb andb]; rewrite ?andb_false_r).
    match goal with
    | |- adjacent _ _ ?l => exists (firstn 12 l), (skipn 14 l)
    end. reflexivity.
  - cbn [app].
    match goal with
    | |- adjacent _ _ ?l => exists (firstn 12 l), (skipn 14 l)
    end. reflexivity.
Qed.

(** X7.  The profile that [Encode] of [ffmpeg] asks for follows the bit
    depth: the vector holds [-profile:v main10] when [Is10Bit] is set and
    [-profile:v main] when it is not, wherever the seek arguments and the
    extra arguments go. *)
Theorem ffmpeg_profile_follows_bit_depth :
  forall (probe : string -> option time.Duration) (params : ffmpeg.EncodeParams)
         (args : list string) (total : time.Duration),
    ffmpeg.Encode_args probe params = Some (args, total) ->
    adjacent "-profile:v" (if ffmpeg.Is10Bit params then "main10" else "main") args.
Proof.
  intros probe params args total H.
  destruct (ffmpeg_args_exact _ _ _ _ H) as (-> & _ & _).
  apply adjacent_app. unfold with_length, with_seek.
  pose proof (profile_adjacent params) as Hp.
  assert (Hb : (if ffmpeg.Is10Bit params then "main10" else "main") <> "-i")
    by (destruct (ffmpeg.Is10Bit params); discriminate).
  destruct (0 <? ffmpeg.Duration params), (0 <? ffmpeg.FromTime params);
    repeat apply insert_adjacent; (assumption || discriminate).
Qed.

Lemma ffmpeg_profile_follows_bit_depth_witness :
  adjacent "-profile:v" "main10"
    (fst (match ffmpeg.Encode_args (fun _ => Some (60 * time.Second))
                  {| ffmpeg.InputPath := "main"; ffmpeg.OutputPath := "main";
                     ffmpeg.Quality := of_int 35; ffmpeg.Is10Bit := true;
                     ffmpeg.FromTime := 5 * time.Second; ffmpeg.Duration := 0;
                     ffmpeg.Width := 1280; ffmpeg.Height := 0;
                     ffmpeg.ExtraArgs := ["-an"] |} with
          | Some r => r
          | None => ([], 0)
          end)).
Proof.
  exact (ffmpeg_profile_follows_bit_depth (fun _ => Some (60 * time.Second))
           {| ffmpeg.InputPath := "main"; ffmpeg.OutputPath := "main";
              ffmpeg.Quality := of_int 35; ffmpeg.Is10Bit := true;
              ffmpeg.FromTime := 5 * time.Second; ffmpeg.Duration := 0;
              ffmpeg.Width := 1280; ffmpeg.Height := 0;
              ffmpeg.ExtraArgs := ["-an"] |} _ _ eq_refl).
Defined.

(** *** The output path *)

Lemma insert_snoc flag value (l : list string) (o : string) :
  exists l', ffmpeg.insert_before_i flag value (l ++ [o])%list = (l' ++ [o])%list.
Proof.
  induction l as [|x l (l' & IH)]; simpl.
  - destruct (String.eqb o "-i"); [now exists [flag; value] | now exists []].
  - rewrite IH. destruct (String.eqb x "-i").
    + now exists (flag :: value :: x :: l').
    + now exists (x :: l').
Qed.

Lemma replace_snoc (l : list string) (x o : string) :
  x <> "-profile:v" ->
  forall prev,
    exists l', ffmpeg.replace_profile prev (l ++ [x; o])%list = (l' ++ [o])%list.
Proof.
  intros Hx. apply String.eqb_neq in Hx.
  induction l as [|y l IH]; intros prev; simpl.
  - destruct (_ && _)%bool; [now exists ["main10"]|].
    rewrite Hx, andb_false_r. now exists [x].
  - destruct (_ && _)%bool; [now exists ("main10" :: l ++ [x])%list;
                              simpl; rewrite <- app_assoc|].
    destruct (IH (Some y)) as (l' & ->). now exists (y :: l').
Qed.

(** The base vector ends with an argument that is no [-profile:v] and the
    output path. *)
Lemma base_ends params :
  exists l x,
    ffmpeg_base params (ffmpeg_scale params) = (l ++ [x; ffmpeg.OutputPath params])%list /\
    x <> "-profile:v".
Proof.
  unfold ffmpeg_base, ffmpeg_scale.
  destruct (_ || _)%bool.
  - match goal with
    | |- exists l x, (?pre ++ [?a; ?f] ++ [?o])%list = _ /\ _ =>
        exists (pre ++ [a])%list, f
    end.
    split; [now rewrite <- !app_assoc|].
    destruct (_ && _)%bool; [discriminate|].
    destruct (0 <? ffmpeg.Width params); discriminate.
  - match goal with
    | |- exists l x, (?pre ++ [] ++ [?o])%list = _ /\ _ =>
        exists (removelast pre), (last pre "")
    end.
    split; [reflexivity | discriminate].
Qed.

(** X8.  The output path is the last argument that [Encode] of [ffmpeg]
    builds: the vector ends with [OutputPath] and, after it, the extra
    arguments as they were given. *)
Theorem ffmpeg_output_path_last :
  forall (probe : string -> option time.Duration) (params : ffmpeg.EncodeParams)
         (args : list string) (total : time.Duration),
    ffmpeg.Encode_args probe params = Some (args, total) ->
    exists pre, args = (pre ++ ffmpeg.OutputPath params :: ffmpeg.ExtraArgs params)%list.
Proof.
  intros probe params args total H.
  destruct (ffmpeg_args_exact _ _ _ _ H) as (-> & _ & _).
  destruct (base_ends params) as (l & x & Eb & Hx).
  assert (H1 : exists l1, with_profile params = (l1 ++ [ffmpeg.OutputPath params])%list).
  { unfold with_profile. rewrite Eb. destruct (ffmpeg.Is10Bit params).
    - now apply replace_snoc.
    - exists (l ++ [x])%list. now rewrite <- app_assoc. }
  destruct H1 as (l1 & E1).
  assert (H2 : exists l2, with_seek params = (l2 ++ [ffmpeg.OutputPath params])%list).
  { unfold with_seek. rewrite E1. destruct (0 <? ffmpeg.FromTime params).
    - apply insert_snoc.
    - now exists l1. }
  destruct H2 as (l2 & E2).
  assert (H3 : exists l3, with_length params = (l3 ++ [ffmpeg.OutputPath params])%list).
  { unfold with_length. rewrite E2. destruct (0 <? ffmpeg.Duration params).
    - apply insert_snoc.
    - now exists l2. }
  destruct H3 as (l3 & ->). exists l3. now rewrite <- app_assoc.
Qed.

Lemma ffmpeg_output_path_last_witness :
  exists pre,
    fst (match ffmpeg.Encode_args (fun _ => Some (60 * time.Second))
                 {| ffmpeg.InputPath := "in.mkv"; ffmpeg.OutputPath := "-i";
                    ffmpeg.Quality := of_int 35; ffmpeg.Is10Bit := true;
                    ffmpeg.FromTime := 5 * time.Second; ffmpeg.Duration := 0;
                    ffmpeg.Width := 1280; ffmpeg.Height := 0;
                    ffmpeg.ExtraArgs := ["-an"] |} with
         | Some r => r
         | None => ([], 0)
         end) = (pre ++ "-i" :: ["-an"])%list.
Proof.
  exact (ffmpeg_output_path_last (fun _ => Some (60 * time.Second))
           {| ffmpeg.InputPath := "in.mkv"; ffmpeg.OutputPath := "-i";
              ffmpeg.Quality := of_int 35; ffmpeg.Is10Bit := true;
              ffmpeg.FromTime := 5 * time.Second; ffmpeg.Duration := 0;
              ffmpeg.Width := 1280; ffmpeg.Height := 0;
              ffmpeg.ExtraArgs := ["-an"] |} _ _ eq_refl).
Defined.

End ArgsOrder.
(** ** The iterators and their consumers *)

Module SeqFacts.
Import Str StrFacts handbrake LinesFacts.

(** A [for v := range] loop over the values [vs]: the body [yield] runs
    on one value after the other until it answers [false] (a [break] or a
    [return] in the body). *)
Fixpoint feed {V S : Type} (yield : V -> S -> S * bool) (vs : list V) (st : S) : S :=
  match vs with
  | [] => st
  | v :: vs' =>
      let (st', continue) := yield v st in
      if continue then feed yield vs' st' else st'
  end.

Lemma feed_record {V : Type} (vs acc : list V) :
  feed (fun v acc => (v :: acc, true)) vs acc = (rev vs ++ acc)%list.
Proof.
  revert acc. induction vs as [|v vs IH]; intros acc; simpl; [reflexivity|].
  now rewrite IH, <- app_assoc.
Qed.

Lemma feed_app_true {V S : Type} (yield : V -> S -> S * bool) (vs ws : list V) (st : S) :
  (forall v s, snd (yield v s) = true) ->
  feed yield (vs ++ ws) st = feed yield ws (feed yield vs st).
Proof.
  intros Hy. revert st. induction vs as [|v vs IH]; intros st; simpl; [reflexivity|].
  specialize (Hy v st). destruct (yield v st) as [st' c]. simpl in Hy. subst c.
  apply IH.
Qed.

Section Lines.
Context {S : Type}.
Variable yield : string -> S -> S * bool.

(** [iterLines] over a stream that ends with [io.EOF]. *)
Lemma iterLines_loop_feed rs : forall cur st,
  iterLines_loop yield rs true cur st =
  feed yield (filter nonempty (glue cur (Spec.split_on is_line_end (bytes_of rs)))) st.
Proof.
  induction rs as [|[char|] rs IH]; intros cur st; simpl.
  - rewrite append_nil_r. destruct (nonempty cur); simpl; [|reflexivity].
    destruct (yield cur st) as [st' c]. now destruct c.
  - destruct (is_line_end char) eqn:Hend.
    + simpl. rewrite append_nil_r.
      destruct (split_on_cons is_line_end (bytes_of rs)) as (seg & segs & Hsplit).
      destruct (nonempty cur) eqn:Hcur; simpl.
      * destruct (yield cur st) as [st' c]. destruct c; [|reflexivity].
        rewrite IH, Hsplit. reflexivity.
      * rewrite IH, Hsplit. destruct cur; [reflexivity | discriminate].
    + rewrite IH.
      destruct (split_on_cons is_line_end (bytes_of rs)) as (seg & segs & ->).
      simpl. now rewrite append_assoc.
  - apply IH.
Qed.

(** [iterLines] over a stream that ends with another error. *)
Lemma iterLines_loop_error rs : forall cur st,
  iterLines_loop yield rs false cur st =
  feed yield
       (filter nonempty
               (removelast (glue cur (Spec.split_on is_line_end (bytes_of rs))))) st.
Proof.
  induction rs as [|[char|] rs IH]; intros cur st; simpl.
  - reflexivity.
  - destruct (is_line_end char) eqn:Hend.
    + destruct (split_on_cons is_line_end (bytes_of rs)) as (seg & segs & Hsplit).
      rewrite Hsplit. cbn [glue]. rewrite append_nil_r.
      change (removelast (cur :: seg :: segs)) with (cur :: removelast (seg :: segs)).
      cbn [filter].
      destruct (nonempty cur) eqn:Hcur.
      * cbn [feed].
        destruct (yield cur st) as [st' c]. destruct c; [|reflexivity].
        rewrite IH, Hsplit. reflexivity.
      * rewrite IH, Hsplit.
        destruct cur; [reflexivity | discriminate].
    + rewrite IH.
      destruct (split_on_cons is_line_end (bytes_of rs)) as (seg & segs & ->).
      simpl glue. now rewrite append_assoc.
  - apply IH.
Qed.

End Lines.

Lemma tokens_eq bs :
  Spec.tokens bs = filter nonempty (glue "" (Spec.split_on is_line_end bs)).
Proof.
  unfold Spec.tokens.
  change (fun c : ascii => (Ascii.eqb c CR || Ascii.eqb c LF)%bool) with is_line_end.
  destruct (split_on_cons is_line_end bs) as (seg & segs & ->). reflexivity.
Qed.

(** The lines that a terminator closes: the segments of the stream but
    the last one, which is what follows the last terminator. *)
Definition closed_lines (bs : list ascii) : list string :=
  filter nonempty (removelast (Spec.split_on is_line_end bs)).

(** X9.  [iterLines] serves any loop body, not only one that takes every
    line: over a stream that ends with [io.EOF] the body runs on the
    non-empty segments between carriage returns and line feeds, in order,
    and on none after the one at which it answers [false]. *)
Theorem iterLines_stops_when_told :
  forall (S : Type) (yield : string -> S -> S * bool) (st : S)
         (rs : list (option ascii)) (last : option ascii),
    iterLines {| reads := rs; last_byte := last; last_eof := true |} S yield st =
    feed yield (Spec.tokens (bytes_of rs)) st.
Proof.
  intros S yield st rs last. unfold iterLines. simpl.
  now rewrite iterLines_loop_feed, tokens_eq.
Qed.

(** X10.  When the reader fails with an error that is not [io.EOF],
    [iterLines] yields the lines that a terminator has closed and drops
    the text read after the last terminator, as well as any byte that comes
    with the error. *)
Theorem iterLines_drops_open_line_on_error :
  forall (S : Type) (yield : string -> S -> S * bool) (st : S)
         (rs : list (option ascii)) (last : option ascii),
    iterLines {| reads := rs; last_byte := last; last_eof := false |} S yield st =
    feed yield (closed_lines (bytes_of rs)) st /\
    collect (iterLines {| reads := rs; last_byte := last; last_eof := false |}) =
    closed_lines (bytes_of rs).
Proof.
  intros S yield st rs last.
  assert (H : forall (A : Type) (y : string -> A -> A * bool) (a : A),
             iterLines {| reads := rs; last_byte := last; last_eof := false |} A y a =
             feed y (closed_lines (bytes_of rs)) a).
  { intros A y a. unfold iterLines, closed_lines. simpl.
    rewrite iterLines_loop_error.
    destruct (split_on_cons is_line_end (bytes_of rs)) as (seg & segs & ->).
    reflexivity. }
  split; [apply H|].
  unfold collect. rewrite H, feed_record, app_nil_r. apply rev_involutive.
Qed.

End SeqFacts.

(** ** The snapshots of [iterProgress], whoever reads them *)

Module SnapshotFacts.
Import F64 ffmpeg SeqFacts.

Section Loop.
Variable now : nat -> Z.
Variable indefinite : float64 -> Z.
Variable total : time.Duration.

(** The snapshots that the loop yields from line [i] on, the state being
    [st], when nothing stops it. *)
Fixpoint snapshots (lines : list string) (i : nat) (st : progress_state)
  : list EncodeProgress :=
  match lines with
  | [] => []
  | text :: rest =>
      let line := strings.TrimSpace text in
      let '(st', snapshot) := out_time now indefinite total i line (track now i line st) in
      match snapshot with
      | Some p => p :: snapshots rest (S i) st'
      | None => snapshots rest (S i) st'
      end
  end.

Lemma loop_feed {A : Type} (yield : EncodeProgress -> A -> A * bool) lines :
  forall i st s,
    iterProgress_loop now indefinite yield total lines i st s =
    feed yield (snapshots lines i st) s.
Proof.
  induction lines as [|text rest IH]; intros i st s; simpl; [reflexivity|].
  destruct (out_time _ _ _ _ _ _) as [st' [p|]]; simpl; [|apply IH].
  destruct (yield p s) as [s' c]. destruct c; [apply IH | reflexivity].
Qed.

Lemma collect_snapshots stream :
  collect (iterProgress now indefinite stream total) =
  snapshots (bufio.Scanner_lines stream) 0 initial_state.
Proof.
  unfold collect, iterProgress.
  rewrite loop_feed, feed_record, app_nil_r. apply rev_involutive.
Qed.

(** *** The ETA *)

Definition whole_seconds (d : time.Duration) : bool := d mod time.Second =? 0.

Lemma Truncate_whole d : whole_seconds (time.Truncate d time.Second) = true.
Proof.
  unfold whole_seconds, time.Truncate. change (time.Second <=? 0) with false.
  cbv iota. apply Z.eqb_eq.
  rewrite (Z.quot_rem' d time.Second) at 1.
  replace (time.Second * (d ÷ time.Second) + Z.rem d time.Second
           - Z.rem d time.Second)
    with ((d ÷ time.Second) * time.Second) by ring.
  apply Z.mod_mul. discriminate.
Qed.

Lemma track_ETA i line st :
  ETA (currentProgress (track now i line st)) = ETA (currentProgress st).
Proof.
  unfold track.
  destruct (strings.HasPrefix line "progress=continue" && negb (progressStarted st))%bool;
    destruct (strings.HasPrefix line "fps=");
    try destruct (strconv.ParseFloat (strings.TrimPrefix line "fps="));
    destruct (strings.HasPrefix line "total_size=");
    try destruct (strconv.ParseInt (strings.TrimPrefix line "total_size="));
    reflexivity.
Qed.

Lemma out_time_ETA i line st :
  whole_seconds (ETA (currentProgress st)) = true ->
  whole_seconds (ETA (currentProgress (fst (out_time now indefinite total i line st))))
  = true /\
  forall p, snd (out_time now indefinite total i line st) = Some p ->
            whole_seconds (ETA p) = true.
Proof.
  intros H. unfold out_time.
  destruct (strings.HasPrefix line "out_time_ms="); [|split; [assumption | discriminate]].
  destruct (strconv.ParseInt _) as [ms|]; [|split; [assumption | discriminate]].
  destruct (0 <? total); [|split; [assumption | discriminate]].
  cbn [fst snd with_progress currentProgress ETA].
  assert (He : whole_seconds
                 (if (progressStarted st && ltb zero (percent_of ms total)
                      && ltb (percent_of ms total) hundred)%bool
                  then time.Truncate
                         (time.wrap_int64
                            (to_int64 indefinite
                               (div (mul (of_int (Sub (now i) (startTime st))) hundred)
                                    (percent_of ms total))
                             - Sub (now i) (startTime st))) time.Second
                  else ETA (currentProgress st)) = true).
  { destruct (_ && _ && _)%bool; [apply Truncate_whole | assumption]. }
  split; [exact He|]. intros p [= <-]. exact He.
Qed.

Lemma snapshots_ETA lines : forall i st,
  whole_seconds (ETA (currentProgress st)) = true ->
  forallb (fun p => whole_seconds (ETA p)) (snapshots lines i st) = true.
Proof.
  induction lines as [|text rest IH]; intros i st H; simpl; [reflexivity|].
  set (line := strings.TrimSpace text).
  rewrite <- (track_ETA i line st) in H.
  destruct (out_time_ETA i line (track now i line st) H) as [H1 H2].
  destruct (out_time _ _ _ _ _ _) as [st' [p|]]; simpl in *.
  - rewrite (H2 p eq_refl). now apply IH.
  - now apply IH.
Qed.

End Loop.


(** X12.  The ETA of every snapshot of [iterProgress] is a whole number of
    seconds: it is zero until the first estimate and every estimate is
    truncated to the second, whatever the clock says. *)
Theorem iterProgress_ETA_in_whole_seconds :
  forall (now : nat -> Z) (indefinite : float64 -> Z)
         (stream : list ascii) (total : time.Duration),
    forallb (fun p => ETA p mod time.Second =? 0)
            (collect (iterProgress now indefinite stream total)) = true.
Proof.
  intros now indefinite stream total. rewrite collect_snapshots.
  now apply snapshots_ETA.
Qed.

End SnapshotFacts.
(** ** The progress loop of HandBrake's [Encode] *)

Module HandbrakeRunFacts.
Import F64 handbrake SeqFacts.

(** The loop body of [Encode]. *)
Definition on_line (stat : nat -> string -> option Z) (outputPath : string)
           (line : string) (st : nat * list EncodeProgress)
  : (nat * list EncodeProgress) * bool :=
  let '(i, acc) := st in
  match parseProgress (stat i) line outputPath with
  | (progress, true) => ((S i, progress :: acc), true)
  | (_, false) => ((S i, acc), true)
  end.

(** The snapshots of the lines that [parseProgress] accepts, line [i]
    being parsed while [os.Stat] answers [stat i]. *)
Fixpoint matched (stat : nat -> string -> option Z) (outputPath : string)
         (i : nat) (lines : list string) : list EncodeProgress :=
  match lines with
  | [] => []
  | line :: rest =>
      match parseProgress (stat i) line outputPath with
      | (progress, true) => progress :: matched stat outputPath (S i) rest
      | (_, false) => matched stat outputPath (S i) rest
      end
  end.

Lemma feed_on_line stat out lines : forall i acc,
  snd (feed (on_line stat out) lines (i, acc)) =
  (rev (matched stat out i lines) ++ acc)%list.
Proof.
  induction lines as [|line rest IH]; intros i acc; simpl; [reflexivity|].
  destruct (parseProgress (stat i) line out) as [p [|]]; rewrite IH; simpl.
  - now rewrite <- app_assoc.
  - reflexivity.
Qed.

(** What a line says, whatever the size of the output file. *)
Definition said (p : EncodeProgress) : float64 * float64 * time.Duration :=
  (Percent p, FPSAvg p, ETA p).

Lemma parseProgress_stat (stat stat' : string -> option Z) (line out : string) :
  snd (parseProgress stat line out) = snd (parseProgress stat' line out) /\
  said (fst (parseProgress stat line out)) = said (fst (parseProgress stat' line out)).
Proof.
  destruct (regexp.FindStringSubmatch 3 progressRe line) as [matches|] eqn:E.
  - rewrite (ParseFacts.parseProgress_matched stat line out matches E).
    rewrite (ParseFacts.parseProgress_matched stat' line out matches E).
    split; reflexivity.
  - unfold parseProgress. rewrite E. split; reflexivity.
Qed.

Lemma matched_said stat out lines : forall i,
  map said (matched stat out i lines) =
  map (fun line => said (fst (parseProgress (fun _ => None) line out)))
      (filter (fun line => snd (parseProgress (fun _ => None) line out)) lines).
Proof.
  induction lines as [|line rest IH]; intros i; simpl; [reflexivity|].
  destruct (parseProgress_stat (stat i) (fun _ => None) line out) as [Hs Hp].
  destruct (parseProgress (stat i) line out) as [p b].
  destruct (parseProgress (fun _ => None) line out) as [p' b'] eqn:E'.
  cbn [fst snd] in Hs, Hp. subst b'.
  destruct b; cbn [map filter fst snd]; [|apply IH].
  rewrite E'. cbn [fst]. f_equal; [exact Hp | apply IH].
Qed.

End HandbrakeRunFacts.
(** ** Package [main] *)

Module MainFacts.
Import F64 main.

Lemma length_take (n : nat) (s : string) :
  String.length (strings.take n s) = Nat.min n (String.length s).
Proof.
  revert n. induction s as [|c s IH]; intros [|n]; simpl; try reflexivity.
  now rewrite IH.
Qed.

Lemma length_TrimSuffix (s suffix : string) :
  (String.length s - String.length suffix <= String.length (strings.TrimSuffix s suffix))%nat.
Proof.
  unfold strings.TrimSuffix. destruct (String.prefix _ _); [|lia].
  rewrite length_take. lia.
Qed.

(** X16.  [run] never writes over its input: the output path it settles
    on differs from the input path, whatever [filepath.Join] has made of
    the output directory and the generated name; it is the joined path
    unless that is the input path. *)
Theorem run_never_overwrites_the_input :
  forall videoPath joined : string,
    savePath videoPath joined <> videoPath /\
    (joined <> videoPath -> savePath videoPath joined = joined).
Proof.
  intros v j. unfold savePath.
  destruct (String.eqb_spec v j) as [<-|Hne].
  - split; [|congruence].
    intros E. apply (f_equal String.length) in E.
    rewrite !StrFacts.length_append in E.
    pose proof (length_TrimSuffix v (filepath.Ext v)) as H.
    simpl String.length in E. lia.
  - split; [congruence | reflexivity].
Qed.

Lemma run_never_overwrites_the_input_witness :
  savePath "/v/clip.mkv" "/v/clip.mkv" = "/v/clip.reencoded.mkv" /\
  savePath "/v/clip.mkv" "/out/clip [x265].mkv" = "/out/clip [x265].mkv".
Proof.
  split; [reflexivity|].
  apply (proj2 (run_never_overwrites_the_input "/v/clip.mkv" "/out/clip [x265].mkv")).
  discriminate.
Defined.

Lemma wrap_int64_small (n : Z) :
  min_int64 <= n <= max_int64 -> time.wrap_int64 n = n.
Proof.
  unfold time.wrap_int64, min_int64, max_int64. intros H.
  rewrite Z.mod_small by lia. lia.
Qed.

(** What [Validate] accepts. *)
Definition acceptable (c : cliArgs) : Prop :=
  VideoPath c <> "" /\
  ~ (0 < Duration c /\ 0 < ToTime c) /\
  (0 < ToTime c -> FromTime c < ToTime c).

Lemma Validate_accepts (c : cliArgs) :
  Validate c = None <-> Version c = true \/ acceptable c.
Proof.
  unfold Validate, acceptable. destruct (Version c); [intuition auto|].
  destruct (String.eqb_spec (VideoPath c) "") as [E|E].
  - split; [discriminate|]. intros [H|(H & _)]; [discriminate H | contradiction].
  - destruct (Z.ltb_spec 0 (Duration c)) as [Hd|Hd];
      destruct (Z.ltb_spec 0 (ToTime c)) as [Ht|Ht];
      destruct (Z.leb_spec (ToTime c) (FromTime c)) as [Hf|Hf]; simpl;
      split; try discriminate; try reflexivity;
      try (intros [H|(_ & H1 & H2)]; [discriminate H | exfalso; lia]);
      intros _; right; repeat split; try assumption; lia.
Qed.

(** X14.  [Validate] accepts the arguments of a run exactly when there is
    a video path, [--duration] and [--to] are not both positive, and a
    positive [--to] lies after [--from]; with [--version] it accepts
    anything.  After it, the duration that [run] works out for a positive
    [--to] and a [--from] that is not negative is [to - from], positive
    and at most [to]; without [--to] it is [--duration]. *)
Theorem validated_times_give_the_duration :
  forall c : cliArgs,
    (Validate c = None <-> Version c = true \/ acceptable c) /\
    (Validate c = None -> Version c = false ->
     (0 < ToTime c -> 0 <= FromTime c -> ToTime c <= max_int64 ->
      encodeDuration c = ToTime c - FromTime c /\
      0 < encodeDuration c <= ToTime c /\ Duration c <= 0) /\
     (ToTime c <= 0 -> encodeDuration c = Duration c)).
Proof.
  intros c. split; [apply Validate_accepts|].
  intros Hv Hver. apply Validate_accepts in Hv as [Hv|(Hp & Hboth & Hto)];
    [congruence|].
  unfold encodeDuration. split.
  - intros Ht Hf Hmax. specialize (Hto Ht).
    replace (0 <? ToTime c) with true by (symmetry; apply Z.ltb_lt; lia).
    rewrite wrap_int64_small by (unfold min_int64, max_int64 in *; lia).
    repeat split; lia.
  - intros Ht. now replace (0 <? ToTime c) with false by (symmetry; apply Z.ltb_ge; lia).
Qed.

Lemma validated_times_give_the_duration_witness :
  let c := {| VideoPath := "in.mkv"; OutputDir := ""; Encoder := "ffmpeg";
              Quality := of_int 35; Denoise := false; Is10Bit := true;
              FromTime := 90 * time.Second; ToTime := 120 * time.Second;
              Duration := 0; Width := 0; Height := 0; Debug := false;
              ExtraArgs := []; Version := false |} in
  encodeDuration c = 30 * time.Second.
Proof.
  intros c.
  destruct (proj2 (validated_times_give_the_duration c) eq_refl eq_refl) as [H _].
  destruct H as [H _]; [reflexivity | discriminate | discriminate |].
  exact H.
Defined.

Lemma insert_has_flag flag value (l : list string) :
  In "-i" l -> In flag (ffmpeg.insert_before_i flag value l).
Proof.
  induction l as [|x l IH]; simpl; [tauto|].
  destruct (String.eqb_spec x "-i") as [->|Hx]; simpl; [tauto|].
  intros [E|H]; [congruence | right; now apply IH].
Qed.

Lemma insert_keeps flag value (x : string) (l : list string) :
  In x l -> In x (ffmpeg.insert_before_i flag value l).
Proof.
  induction l as [|y l IH]; simpl; [tauto|].
  destruct (String.eqb y "-i"); simpl; intuition auto.
Qed.

(** X15.  With a [--to] that [Validate] has accepted (and a [--from] that
    is not negative) both backends are told where to stop: [ffmpeg] gets
    [-t] and takes [to - from] for the total duration of its progress
    without probing the input, and [handbrake] gets [--stop-at]. *)
Theorem to_flag_reaches_the_encoder :
  forall (c : cliArgs) (save : string),
    Validate c = None -> Version c = false ->
    0 < ToTime c -> 0 <= FromTime c -> ToTime c <= max_int64 ->
    match encode_params c save with
    | inl params =>
        forall probe, exists args,
          ffmpeg.Encode_args probe params = Some (args, ToTime c - FromTime c) /\
          In "-t" args
    | inr params => In "--stop-at" (handbrake.Encode_args params)
    end.
Proof.
  intros c save Hv Hver Ht Hf Hmax.
  assert (Hd : encodeDuration c = ToTime c - FromTime c /\ 0 < encodeDuration c).
  { apply Validate_accepts in Hv as [Hv|(Hp & Hboth & Hto)]; [congruence|].
    specialize (Hto Ht). unfold encodeDuration.
    replace (0 <? ToTime c) with true by (symmetry; apply Z.ltb_lt; lia).
    rewrite wrap_int64_small by (unfold min_int64, max_int64 in *; lia). lia. }
  destruct Hd as [Ed Hpos]. apply Z.ltb_lt in Hpos.
  unfold encode_params. destruct (String.eqb (Encoder c) "ffmpeg").
  - intros probe.
    destruct (ffmpeg.Encode_args probe _) as [[args total]|] eqn:E.
    + destruct (ArgsOrder.ffmpeg_args_exact _ _ _ _ E) as (Ea & Et & _).
      cbn [ffmpeg.Duration] in Et. rewrite Et, Ed by (apply Z.ltb_lt; exact Hpos).
      exists args. split; [reflexivity|].
      subst args. apply in_or_app. left.
      unfold ArgsOrder.with_length. cbn [ffmpeg.Duration]. rewrite Hpos.
      destruct (ArgsOrder.profile_head
                  {| ffmpeg.InputPath := VideoPath c; ffmpeg.OutputPath := save;
                     ffmpeg.Quality := Quality c; ffmpeg.Is10Bit := Is10Bit c;
                     ffmpeg.FromTime := FromTime c;
                     ffmpeg.Duration := encodeDuration c;
                     ffmpeg.Width := Width c; ffmpeg.Height := Height c;
                     ffmpeg.ExtraArgs := ExtraArgs c |}) as (r & Er).
      apply insert_has_flag.
      unfold ArgsOrder.with_seek. rewrite Er.
      destruct (0 <? ffmpeg.FromTime _); [apply insert_keeps|]; cbn [app In]; tauto.
    + apply ArgsOrder.ffmpeg_args_none in E as [E _].
      cbn [ffmpeg.Duration] in E. apply Z.ltb_lt in Hpos. lia.
  - rewrite ArgsFacts.handbrake_args_shape. apply in_or_app. left.
    unfold ArgsFacts.fixed_args, handbrake.Encode_args.
    cbn [ArgsFacts.unscaled handbrake.InputPath handbrake.OutputPath handbrake.Quality
         handbrake.Is10Bit handbrake.FromTime handbrake.Duration handbrake.Denoise
         handbrake.Width handbrake.Height handbrake.ExtraArgs].
    rewrite Hpos. cbv zeta. change (0 <? 0) with false. cbn [orb].
    rewrite app_nil_r.
    destruct (Denoise c); destruct (0 <? FromTime c);
      repeat rewrite in_app_iff; cbn [In]; intuition auto.
Qed.

Lemma to_flag_reaches_the_encoder_witness :
  In "--stop-at"
     (handbrake.Encode_args
        {| handbrake.InputPath := "in.mkv"; handbrake.OutputPath := "out.mkv";
           handbrake.Quality := of_int 35; handbrake.Is10Bit := true;
           handbrake.FromTime := 90 * time.Second;
           handbrake.Duration := 30 * time.Second;
           handbrake.Denoise := false; handbrake.Width := 0; handbrake.Height := 0;
           handbrake.ExtraArgs := [] |}).
Proof.
  exact (to_flag_reaches_the_encoder
           {| VideoPath := "in.mkv"; OutputDir := ""; Encoder := "handbrake";
              Quality := of_int 35; Denoise := false; Is10Bit := true;
              FromTime := 90 * time.Second; ToTime := 120 * time.Second;
              Duration := 0; Width := 0; Height := 0; Debug := false;
              ExtraArgs := []; Version := false |} "out.mkv"
           eq_refl eq_refl eq_refl ltac:(discriminate) ltac:(discriminate)).
Defined.

End MainFacts.
(** ** [Probe] and its helpers *)

Module ProbeFacts.
Import F64 strconv probe.
Import UnitFacts OpFacts UnitOrder UnitOrder2 ConvFacts CanonFacts SignFacts.
Import ParseFloatFacts.

(** *** [strings.Split] *)

Fixpoint count (sep : ascii) (s : string) : nat :=
  match s with
  | EmptyString => 0
  | String c s' => if Ascii.eqb c sep then S (count sep s') else count sep s'
  end.

Lemma length_split_loop sep s : forall cur,
  List.length (strings.split_loop sep s cur) = S (count sep s).
Proof.
  induction s as [|c s IH]; intros cur; simpl; [reflexivity|].
  destruct (Ascii.eqb c sep); simpl; now rewrite IH.
Qed.

Lemma split_loop_plain sep s : forall cur,
  count sep s = 0%nat -> strings.split_loop sep s cur = [cur ++ s].
Proof.
  induction s as [|c s IH]; intros cur H; simpl in *.
  - now rewrite StrFacts.append_nil_r.
  - destruct (Ascii.eqb c sep); [discriminate|].
    rewrite IH by assumption. now rewrite StrFacts.append_assoc.
Qed.

Lemma split_loop_app sep a b : forall cur,
  count sep a = 0%nat ->
  strings.split_loop sep (a ++ String sep b) cur =
  (cur ++ a) :: strings.split_loop sep b "".
Proof.
  induction a as [|c a IH]; intros cur H; simpl in *.
  - now rewrite Ascii.eqb_refl, StrFacts.append_nil_r.
  - destruct (Ascii.eqb c sep); [discriminate|].
    rewrite IH by assumption. now rewrite StrFacts.append_assoc.
Qed.

Lemma Split_two sep a b :
  count sep a = 0%nat -> count sep b = 0%nat ->
  strings.Split (a ++ String sep b) sep = [a; b].
Proof.
  intros Ha Hb. unfold strings.Split.
  rewrite split_loop_app by assumption. now rewrite split_loop_plain.
Qed.

Lemma Split_not_two sep s :
  count sep s <> 1%nat ->
  match strings.Split s sep with [_; _] => False | _ => True end.
Proof.
  intros H. pose proof (length_split_loop sep s "") as L.
  unfold strings.Split.
  destruct (strings.split_loop sep s "") as [|p0 [|p1 [|p2 l]]]; simpl in *; try exact I.
  lia.
Qed.

(** X17.  The defaults of the two ratio parsers: when the text has not
    exactly one separator, [parseFPS] returns 0 and
    [parseSampleAspectRatio] returns 1 (the empty text included). *)
Theorem ratio_parsers_default :
  forall s : string,
    (count "/" s <> 1%nat -> parseFPS s = zero) /\
    (count ":" s <> 1%nat -> parseSampleAspectRatio s = one).
Proof.
  intros s. split; intros H.
  - unfold parseFPS. pose proof (Split_not_two "/" s H) as N.
    destruct (strings.Split s "/") as [|p0 [|p1 [|p2 l]]]; try reflexivity.
    contradiction.
  - unfold parseSampleAspectRatio. destruct (String.eqb s ""); [reflexivity|].
    pose proof (Split_not_two ":" s H) as N.
    destruct (strings.Split s ":") as [|p0 [|p1 [|p2 l]]]; try reflexivity.
    contradiction.
Qed.

Lemma ratio_parsers_default_witness :
  parseFPS "30" = zero /\ parseSampleAspectRatio "16:9:1" = one.
Proof.
  split.
  - apply (proj1 (ratio_parsers_default "30")). discriminate.
  - apply (proj2 (ratio_parsers_default "16:9:1")). discriminate.
Defined.

(** *** Unsigned decimal numbers *)

Definition unsigned (s : string) : bool := Str.forallb regexp.digit_or_dot s.

(** A number that [ParseFloat] reads without an error from digits and
    points is zero or positive, and finite. *)
Definition finite_signed (x : float64) : Prop :=
  signed false x /\ x <> S754_infinity false.

Lemma ParseFloat_unsigned_ok (s : string) (f : float64) :
  unsigned s = true -> ParseFloat s = FloatOk f -> finite_signed f.
Proof.
  intros H Hf. destruct s as [|c r]; [discriminate Hf|].
  unfold unsigned in H. simpl in H. apply andb_prop in H as [Hc _].
  unfold ParseFloat in Hf. rewrite (special_digits c r Hc) in Hf.
  apply digit_or_dot_cases in Hc. simpl in Hc.
  repeat (destruct Hc as [<-|Hc]; [|]); try contradiction;
    cbv beta iota zeta in Hf;
    repeat match type of Hf with
      | context [match scaled_value ?n ?h ?m ?e with _ => _ end] =>
          let E := fresh "E" in
          pose proof (scaled_value_signed n h m e) as E;
          destruct (scaled_value n h m e);
          first [discriminate Hf
                | injection Hf as <-; split; [exact E | discriminate]]
      | FloatSyntax = _ => discriminate Hf
      | context [match ?x with _ => _ end] => destruct x; cbv beta iota zeta in Hf
      end.
Qed.

Lemma ParseFloat_unsigned (s : string) :
  unsigned s = true ->
  match ParseFloat s with
  | FloatOk f => finite_signed f
  | _ => True
  end.
Proof.
  intros H. destruct (ParseFloat s) as [f| |] eqn:E; try exact I.
  now apply (ParseFloat_unsigned_ok s).
Qed.

Lemma unsigned_count (sep : ascii) (s : string) :
  regexp.digit_or_dot sep = false -> unsigned s = true -> count sep s = 0%nat.
Proof.
  intros Hsep. induction s as [|c s IH]; simpl; [reflexivity|].
  intros H. apply andb_prop in H as [Hc Hs].
  destruct (Ascii.eqb_spec c sep) as [->|_]; [congruence | now apply IH].
Qed.

(** The quotient of the two parsers. *)
Lemma quotient_signed (default : float64) (r0 r1 : float_result) :
  signed false default ->
  match r0 with FloatOk f => finite_signed f | _ => True end ->
  match r1 with FloatOk f => finite_signed f | _ => True end ->
  signed false
    match r0, r1 with
    | FloatOk num, FloatOk den => if eqb den zero then default else div num den
    | _, _ => default
    end.
Proof.
  intros Hd H0 H1.
  destruct r0 as [num| |]; try assumption.
  destruct r1 as [den| |]; try assumption.
  destruct H0 as [Hn _], H1 as [Hden Hfin].
  destruct den as [s|s| |s m e]; simpl in Hden.
  - subst s. assumption.
  - subst s. now destruct Hfin.
  - contradiction.
  - destruct Hden as [-> Hv]. change (eqb (S754_finite false m e) zero) with false.
    cbv iota. change false with (xorb false false). now apply div_signed.
Qed.

(** X18.  On a ratio of two unsigned decimal numbers neither parser
    returns a NaN or a negative value: the frame rate and the sample
    aspect ratio are numbers greater than or equal to 0 (a denominator of
    zero gives the default, not a division by zero). *)
Theorem ratio_parsers_never_negative :
  forall a b : string,
    unsigned a = true -> unsigned b = true ->
    leb zero (parseFPS (a ++ String "/" b)) = true /\
    leb zero (parseSampleAspectRatio (a ++ String ":" b)) = true.
Proof.
  intros a b Ha Hb. split; apply leb_zero_signed.
  - unfold parseFPS.
    rewrite Split_two by (apply unsigned_count; [reflexivity | assumption]).
    apply quotient_signed; [exact eq_refl | now apply ParseFloat_unsigned ..].
  - unfold parseSampleAspectRatio.
    destruct (String.eqb _ ""); [split; reflexivity|].
    rewrite Split_two by (apply unsigned_count; [reflexivity | assumption]).
    apply quotient_signed; [split; reflexivity | now apply ParseFloat_unsigned ..].
Qed.

Lemma ratio_parsers_never_negative_witness :
  leb zero (parseFPS "30000/1001") = true /\
  leb zero (parseSampleAspectRatio "4:0") = true.
Proof.
  split.
  - exact (proj1 (ratio_parsers_never_negative "30000" "1001" eq_refl eq_refl)).
  - exact (proj2 (ratio_parsers_never_negative "4" "0" eq_refl eq_refl)).
Defined.

End ProbeFacts.
(** ** What [Probe] reports *)

Module ProbeResultFacts.
Import F64 strconv probe.
Import UnitFacts OpFacts UnitOrder UnitOrder2 ConvFacts SignFacts ProbeFacts.

Definition no_video (s : probeStream) : Prop := CodecType s <> "video".

Lemma videoStream_first pre v post :
  Forall no_video pre -> CodecType v = "video" ->
  videoStream (pre ++ v :: post) = Some v.
Proof.
  intros Hpre Hv. induction Hpre as [|s pre Hs _ IH]; simpl.
  - now rewrite Hv.
  - apply String.eqb_neq in Hs. now rewrite Hs.
Qed.

Lemma videoStream_none l : Forall no_video l -> videoStream l = None.
Proof.
  induction 1 as [|s l Hs _ IH]; simpl; [reflexivity|].
  apply String.eqb_neq in Hs. now rewrite Hs.
Qed.

(** X19.  [Probe] describes the first stream whose [codec_type] is
    [video]: codec, width, height, frame rate and sample aspect ratio are
    taken from it, whatever streams stand before or after it.  Without one
    the error is that no video stream was found, even when the duration is
    unreadable too. *)
Theorem Probe_reports_the_first_video_stream :
  forall (ToLower : string -> string) (indefinite : float64 -> Z)
         (videoPath : string) (result : probeOutput),
    (forall pre v post,
        Streams result = (pre ++ v :: post)%list ->
        Forall no_video pre -> CodecType v = "video" ->
        match Probe ToLower indefinite videoPath result with
        | inl r =>
            Codec r = CodecName v /\ Width r = StreamWidth v /\
            Height r = StreamHeight v /\ FPS r = parseFPS (RFrameRate v) /\
            SampleAR r = parseSampleAspectRatio (SampleAspectRatio v)
        | inr e => e = failed_to_parse_duration
        end) /\
    (Forall no_video (Streams result) ->
     Probe ToLower indefinite videoPath result = inr video_stream_not_found).
Proof.
  intros ToLower indefinite videoPath result. split.
  - intros pre v post E Hpre Hv. unfold Probe.
    rewrite E, (videoStream_first pre v post Hpre Hv).
    destruct (ParseFloat _); [|reflexivity ..].
    repeat split.
  - intros H. unfold Probe. now rewrite (videoStream_none _ H).
Qed.

Lemma Probe_reports_the_first_video_stream_witness :
  let audio := {| CodecType := "audio"; CodecName := "aac"; StreamWidth := 0;
                  StreamHeight := 0; RFrameRate := "0/0"; StreamBitRate := "128000";
                  SampleAspectRatio := "" |} in
  let video := {| CodecType := "video"; CodecName := "h264"; StreamWidth := 1920;
                  StreamHeight := 1080; RFrameRate := "25/1"; StreamBitRate := "";
                  SampleAspectRatio := "1:1" |} in
  let result := {| Streams := [audio; video];
                   Format := {| FormatDuration := "12.5"; Size := "1000";
                                FormatBitRate := "640" |} |} in
  match Probe (fun s => s) (fun _ => 0) "clip.mp4" result with
  | inl r =>
      Codec r = "h264" /\ Width r = 1920 /\ Height r = 1080 /\
      FPS r = parseFPS "25/1" /\ SampleAR r = parseSampleAspectRatio "1:1"
  | inr e => e = failed_to_parse_duration
  end.
Proof.
  intros audio video result.
  apply (proj1 (Probe_reports_the_first_video_stream (fun s => s) (fun _ => 0)
                  "clip.mp4" result) [audio] video []).
  - reflexivity.
  - constructor; [discriminate | constructor].
  - reflexivity.
Defined.

(** *** The duration *)

Lemma one_units : units one = unit.
Proof. reflexivity. Qed.

Lemma trunc_below_one (f : float64) :
  finite_signed f -> ltb f one = true -> trunc f = Some 0.
Proof.
  intros [Hs Hfin] Hlt. destruct f as [s|s| |s m e]; simpl in Hs.
  - reflexivity.
  - subst s. now destruct Hfin.
  - contradiction.
  - destruct Hs as [-> Hv]. unfold ltb, SFltb in Hlt.
    rewrite compare_nonneg in Hlt by (assumption || reflexivity || exact I).
    rewrite one_units in Hlt.
    destruct (Z.compare_spec (units (S754_finite false m e)) unit) as [?|Hu|?];
      try discriminate Hlt.
    pose proof Hv as Hv'. apply valid_finite in Hv' as [He _].
    unfold units, unit in Hu. unfold trunc.
    assert (Hp : 0 < 2 ^ (e + 1074)) by (apply Z.pow_pos_nonneg; lia).
    destruct (Z.leb_spec 0 e) as [Hpos|Hneg].
    + exfalso.
      assert (2 ^ 1074 <= 2 ^ (e + 1074)) by (apply Z.pow_le_mono_r; lia).
      nia.
    + replace (2 ^ 1074) with (2 ^ (- e) * 2 ^ (e + 1074)) in Hu
        by (rewrite <- Z.pow_add_r by lia; f_equal; lia).
      assert (Hm : Z.pos m < 2 ^ (- e)) by nia.
      rewrite Z.div_small by lia. reflexivity.
Qed.

Lemma Probe_duration ToLower indefinite videoPath result r :
  Probe ToLower indefinite videoPath result = inl r ->
  exists f,
    ParseFloat (FormatDuration (Format result)) = FloatOk f /\
    Duration r = time.wrap_int64 (to_int64 indefinite f * time.Second).
Proof.
  unfold Probe. destruct (videoStream _); [|discriminate].
  destruct (ParseFloat _) as [f| |]; try discriminate.
  intros [= <-]. exists f. split; reflexivity.
Qed.

Lemma Probe_below_a_second ToLower indefinite videoPath result r f :
  Probe ToLower indefinite videoPath result = inl r ->
  unsigned (FormatDuration (Format result)) = true ->
  ParseFloat (FormatDuration (Format result)) = FloatOk f ->
  ltb f one = true ->
  Duration r = 0.
Proof.
  intros H Hu Hf Hlt.
  destruct (Probe_duration _ _ _ _ _ H) as (f' & Hf' & ->).
  rewrite Hf in Hf'. injection Hf' as <-.
  pose proof (ParseFloat_unsigned_ok _ _ Hu Hf) as Hfs.
  unfold to_int64. now rewrite (trunc_below_one f Hfs Hlt).
Qed.

(** X20.  The duration that [Probe] reports is a whole number of
    seconds: the fraction of [format.duration] is dropped, not rounded.
    For a text that [ParseFloat] reads as [f], with [n] the integer part
    of [f] (up to 9223372036 in magnitude, beyond which the nanoseconds
    leave the [int64]), the duration is [n] seconds; so a clip shorter
    than a second has the duration 0. *)
Theorem Probe_duration_drops_the_fraction :
  forall (ToLower : string -> string) (indefinite : float64 -> Z)
         (videoPath : string) (result : probeOutput) (r : ProbeResult),
    Probe ToLower indefinite videoPath result = inl r ->
    exists f,
      ParseFloat (FormatDuration (Format result)) = FloatOk f /\
      (forall n, trunc f = Some n -> Z.abs n <= 9223372036 ->
                 Duration r = n * time.Second) /\
      (unsigned (FormatDuration (Format result)) = true ->
       ltb f one = true -> Duration r = 0).
Proof.
  intros ToLower indefinite videoPath result r H.
  destruct (Probe_duration _ _ _ _ _ H) as (f & Hf & Ed).
  exists f. split; [assumption|]. split.
  - intros n Hn Hb. rewrite Ed. unfold to_int64. rewrite Hn.
    replace (in_int64 n) with true.
    + apply MainFacts.wrap_int64_small.
      unfold min_int64, max_int64, time.Second. lia.
    + symmetry. unfold in_int64, min_int64, max_int64.
      apply andb_true_intro. split; apply Z.leb_le; lia.
  - intros Hu Hlt. now apply (Probe_below_a_second ToLower indefinite videoPath result r f).
Qed.

Lemma Probe_duration_drops_the_fraction_witness :
  let video := {| CodecType := "video"; CodecName := "h264"; StreamWidth := 1920;
                  StreamHeight := 1080; RFrameRate := "25/1"; StreamBitRate := "";
                  SampleAspectRatio := "1:1" |} in
  let result := {| Streams := [video];
                   Format := {| FormatDuration := "12.9"; Size := "1000";
                                FormatBitRate := "640" |} |} in
  exists r, Probe (fun s => s) (fun _ => 0) "clip.mp4" result = inl r /\
            Duration r = 12 * time.Second.
Proof.
  intros video result.
  destruct (Probe (fun s => s) (fun _ => 0) "clip.mp4" result) as [r|e] eqn:H;
    [|vm_compute in H; discriminate H].
  exists r. split; [reflexivity|].
  destruct (Probe_duration_drops_the_fraction _ _ _ _ _ H) as (f & Hf & Hn & _).
  apply Hn.
  - vm_compute in Hf. injection Hf as <-. reflexivity.
  - discriminate.
Defined.

End ProbeResultFacts.

(** ** The progress of [ffmpeg]'s [Encode] *)

Module FfmpegRunFacts.
Import F64 ffmpeg.

Lemma progress_with_duration now indefinite probed params stdout :
  0 < Duration params ->
  ffmpeg_run.Encode_progress now indefinite probed params stdout =
  collect (iterProgress now indefinite stdout (Duration params)).
Proof.
  intros Hd. unfold ffmpeg_run.Encode_progress.
  destruct (Encode_args _ params) as [[args total]|] eqn:E.
  - destruct (ArgsOrder.ffmpeg_args_exact _ _ _ _ E) as (_ & Et & _).
    now rewrite (Et Hd).
  - apply ArgsOrder.ffmpeg_args_none in E as [E _]. lia.
Qed.

Lemma progress_with_probe now indefinite probed params stdout :
  Duration params <= 0 ->
  ffmpeg_run.Encode_progress now indefinite probed params stdout =
  match probed with
  | inl r => collect (iterProgress now indefinite stdout (probe.Duration r))
  | inr _ => []
  end.
Proof.
  intros Hd. unfold ffmpeg_run.Encode_progress.
  destruct (Encode_args _ params) as [[args total]|] eqn:E.
  - destruct (ArgsOrder.ffmpeg_args_exact _ _ _ _ E) as (_ & _ & Ep).
    specialize (Ep Hd). destruct probed as [r|e]; [|discriminate Ep].
    now injection Ep as <-.
  - apply ArgsOrder.ffmpeg_args_none in E as [_ E].
    destruct probed as [r|e]; [discriminate E | reflexivity].
Qed.

(** X21.  Where [ffmpeg]'s [Encode] takes the total duration of its
    progress from: from [Duration] when that is positive, whatever [Probe]
    would say, and from [Probe] otherwise.  Without a positive [Duration]
    there is no progress at all when [Probe] fails ([Encode] returns before
    it starts the process) or reports a duration of zero or less, which is
    what it reports for a clip shorter than a second. *)
Theorem ffmpeg_progress_needs_a_duration :
  forall (now : nat -> Z) (indefinite : float64 -> Z)
         (probed : probe.ProbeResult + probe.probe_error)
         (params : EncodeParams) (stdout : list ascii),
    (0 < Duration params ->
     ffmpeg_run.Encode_progress now indefinite probed params stdout =
     collect (iterProgress now indefinite stdout (Duration params))) /\
    (Duration params <= 0 ->
     match probed with
     | inl r =>
         ffmpeg_run.Encode_progress now indefinite probed params stdout =
         collect (iterProgress now indefinite stdout (probe.Duration r)) /\
         (probe.Duration r <= 0 ->
          ffmpeg_run.Encode_progress now indefinite probed params stdout = [])
     | inr _ => ffmpeg_run.Encode_progress now indefinite probed params stdout = []
     end) /\
    (forall ToLower indefinite' videoPath result f,
        Duration params <= 0 ->
        probed = probe.Probe ToLower indefinite' videoPath result ->
        ProbeFacts.unsigned (probe.FormatDuration (probe.Format result)) = true ->
        strconv.ParseFloat (probe.FormatDuration (probe.Format result))
        = strconv.FloatOk f ->
        ltb f one = true ->
        ffmpeg_run.Encode_progress now indefinite probed params stdout = []).
Proof.
  intros now indefinite probed params stdout.
  split; [apply progress_with_duration|]. split.
  - intros Hd. rewrite (progress_with_probe _ _ _ _ _ Hd).
    destruct probed as [r|e]; [|reflexivity].
    split; [reflexivity|]. intros Hr. now apply PercentRange.collect_silent.
  - intros ToLower indefinite' videoPath result f Hd -> Hu Hf Hlt.
    rewrite (progress_with_probe _ _ _ _ _ Hd).
    destruct (probe.Probe _ _ _ _) as [r|e] eqn:E; [|reflexivity].
    rewrite (ProbeResultFacts.Probe_below_a_second _ _ _ _ _ _ E Hu Hf Hlt).
    now apply PercentRange.collect_silent.
Qed.

Lemma ffmpeg_progress_needs_a_duration_witness :
  let params := {| InputPath := "in.mkv"; OutputPath := "out.mkv";
                   Quality := of_int 35; Is10Bit := true; FromTime := 0;
                   Duration := 10 * time.Second; Width := 0; Height := 0;
                   ExtraArgs := [] |} in
  ffmpeg_run.Encode_progress (fun i => Z.of_nat i) (fun _ => 0)
    (inr probe.video_stream_not_found) params
    (ProgressFacts.stream_of ["out_time_ms=2500000"]) =
  collect (iterProgress (fun i => Z.of_nat i) (fun _ => 0)
             (ProgressFacts.stream_of ["out_time_ms=2500000"]) (10 * time.Second)).
Proof.
  intros params.
  apply (proj1 (ffmpeg_progress_needs_a_duration (fun i => Z.of_nat i) (fun _ => 0)
                  (inr probe.video_stream_not_found) params
                  (ProgressFacts.stream_of ["out_time_ms=2500000"]))).
  reflexivity.
Defined.

End FfmpegRunFacts.
(** ** Paths and generated names *)

Module PathFacts.
Import Str StrFacts strings filepath.

Lemma rev_append_acc (s acc : string) : rev_append s acc = rev_append s "" ++ acc.
Proof.
  revert acc. induction s as [|c s IH]; intros acc; simpl; [reflexivity|].
  rewrite (IH (String c acc)), (IH (String c "")).
  now rewrite append_assoc.
Qed.

Lemma rev_cons (c : ascii) (s : string) : rev (String c s) = rev s ++ String c "".
Proof. unfold rev. simpl. apply rev_append_acc. Qed.

Lemma rev_app (a b : string) : rev (a ++ b) = rev b ++ rev a.
Proof.
  induction a as [|c a IH]; simpl.
  - now rewrite append_nil_r.
  - now rewrite !rev_cons, IH, append_assoc.
Qed.

Lemma rev_rev (s : string) : rev (rev s) = s.
Proof.
  induction s as [|c s IH]; [reflexivity|].
  now rewrite rev_cons, rev_app, IH.
Qed.

Lemma forallb_app (p : ascii -> bool) (a b : string) :
  Str.forallb p (a ++ b) = Str.forallb p a && Str.forallb p b.
Proof.
  induction a as [|c a IH]; simpl; [reflexivity|]. now rewrite IH, andb_assoc.
Qed.

Lemma forallb_rev (p : ascii -> bool) (s : string) :
  Str.forallb p (rev s) = Str.forallb p s.
Proof.
  induction s as [|c s IH]; [reflexivity|].
  rewrite rev_cons, forallb_app, IH. simpl. rewrite andb_true_r. apply andb_comm.
Qed.

Lemma prefix_app (x y : string) : String.prefix x (x ++ y) = true.
Proof.
  induction x as [|c x IH]; simpl; [now destruct y|].
  destruct (ascii_dec c c); [assumption | contradiction].
Qed.

(** The bytes of a file name: no separator. *)
Definition plain (s : string) : bool := Str.forallb (fun c => negb (is_sep c)) s.

(** The bytes of an extension after its point: no separator and no point. *)
Definition suffix_text (s : string) : bool :=
  Str.forallb (fun c => negb (is_sep c) && negb (Ascii.eqb c ".")) s.

Lemma ext_rev_app (x y : string) :
  suffix_text x = true -> ext_rev (x ++ String "." y) = Some (x ++ ".").
Proof.
  induction x as [|c x IH]; simpl; [reflexivity|].
  intros H. apply andb_prop in H as [Hc Hx]. apply andb_prop in Hc as [Hs Hd].
  apply negb_true_iff in Hs, Hd. rewrite Hs, Hd. now rewrite IH.
Qed.

Lemma Ext_app (pre e : string) :
  suffix_text e = true -> Ext (pre ++ String "." e) = String "." e.
Proof.
  intros He. unfold Ext.
  rewrite rev_app, rev_cons, append_assoc. simpl.
  rewrite ext_rev_app by (unfold suffix_text; now rewrite forallb_rev).
  now rewrite rev_app, rev_rev.
Qed.

Lemma upto_sep_plain (x : string) : plain x = true -> upto_sep x = x.
Proof.
  induction x as [|c x IH]; simpl; [reflexivity|].
  intros H. apply andb_prop in H as [Hc Hx]. apply negb_true_iff in Hc.
  now rewrite Hc, IH.
Qed.

Lemma upto_sep_app (x y : string) :
  plain x = true -> upto_sep (x ++ String "/" y) = x.
Proof.
  induction x as [|c x IH]; simpl; [reflexivity|].
  intros H. apply andb_prop in H as [Hc Hx]. apply negb_true_iff in Hc.
  now rewrite Hc, IH.
Qed.

Lemma drop_seps_plain (x y : string) :
  nonempty x = true -> plain x = true -> drop_seps (x ++ y) = x ++ y.
Proof.
  destruct x as [|c x]; [discriminate|]. simpl. intros _ H.
  apply andb_prop in H as [Hc _]. apply negb_true_iff in Hc. now rewrite Hc.
Qed.

(** A directory part: nothing, or a text that ends with a separator. *)
Definition directory (pre : string) : Prop :=
  pre = "" \/ exists dir, pre = dir ++ "/".

Lemma Base_app (pre name : string) :
  directory pre -> nonempty name = true -> plain name = true ->
  Base (pre ++ name) = name.
Proof.
  intros Hpre Hne Hplain. unfold Base.
  assert (Hr : rev (upto_sep (drop_seps (rev (pre ++ name)))) = name).
  { rewrite rev_app.
    assert (Hn : nonempty (rev name) = true).
    { destruct name as [|c n]; [discriminate|]. rewrite rev_cons.
      apply nonempty_snoc. }
    assert (Hp : plain (rev name) = true) by (unfold plain; now rewrite forallb_rev).
    rewrite drop_seps_plain by assumption.
    destruct Hpre as [->|(dir & ->)].
    - simpl. rewrite append_nil_r, upto_sep_plain by assumption. apply rev_rev.
    - rewrite rev_app. simpl. rewrite upto_sep_app by assumption. apply rev_rev. }
  rewrite Hr.
  destruct (pre ++ name) eqn:E.
  - destruct pre; [simpl in E; subst name; discriminate | discriminate].
  - destruct name; [discriminate | reflexivity].
Qed.

Lemma TrimSuffix_app (stem ext : string) : TrimSuffix (stem ++ ext) ext = stem.
Proof.
  unfold TrimSuffix. rewrite rev_app, prefix_app.
  apply RegexpFacts.take_app.
Qed.

(** The name without its directory and its extension. *)
Lemma stem_of_path (pre stem e : string) :
  directory pre -> plain stem = true -> suffix_text e = true ->
  TrimSuffix (Base (pre ++ stem ++ String "." e)) (Ext (pre ++ stem ++ String "." e))
  = stem.
Proof.
  intros Hpre Hstem He.
  assert (Hplain : plain (stem ++ String "." e) = true).
  { unfold plain. rewrite forallb_app. apply andb_true_intro. split; [assumption|].
    simpl. clear - He. induction e as [|c e IH]; simpl in *; [reflexivity|].
    apply andb_prop in He as [Hc He]. apply andb_prop in Hc as [Hs _].
    rewrite Hs. simpl. now apply IH. }
  rewrite Base_app; [|assumption | now destruct stem | assumption].
  replace (pre ++ stem ++ String "." e) with ((pre ++ stem) ++ String "." e)
    by apply append_assoc.
  rewrite Ext_app by assumption. apply TrimSuffix_app.
Qed.

End PathFacts.

(** ** [generateFilename] *)

Module NameFacts.
Import Str StrFacts strconv main PathFacts.

Definition no_bracket (s : string) : bool :=
  Str.forallb (fun c => negb (Ascii.eqb c "[")) s.

Definition all_digits (s : string) : bool := Str.forallb is_digit s.

Lemma match_tag_other (c : ascii) (s : string) :
  Ascii.eqb c "[" = false -> match_tag (String c s) = None.
Proof.
  destruct c as [[] [] [] [] [] [] [] []]; intros H; try discriminate H; reflexivity.
Qed.

Lemma remove_tags_app (a b : string) :
  no_bracket a = true -> remove_tags 0 (a ++ b) = a ++ remove_tags 0 b.
Proof.
  induction a as [|c a IH]; [reflexivity|].
  intros H. simpl in H. apply andb_prop in H as [Hc Ha]. apply negb_true_iff in Hc.
  change (String c a ++ b) with (String c (a ++ b)).
  cbn [remove_tags]. rewrite (match_tag_other c _ Hc), (IH Ha). reflexivity.
Qed.

Lemma remove_tags_plain (a : string) : no_bracket a = true -> remove_tags 0 a = a.
Proof.
  intros H. rewrite <- (append_nil_r a) at 1. rewrite remove_tags_app by assumption.
  apply append_nil_r.
Qed.

Lemma remove_skip (x b : string) :
  remove_tags (String.length x) (x ++ b) = remove_tags 0 b.
Proof. induction x as [|c x IH]; [reflexivity | exact IH]. Qed.

Lemma skip_digits_app (ds : string) (c : ascii) (r : string) :
  all_digits ds = true -> is_digit c = false ->
  skip_digits (ds ++ String c r) = String c r.
Proof.
  intros Hds Hc. induction ds as [|d ds IH]; simpl in *.
  - now rewrite Hc.
  - apply andb_prop in Hds as [Hd Hds]. rewrite Hd. now apply IH.
Qed.

(** A resolution tag: an opening bracket, digits, [p] or [k], a closing
    bracket. *)
Definition tag (ds : string) (c : ascii) : string :=
  String "[" (ds ++ String c "]").

Lemma remove_tags_tag (ds : string) (c : ascii) (b : string) :
  nonempty ds = true -> all_digits ds = true -> c = "p"%char \/ c = "k"%char ->
  remove_tags 0 (tag ds c ++ b) = remove_tags 0 b.
Proof.
  intros Hne Hds Hc.
  assert (Hnd : is_digit c = false) by (destruct Hc as [->| ->]; reflexivity).
  assert (Hpk : (Ascii.eqb c "p" || Ascii.eqb c "k")%bool = true)
    by (destruct Hc as [->| ->]; reflexivity).
  unfold tag. change (String "[" (ds ++ String c "]") ++ b)
    with (String "[" ((ds ++ String c "]") ++ b)).
  assert (Em : match_tag (String "[" ((ds ++ String c "]") ++ b)) = Some b).
  { rewrite append_assoc. destruct ds as [|d ds]; [discriminate|].
    simpl in Hds. apply andb_prop in Hds as [Hd Hds].
    cbn [match_tag append]. rewrite Hd.
    rewrite skip_digits_app by assumption. cbn [append].
    now rewrite Hpk. }
  cbn [remove_tags]. rewrite Em.
  rewrite length_append.
  replace (String.length (ds ++ String c "]") + String.length b - String.length b)%nat
    with (String.length (ds ++ String c "]")) by lia.
  apply remove_skip.
Qed.

(** The suffix that [generateFilename] gives a name whose larger side is
    [maxLength]. *)
Definition label (maxLength : Z) : string :=
  if 3000 <=? maxLength then " [4K, x265]"
  else if (1900 <=? maxLength) && (maxLength <=? 2000) then " [1080p, x265]"
  else if (1200 <=? maxLength) && (maxLength <=? 1400) then " [720p, x265]"
  else " [x265]".

Lemma generateFilename_path indefinite pre stem e sw sh rw rh :
  directory pre -> plain stem = true -> suffix_text e = true ->
  ((rw <= 0 /\ rh <= 0) \/ (0 < rw /\ 0 < rh)) ->
  generateFilename indefinite (pre ++ stem ++ String "." e) sw sh rw rh =
  strings.TrimSpace (remove_tags 0 stem) ++
  label (if 0 <? rw then Z.max rw rh else Z.max sw sh) ++ String "." e.
Proof.
  intros Hpre Hstem He Hsize. unfold generateFilename.
  rewrite stem_of_path by assumption.
  replace (pre ++ stem ++ String "." e) with ((pre ++ stem) ++ String "." e)
    by apply append_assoc.
  rewrite Ext_app by assumption.
  set (t := strings.TrimSpace (remove_tags 0 stem)).
  assert (E : (if (0 <? rw) || (0 <? rh)
               then if (0 <? rw) && (0 <? rh) then (rw, rh)
                    else if 0 <? rw
                         then (rw, F64.to_int64 indefinite
                                     (F64.mul (F64.of_int rw)
                                              (F64.div (F64.of_int sh) (F64.of_int sw))))
                         else (F64.to_int64 indefinite
                                 (F64.mul (F64.of_int rh)
                                          (F64.div (F64.of_int sw) (F64.of_int sh))), rh)
               else (sw, sh)) = if 0 <? rw then (rw, rh) else (sw, sh)).
  { destruct Hsize as [[Hw Hh]|[Hw Hh]].
    - replace (0 <? rw) with false by (symmetry; apply Z.ltb_ge; lia).
      now replace (0 <? rh) with false by (symmetry; apply Z.ltb_ge; lia).
    - replace (0 <? rw) with true by (symmetry; apply Z.ltb_lt; lia).
      now replace (0 <? rh) with true by (symmetry; apply Z.ltb_lt; lia). }
  rewrite E. clear E.
  assert (L : forall m,
             (let resolution :=
                if 3000 <=? m then "4K"
                else if (1900 <=? m) && (m <=? 2000) then "1080p"
                else if (1200 <=? m) && (m <=? 1400) then "720p" else "" in
              (if nonempty resolution
               then t ++ " [" ++ resolution ++ ", x265]"
               else t ++ " [x265]") ++ String "." e) =
             t ++ label m ++ String "." e).
  { intros m. unfold label. cbv zeta.
    destruct (3000 <=? m); [|destruct (_ && _)%bool; [|destruct (_ && _)%bool]];
      cbn [nonempty]; rewrite append_assoc; reflexivity. }
  destruct (0 <? rw); apply L.
Qed.

(** X22.  [generateFilename] names the output after the input file: for
    an input [dir/stem.ext] (no size asked for, or both sides asked for)
    the name is [stem] without its old resolution tags and the spaces
    around it, then the label of the larger side with the codec, then
    [.ext].  An old tag is an opening bracket, digits, [p] or [k] and a
    closing bracket; the first one of a stem goes, with what comes before
    it kept as it is. *)
Theorem generateFilename_renames :
  forall (indefinite : F64.float64 -> Z) (pre stem e : string)
         (sw sh rw rh : Z),
    directory pre -> plain stem = true -> suffix_text e = true ->
    (rw <= 0 /\ rh <= 0) \/ (0 < rw /\ 0 < rh) ->
    generateFilename indefinite (pre ++ stem ++ String "." e) sw sh rw rh =
    strings.TrimSpace (remove_tags 0 stem) ++
    label (if 0 <? rw then Z.max rw rh else Z.max sw sh) ++ String "." e /\
    (no_bracket stem = true -> remove_tags 0 stem = stem) /\
    (forall a ds c b,
        stem = a ++ tag ds c ++ b ->
        no_bracket a = true -> nonempty ds = true -> all_digits ds = true ->
        c = "p"%char \/ c = "k"%char ->
        remove_tags 0 stem = a ++ remove_tags 0 b).
Proof.
  intros indefinite pre stem e sw sh rw rh Hpre Hstem He Hsize.
  split; [now apply generateFilename_path|].
  split; [apply remove_tags_plain|].
  intros a ds c b -> Ha Hne Hds Hc.
  rewrite remove_tags_app by assumption.
  now rewrite remove_tags_tag.
Qed.

Lemma generateFilename_renames_witness :
  generateFilename (fun _ => 0) "/videos/Holiday [1080p].mkv" 3840 2160 0 0 =
  strings.TrimSpace (remove_tags 0 "Holiday [1080p]") ++ " [4K, x265]" ++ ".mkv" /\
  remove_tags 0 "Holiday [1080p]" = "Holiday " ++ remove_tags 0 "".
Proof.
  destruct (generateFilename_renames (fun _ => 0) "/videos/" "Holiday [1080p]" "mkv"
              3840 2160 0 0) as (H1 & _ & H3).
  - right. now exists "/videos".
  - reflexivity.
  - reflexivity.
  - left. split; discriminate.
  - split; [exact H1|].
    apply (H3 "Holiday " "1080" "p"%char ""); try reflexivity. now left.
Defined.

(** X23.  The title that [Encode] of [ffmpeg] writes into the output is
    the name of the input file without its directory and its extension:
    for an input [dir/stem.ext] the vector holds [-metadata title=stem]. *)
Theorem ffmpeg_title_is_the_stem :
  forall (probe : string -> option time.Duration) (params : ffmpeg.EncodeParams)
         (args : list string) (total : time.Duration) (pre stem e : string),
    ffmpeg.Encode_args probe params = Some (args, total) ->
    ffmpeg.InputPath params = pre ++ stem ++ String "." e ->
    directory pre -> plain stem = true -> suffix_text e = true ->
    ArgsFacts.adjacent "-metadata" ("title=" ++ stem) args.
Proof.
  intros probe params args total pre stem e H Ep Hpre Hstem He.
  apply (ArgsFacts.ffmpeg_adjacent probe params args total); try assumption;
    try discriminate.
  unfold ArgsFacts.ffmpeg_base. rewrite Ep, stem_of_path by assumption.
  match goal with
  | |- ArgsFacts.adjacent _ _ (?l ++ ?r)%list => exists (firstn 16 l), r
  end. reflexivity.
Qed.

Lemma ffmpeg_title_is_the_stem_witness :
  ArgsFacts.adjacent "-metadata" "title=clip"
    (fst (match ffmpeg.Encode_args (fun _ => None)
                  {| ffmpeg.InputPath := "/videos/clip.mov"; ffmpeg.OutputPath := "out.mkv";
                     ffmpeg.Quality := F64.of_int 35; ffmpeg.Is10Bit := true;
                     ffmpeg.FromTime := 0; ffmpeg.Duration := 30 * time.Second;
                     ffmpeg.Width := 0; ffmpeg.Height := 0;
                     ffmpeg.ExtraArgs := [] |} with
          | Some r => r
          | None => ([], 0)
          end)).
Proof.
  apply (ffmpeg_title_is_the_stem (fun _ => None)
           {| ffmpeg.InputPath := "/videos/clip.mov"; ffmpeg.OutputPath := "out.mkv";
              ffmpeg.Quality := F64.of_int 35; ffmpeg.Is10Bit := true;
              ffmpeg.FromTime := 0; ffmpeg.Duration := 30 * time.Second;
              ffmpeg.Width := 0; ffmpeg.Height := 0;
              ffmpeg.ExtraArgs := [] |} _ _ "/videos/" "clip" "mov" eq_refl eq_refl).
  - right. now exists "/videos".
  - reflexivity.
  - reflexivity.
Defined.

End NameFacts.
(** ** Whole seconds, and the two ends of the percent *)

Module WholeFacts.
Import F64 strconv.
Import UnitFacts OpFacts UnitOrder UnitOrder2 ConvFacts CanonFacts SignFacts PercentFacts.

(** The float of a positive integer of at most 53 bits holds it exactly. *)
Lemma int_float_shape (k : Z) :
  0 < k < 2 ^ 53 ->
  exists m e,
    of_int k = S754_finite false m e /\
    ((0 <= e /\ Z.pos m * 2 ^ e = k) \/ (e < 0 /\ Z.pos m = k * 2 ^ (- e))).
Proof.
  intros Hk. rewrite of_int_small by (rewrite Z.abs_eq; lia).
  replace (k <? 0) with false by (symmetry; apply Z.ltb_ge; lia).
  rewrite Z.abs_eq by lia.
  assert (Hr : representable (k * unit)) by (apply representable_scaled; lia).
  assert (Ho : k * unit < overflow).
  { apply Z.le_lt_trans with (2 ^ 53 * unit); [|reflexivity].
    apply Z.mul_le_mono_nonneg_r; [unfold unit|]; lia. }
  destruct (of_units_cases false (k * unit) Hr Ho) as [[E _]|[_ (m & e & E & Hv & Hu)]].
  - assert (0 < unit) by reflexivity. nia.
  - exists m, e. split; [assumption|].
    apply valid_finite in Hv as [He _]. unfold units, unit in Hu.
    assert (Hp : 0 < 2 ^ (e + 1074)) by (apply Z.pow_pos_nonneg; lia).
    destruct (Z_le_gt_dec 0 e) as [Hpos|Hneg].
    + left. split; [assumption|].
      rewrite Z.pow_add_r in Hu by lia.
      assert (0 < 2 ^ 1074) by reflexivity. nia.
    + right. split; [lia|].
      replace (2 ^ 1074) with (2 ^ (- e) * 2 ^ (e + 1074)) in Hu
        by (rewrite <- Z.pow_add_r by lia; f_equal; lia).
      nia.
Qed.

Lemma trunc_of_int (k : Z) : 0 <= k < 2 ^ 53 -> trunc (of_int k) = Some k.
Proof.
  intros Hk. destruct (Z.eq_dec k 0) as [->|H0]; [reflexivity|].
  destruct (int_float_shape k ltac:(lia)) as (m & e & -> & [[He E]|[He E]]); unfold trunc.
  - replace (0 <=? e) with true by (symmetry; apply Z.leb_le; lia).
    unfold cond_Zopp. now rewrite E.
  - replace (0 <=? e) with false by (symmetry; apply Z.leb_gt; lia).
    unfold cond_Zopp. rewrite E, Z.div_mul; [reflexivity|].
    apply Z.pow_nonzero; lia.
Qed.

Lemma Seconds_whole (k : Z) :
  0 <= k < 2 ^ 53 -> time.Seconds (k * time.Second) = of_int k.
Proof.
  intros Hk. unfold time.Seconds.
  rewrite Z.quot_mul, Z.rem_mul by discriminate.
  change (div (of_int 0) (of_int 1000000000)) with (S754_zero false).
  destruct (Z.eq_dec k 0) as [->|H0]; [reflexivity|].
  destruct (int_float_shape k ltac:(lia)) as (m & e & -> & _). reflexivity.
Qed.

Lemma seconds_whole (k : Z) :
  0 <= k < 2 ^ 53 -> ArgsFacts.seconds (k * time.Second) = Itoa k.
Proof.
  intros Hk. unfold ArgsFacts.seconds. rewrite Seconds_whole by assumption.
  unfold to_int64. rewrite trunc_of_int by assumption.
  replace (in_int64 k) with true; [reflexivity|].
  symmetry. unfold in_int64, min_int64, max_int64.
  apply andb_true_intro. split; apply Z.leb_le; lia.
Qed.

Lemma Sprintf_whole (k : Z) :
  0 <= k < 2 ^ 53 -> Sprintf_f 1 (of_int k) = Itoa k ++ ".0".
Proof.
  intros Hk. destruct (Z.eq_dec k 0) as [->|H0]; [reflexivity|].
  assert (Hfix : forall n, n = 10 * k ->
             (let scale := 10 ^ Z.of_nat 1 in
              let frac := digits (n mod scale) in
              "" ++ digits (n / scale) ++ "." ++ zeros (1 - String.length frac) ++ frac)
             = Itoa k ++ ".0").
  { intros n ->. cbv zeta. change (10 ^ Z.of_nat 1) with 10.
    rewrite (Z.mul_comm 10 k), Z.mod_mul, Z.div_mul by discriminate.
    unfold Itoa. replace (k <? 0) with false by (symmetry; apply Z.ltb_ge; lia).
    reflexivity. }
  destruct (int_float_shape k ltac:(lia)) as (m & e & -> & [[He E]|[He E]]);
    unfold Sprintf_f; apply Hfix.
  - replace (0 <=? e) with true by (symmetry; apply Z.leb_le; lia).
    change (10 ^ Z.of_nat 1) with 10. lia.
  - replace (0 <=? e) with false by (symmetry; apply Z.leb_gt; lia).
    change (10 ^ Z.of_nat 1) with 10. unfold div_half_even.
    assert (Hp : 0 < 2 ^ (- e)) by (apply Z.pow_pos_nonneg; lia).
    rewrite E.
    replace (k * 2 ^ (- e) * 10) with (10 * k * 2 ^ (- e)) by ring.
    rewrite Z.mod_mul, Z.div_mul by lia.
    replace (2 * 0 ?= 2 ^ (- e)) with Lt
      by (symmetry; apply Z.compare_lt_iff; lia).
    reflexivity.
Qed.

Lemma handbrake_adjacent_start (params : handbrake.EncodeParams) :
  0 < handbrake.FromTime params ->
  ArgsFacts.adjacent "--start-at"
    ("duration:" ++ Sprintf_f 1 (time.Seconds (handbrake.FromTime params)))
    (handbrake.Encode_args params).
Proof.
  intros H. apply Z.ltb_lt in H.
  rewrite ArgsFacts.handbrake_args_shape. apply ArgsFacts.adjacent_app.
  unfold ArgsFacts.fixed_args, handbrake.Encode_args.
  cbn [ArgsFacts.unscaled handbrake.InputPath handbrake.OutputPath handbrake.Quality
       handbrake.Is10Bit handbrake.FromTime handbrake.Duration handbrake.Denoise
       handbrake.Width handbrake.Height handbrake.ExtraArgs].
  rewrite H. cbv zeta. change (0 <? 0) with false. cbn [orb].
  destruct (0 <? handbrake.Duration params); destruct (handbrake.Denoise params);
    repeat rewrite <- app_assoc;
    match goal with
    | |- ArgsFacts.adjacent _ _ (?l ++ _)%list => exists l; eexists; reflexivity
    end.
Qed.

Lemma handbrake_adjacent_stop (params : handbrake.EncodeParams) :
  0 < handbrake.Duration params ->
  ArgsFacts.adjacent "--stop-at"
    ("duration:" ++ Sprintf_f 1 (time.Seconds (handbrake.Duration params)))
    (handbrake.Encode_args params).
Proof.
  intros H. apply Z.ltb_lt in H.
  rewrite ArgsFacts.handbrake_args_shape. apply ArgsFacts.adjacent_app.
  unfold ArgsFacts.fixed_args, handbrake.Encode_args.
  cbn [ArgsFacts.unscaled handbrake.InputPath handbrake.OutputPath handbrake.Quality
       handbrake.Is10Bit handbrake.FromTime handbrake.Duration handbrake.Denoise
       handbrake.Width handbrake.Height handbrake.ExtraArgs].
  rewrite H. cbv zeta. change (0 <? 0) with false. cbn [orb].
  destruct (0 <? handbrake.FromTime params); destruct (handbrake.Denoise params);
    repeat rewrite <- app_assoc;
    match goal with
    | |- ArgsFacts.adjacent _ _ (?l ++ ?x ++ _)%list =>
        first [exists l; eexists; reflexivity | exists (l ++ x)%list; eexists;
               rewrite <- app_assoc; reflexivity]
    end.
Qed.

(** X24.  A start or a length of whole seconds reaches the encoder as it
    is: for [k] seconds (up to 9223372036, the most that a [Duration]
    holds) [ffmpeg] gets [-ss k] or [-t k] and [handbrake] gets
    [--start-at duration:k.0] or [--stop-at duration:k.0]; the conversion
    of the duration to a float and back, or to text, loses nothing. *)
Theorem whole_seconds_pass_unchanged :
  forall k : Z,
    0 < k <= 9223372036 ->
    (forall probe params args total,
        ffmpeg.Encode_args probe params = Some (args, total) ->
        (ffmpeg.FromTime params = k * time.Second ->
         ArgsFacts.adjacent "-ss" (Itoa k) args) /\
        (ffmpeg.Duration params = k * time.Second ->
         ArgsFacts.adjacent "-t" (Itoa k) args)) /\
    (forall params,
        (handbrake.FromTime params = k * time.Second ->
         ArgsFacts.adjacent "--start-at" ("duration:" ++ Itoa k ++ ".0")
                            (handbrake.Encode_args params)) /\
        (handbrake.Duration params = k * time.Second ->
         ArgsFacts.adjacent "--stop-at" ("duration:" ++ Itoa k ++ ".0")
                            (handbrake.Encode_args params))).
Proof.
  intros k Hk.
  assert (Hk53 : 0 <= k < 2 ^ 53) by lia.
  assert (Hpos : 0 < k * time.Second) by (unfold time.Second; lia).
  split.
  - intros probe params args total H.
    destruct (ArgsOrder.ffmpeg_prefix _ _ _ _ H) as (rest & -> & _).
    split; intros E; rewrite E.
    + replace (0 <? k * time.Second) with true by (symmetry; now apply Z.ltb_lt).
      rewrite seconds_whole by assumption.
      eexists _, _. reflexivity.
    + replace (0 <? k * time.Second) with true by (symmetry; now apply Z.ltb_lt).
      rewrite seconds_whole by assumption.
      match goal with
      | |- ArgsFacts.adjacent _ _ (?h ++ ?ss ++ _ ++ ?r)%list =>
          exists (h ++ ss)%list, r
      end.
      now rewrite <- app_assoc.
  - intros params. split; intros E.
    + rewrite <- Sprintf_whole, <- Seconds_whole, <- E by assumption.
      apply handbrake_adjacent_start. now rewrite E.
    + rewrite <- Sprintf_whole, <- Seconds_whole, <- E by assumption.
      apply handbrake_adjacent_stop. now rewrite E.
Qed.

Lemma whole_seconds_pass_unchanged_witness :
  ArgsFacts.adjacent "--start-at" "duration:330.0"
    (handbrake.Encode_args
       {| handbrake.InputPath := "in.mkv"; handbrake.OutputPath := "out.mkv";
          handbrake.Quality := of_int 35; handbrake.Is10Bit := true;
          handbrake.FromTime := 330 * time.Second; handbrake.Duration := 0;
          handbrake.Denoise := false; handbrake.Width := 0; handbrake.Height := 0;
          handbrake.ExtraArgs := [] |}).
Proof.
  apply (proj1 (proj2 (whole_seconds_pass_unchanged 330 ltac:(lia))
                   {| handbrake.InputPath := "in.mkv"; handbrake.OutputPath := "out.mkv";
                      handbrake.Quality := of_int 35; handbrake.Is10Bit := true;
                      handbrake.FromTime := 330 * time.Second; handbrake.Duration := 0;
                      handbrake.Denoise := false; handbrake.Width := 0;
                      handbrake.Height := 0; handbrake.ExtraArgs := [] |})).
  reflexivity.
Defined.

(** *** The ends of the percent *)

Lemma percent_at_zero (total : time.Duration) :
  0 < total <= max_int64 -> ffmpeg.percent_of 0 total = zero.
Proof.
  intros Ht. unfold ffmpeg.percent_of.
  change (time.wrap_int64 (0 * 1000)) with 0.
  destruct (of_int_pos_finite total) as (m & e & -> & _);
    [unfold max_int64 in Ht; lia|].
  reflexivity.
Qed.

Lemma percent_at_the_end (ms : Z) (total : time.Duration) :
  0 < total -> total <= ms * 1000 < 2 ^ 53 ->
  ffmpeg.percent_of ms total = hundred.
Proof.
  intros Ht Hms. unfold ffmpeg.percent_of.
  rewrite MainFacts.wrap_int64_small by (unfold min_int64, max_int64; lia).
  set (ct := ms * 1000) in *.
  assert (Hu : 0 < unit) by reflexivity.
  rewrite (of_int_small ct), (of_int_small total) by (rewrite Z.abs_eq; lia).
  replace (ct <? 0) with false by (symmetry; apply Z.ltb_ge; lia).
  replace (total <? 0) with false by (symmetry; apply Z.ltb_ge; lia).
  rewrite !Z.abs_eq by lia.
  assert (Hcr : representable (ct * unit)) by (apply representable_scaled; lia).
  assert (Htr : representable (total * unit)) by (apply representable_scaled; lia).
  assert (Hco : ct * unit < overflow) by (apply below_overflow; lia).
  assert (Hto : total * unit < overflow) by (apply below_overflow; lia).
  rewrite div_of_units by (assumption || lia). cbn [xorb].
  set (I := rnd_units (ct * unit * unit) (total * unit)).
  assert (HN : 0 <= ct * unit * unit) by (repeat apply Z.mul_nonneg_nonneg; lia).
  assert (HIr : representable I) by (apply rnd_units_representable; lia).
  assert (HIlo : 1 * unit <= I).
  { apply rnd_units_ge; [assumption | lia | apply representable_scaled; lia|].
    replace (1 * unit * (total * unit)) with (total * (unit * unit)) by ring.
    replace (ct * unit * unit) with (ct * (unit * unit)) by ring.
    apply Z.mul_le_mono_nonneg_r; [|lia]. apply Z.mul_nonneg_nonneg; lia. }
  assert (HIhi : I <= 1 * 2 ^ 1127).
  { apply rnd_units_le; [assumption | lia | apply representable_scaled; lia|].
    change (1 * 2 ^ 1127) with (2 ^ 53 * unit).
    replace (2 ^ 53 * unit * (total * unit)) with (2 ^ 53 * total * (unit * unit)) by ring.
    replace (ct * unit * unit) with (ct * (unit * unit)) by ring.
    apply Z.mul_le_mono_nonneg_r; [apply Z.mul_nonneg_nonneg; lia | nia]. }
  assert (HIo : I < overflow).
  { apply Z.le_lt_trans with (1 := HIhi). reflexivity. }
  rewrite hundred_units at 2.
  rewrite mul_of_units; [|assumption | apply representable_100 | assumption
                         | apply below_overflow; lia].
  cbn [xorb].
  set (J := rnd_units (I * (100 * unit)) unit).
  assert (HJN : 0 <= I * (100 * unit)) by (apply Z.mul_nonneg_nonneg; lia).
  assert (HJr : representable J) by (apply rnd_units_representable; lia).
  assert (HJlo : 100 * unit <= J).
  { apply rnd_units_ge; [assumption | lia | apply representable_100|].
    rewrite (Z.mul_comm I). apply Z.mul_le_mono_nonneg_l; lia. }
  assert (Emin : min hundred (of_units false J) = hundred).
  { destruct (Z_lt_le_dec J overflow) as [HJo|HJo].
    - destruct (of_units_cases false J HJr HJo) as [[E _]|[_ (m & e & E & Hv & HuJ)]];
        [lia|].
      rewrite E.
      assert (Hl : ltb (S754_finite false m e) hundred = false).
      { unfold ltb, SFltb.
        destruct hundred_finite as (mh & eh & Eh & Hvh). rewrite Eh.
        rewrite compare_nonneg by (assumption || exact Logic.I).
        rewrite <- Eh. replace (units hundred) with (100 * unit) by reflexivity.
        rewrite HuJ.
        destruct (Z.compare_spec J (100 * unit)); try reflexivity. lia. }
      assert (Em : min hundred (S754_finite false m e) =
                   if ltb (S754_finite false m e) hundred
                   then S754_finite false m e else hundred) by reflexivity.
      now rewrite Em, Hl.
    - now rewrite of_units_overflow by assumption. }
  rewrite Emin. reflexivity.
Qed.

(** The line has no [out_time_ms] value, or one of zero. *)
Definition at_start (text : string) : bool :=
  match ProgressFacts.out_time_value text with
  | Some ms => ms =? 0
  | None => true
  end.

(** The line has no [out_time_ms] value, or one that, in nanoseconds, has
    reached [total] (and is below [2^53]). *)
Definition at_end (total : time.Duration) (text : string) : bool :=
  match ProgressFacts.out_time_value text with
  | Some ms => (total <=? ms * 1000) && (ms * 1000 <? 2 ^ 53)
  | None => true
  end.

(** X25.  The two ends of the percent of [iterProgress]: the snapshots of
    a stream whose out times are all zero have a percent equal to 0, and
    those of a stream whose out times have all reached the total duration
    have a percent equal to 100, neither more nor less. *)
Theorem iterProgress_percent_reaches_its_ends :
  forall (now : nat -> Z) (indefinite : float64 -> Z)
         (stream : list ascii) (total : time.Duration),
    total <= max_int64 ->
    (forallb at_start (bufio.Scanner_lines stream) = true ->
     forallb (fun p => eqb (ffmpeg.Percent p) zero)
             (collect (ffmpeg.iterProgress now indefinite stream total)) = true) /\
    (forallb (at_end total) (bufio.Scanner_lines stream) = true ->
     forallb (fun p => eqb (ffmpeg.Percent p) hundred)
             (collect (ffmpeg.iterProgress now indefinite stream total)) = true).
Proof.
  intros now indefinite stream total Hmax. split; intros Hok.
  - apply (PercentRange.snapshots_percents now indefinite at_start
             (fun x => eqb x zero)); [|assumption].
    intros Hpos text ms Hs E. unfold at_start in Hs. rewrite E in Hs.
    apply Z.eqb_eq in Hs. subst ms. now rewrite percent_at_zero.
  - apply (PercentRange.snapshots_percents now indefinite (at_end total)
             (fun x => eqb x hundred)); [|assumption].
    intros Hpos text ms Hs E. unfold at_end in Hs. rewrite E in Hs.
    apply andb_prop in Hs as [H1 H2]. apply Z.leb_le in H1. apply Z.ltb_lt in H2.
    now rewrite percent_at_the_end.
Qed.

Lemma iterProgress_percent_reaches_its_ends_witness :
  forallb (fun p => eqb (ffmpeg.Percent p) hundred)
          (collect (ffmpeg.iterProgress (fun i => Z.of_nat i) (fun _ => 0)
                      (ProgressFacts.stream_of
                         ["progress=continue"; "out_time_ms=100000000";
                          "out_time_ms=120000000"])
                      (100 * time.Second))) = true.
Proof.
  apply (proj2 (iterProgress_percent_reaches_its_ends (fun i => Z.of_nat i) (fun _ => 0)
                  (ProgressFacts.stream_of
                     ["progress=continue"; "out_time_ms=100000000";
                      "out_time_ms=120000000"])
                  (100 * time.Second) ltac:(discriminate))).
  vm_compute. reflexivity.
Defined.

End WholeFacts.
(** ** The progress loop of HandBrake's [Encode], however the reading ends *)

Module HandbrakeLoopFacts.
Import F64 Str StrFacts handbrake LinesFacts SeqFacts HandbrakeRunFacts.

Lemma bytes_of_app (rs rs' : list (option ascii)) :
  bytes_of (rs ++ rs') = (bytes_of rs ++ bytes_of rs')%list.
Proof.
  induction rs as [|[b|] rs IH]; simpl; [reflexivity | now rewrite IH | exact IH].
Qed.

(** The segments of a stream that goes on: the last segment of the first
    part is continued by the first segment of the second. *)
Lemma split_on_continued (sep : ascii -> bool) (l1 l2 : list ascii) :
  Spec.split_on sep (l1 ++ l2) =
  (removelast (Spec.split_on sep l1) ++
   glue (last (Spec.split_on sep l1) "") (Spec.split_on sep l2))%list.
Proof.
  induction l1 as [|c l1 IH]; simpl.
  - destruct (split_on_cons sep l2) as (seg & segs & ->). reflexivity.
  - rewrite IH.
    destruct (split_on_cons sep l1) as (seg & segs & E). rewrite E.
    destruct (split_on_cons sep l2) as (seg2 & segs2 & E2). rewrite E2.
    destruct (sep c).
    + reflexivity.
    + destruct segs as [|seg' segs]; simpl; reflexivity.
Qed.

Lemma removelast_glue (A : list string) (cur : string) (B : list string) :
  removelast (A ++ glue cur B) = (A ++ removelast (glue cur B))%list.
Proof.
  apply removelast_app. destruct B; discriminate.
Qed.

(** The lines closed so far stay what they are when the stream goes on. *)
Lemma closed_lines_prefix (bs bs' : list ascii) :
  (exists more, closed_lines (bs ++ bs') = (closed_lines bs ++ more)%list) /\
  (exists more, Spec.tokens (bs ++ bs') = (closed_lines bs ++ more)%list).
Proof.
  unfold closed_lines, Spec.tokens.
  change (fun c : ascii => (Ascii.eqb c CR || Ascii.eqb c LF)%bool) with is_line_end.
  rewrite split_on_continued. split.
  - rewrite removelast_glue, filter_app. eexists. reflexivity.
  - rewrite filter_app. eexists. reflexivity.
Qed.

Lemma matched_app stat out (l1 l2 : list string) : forall i,
  matched stat out i (l1 ++ l2) =
  (matched stat out i l1 ++ matched stat out (i + List.length l1) l2)%list.
Proof.
  induction l1 as [|line l1 IH]; intros i; simpl.
  - now rewrite Nat.add_0_r.
  - rewrite IH, Nat.add_succ_r.
    destruct (parseProgress (stat i) line out) as [p [|]]; reflexivity.
Qed.

(** The calls of [onProgress] over a reader, however its reading ends. *)
Lemma Encode_progress_lines stat rs last eof out :
  handbrake_run.Encode_progress stat
    {| reads := rs; last_byte := last; last_eof := eof |} out =
  matched stat out 0
    (if eof then Spec.tokens (bytes_of rs) else closed_lines (bytes_of rs)).
Proof.
  unfold handbrake_run.Encode_progress, iterLines. simpl.
  change (fun (line : string) (st : nat * list EncodeProgress) =>
            let '(i, acc) := st in
            match parseProgress (stat i) line out with
            | (progress, true) => ((S i, progress :: acc), true)
            | (_, false) => ((S i, acc), true)
            end) with (on_line stat out).
  destruct eof.
  - rewrite iterLines_loop_feed, <- tokens_eq, feed_on_line, app_nil_r.
    apply rev_involutive.
  - rewrite iterLines_loop_error, feed_on_line, app_nil_r, rev_involutive.
    unfold closed_lines.
    destruct (split_on_cons is_line_end (bytes_of rs)) as (seg & segs & ->).
    reflexivity.
Qed.

(** X13.  The reader goroutine of [Encode] calls [onProgress] for the
    lines that [parseProgress] accepts among the lines it has read, in the
    order of the lines and for no other line.  The lines are the non-empty
    segments between carriage returns and line feeds, so that each status
    update of HandBrake, which a carriage return ends, counts.  Percent,
    speed and ETA of a call are those of its line.  [Encode] does not wait
    for the goroutine: when the reading ends with [io.EOF] every line has
    been handed over, the last one also without a terminator; when it ends
    with another error (the pipe is closed after [cmd.Wait]) only the lines
    that a terminator has closed.  At any moment the calls made so far are
    those of the lines closed so far, a prefix of the calls of the whole
    run. *)
Theorem handbrake_progress_per_line_read :
  forall (stat : nat -> string -> option Z) (rs : list (option ascii))
         (last : option ascii) (eof : bool) (outputPath : string),
    let stdout := {| reads := rs; last_byte := last; last_eof := eof |} in
    let lines :=
      if eof then Spec.tokens (bytes_of rs) else closed_lines (bytes_of rs) in
    handbrake_run.Encode_progress stat stdout outputPath =
    matched stat outputPath 0 lines /\
    map said (handbrake_run.Encode_progress stat stdout outputPath) =
    map (fun line => said (fst (parseProgress (fun _ => None) line outputPath)))
        (filter (fun line => snd (parseProgress (fun _ => None) line outputPath)) lines) /\
    (forall (rs' : list (option ascii)) (last' : option ascii) (eof' : bool),
        exists later,
          handbrake_run.Encode_progress stat
            {| reads := rs ++ rs'; last_byte := last'; last_eof := eof' |} outputPath =
          (handbrake_run.Encode_progress stat
             {| reads := rs; last_byte := last; last_eof := false |} outputPath
           ++ later)%list).
Proof.
  intros stat rs last eof out stdout lines.
  assert (E : handbrake_run.Encode_progress stat stdout out = matched stat out 0 lines)
    by apply Encode_progress_lines.
  split; [exact E|]. split; [rewrite E; apply matched_said|].
  intros rs' last' eof'. rewrite !Encode_progress_lines, bytes_of_app.
  destruct (closed_lines_prefix (bytes_of rs) (bytes_of rs')) as [[m1 E1] [m2 E2]].
  destruct eof'; [rewrite E2 | rewrite E1]; rewrite matched_app; eexists; reflexivity.
Qed.

End HandbrakeLoopFacts.
(** ** The lines of [bufio.Scanner] *)

Module ScannerFacts.
Import Str StrFacts strings LinesFacts PathFacts bufio.

Definition is_LF (c : ascii) : bool := Ascii.eqb c LF.

(** The segments that are lines: the last one only if it is not empty. *)
Definition finished (segs : list string) : list string :=
  if nonempty (last segs "") then segs else removelast segs.

Lemma finished_cons (x seg : string) (segs : list string) :
  finished (x :: seg :: segs) = x :: finished (seg :: segs).
Proof.
  unfold finished.
  change (last (x :: seg :: segs) "") with (last (seg :: segs) "").
  change (removelast (x :: seg :: segs)) with (x :: removelast (seg :: segs)).
  now destruct (nonempty (last (seg :: segs) "")).
Qed.

Lemma finished_head (x : string) (segs : list string) :
  nonempty x = true -> exists rest, finished (x :: segs) = x :: rest.
Proof.
  intros Hx. destruct segs as [|seg segs].
  - unfold finished. simpl. rewrite Hx. now exists [].
  - rewrite finished_cons. now eexists.
Qed.

Lemma chomp_snoc (s : string) (c : ascii) :
  Spec.chomp (s ++ String c "") = if Ascii.eqb c CR then s else s ++ String c "".
Proof.
  induction s as [|d s IH].
  - reflexivity.
  - change (Spec.chomp (String d s ++ String c ""))
      with (match s ++ String c "" with
            | "" => if Ascii.eqb d CR then "" else String d (s ++ String c "")
            | String _ _ => String d (Spec.chomp (s ++ String c ""))
            end).
    destruct (s ++ String c "") eqn:E.
    + destruct s; discriminate E.
    + rewrite IH. destruct (Ascii.eqb c CR); [reflexivity|]. simpl. now rewrite E.
Qed.

(** [dropCR] is the chomping of the specification. *)
Lemma dropCR_chomp (line : string) : dropCR line = Spec.chomp line.
Proof.
  unfold dropCR. destruct (rev line) as [|c r] eqn:E.
  - apply (f_equal rev) in E. rewrite rev_rev in E. now subst line.
  - apply (f_equal rev) in E. rewrite rev_rev, rev_cons in E. subst line.
    rewrite chomp_snoc. reflexivity.
Qed.

Lemma length_snoc (s : string) (c : ascii) :
  Z.of_nat (String.length (s ++ String c "")) = Z.of_nat (String.length s) + 1.
Proof. rewrite length_append. simpl. lia. Qed.

(** The scanner, with [pending] read of the current line. *)
Lemma scan_lines_spec (bs : list ascii) : forall pending,
  Z.of_nat (String.length pending) < MaxScanTokenSize ->
  scan_lines bs pending (Z.of_nat (String.length pending)) =
  map Spec.chomp
      (Spec.short_lines MaxScanTokenSize
         (finished (glue pending (Spec.split_on is_LF bs)))).
Proof.
  induction bs as [|c bs IH]; intros pending Hlen.
  - simpl. rewrite append_nil_r. unfold finished. simpl.
    destruct (nonempty pending) eqn:Hp; simpl; [|reflexivity].
    destruct (Z.ltb_spec (Z.of_nat (String.length pending)) MaxScanTokenSize); [|lia].
    simpl. now rewrite dropCR_chomp.
  - destruct (split_on_cons is_LF bs) as (seg & segs & Hsplit).
    cbn [scan_lines Spec.split_on]. fold (is_LF c). rewrite Hsplit.
    destruct (is_LF c) eqn:Hc.
    + cbn [glue]. rewrite append_nil_r, finished_cons.
      cbn [Spec.short_lines].
      destruct (Z.ltb_spec (Z.of_nat (String.length pending)) MaxScanTokenSize); [|lia].
      cbn [map]. rewrite dropCR_chomp. f_equal.
      change 0 with (Z.of_nat (String.length "")).
      rewrite IH, Hsplit by (simpl; reflexivity). reflexivity.
    + cbn [glue].
      destruct (Z.leb_spec MaxScanTokenSize (Z.of_nat (String.length pending) + 1))
        as [Hfull|Hroom].
      * destruct (finished_head (pending ++ String c seg) segs) as [rest ->].
        { destruct pending; reflexivity. }
        cbn [Spec.short_lines].
        destruct (Z.ltb_spec (Z.of_nat (String.length (pending ++ String c seg)))
                    MaxScanTokenSize) as [Hshort|_]; [|reflexivity].
        rewrite length_append in Hshort. simpl in Hshort. lia.
      * rewrite <- (length_snoc pending c).
        rewrite IH by (rewrite length_snoc; lia). rewrite Hsplit.
        cbn [glue]. now rewrite append_assoc.
Qed.

(** What [scanner.Scan] and [scanner.Text] hand to the loop: the lines of
    the stream that stand before the first line of 65536 bytes or more. *)
Lemma Scanner_lines_spec (bs : list ascii) :
  Scanner_lines bs = Spec.lines 65536 bs.
Proof.
  unfold Scanner_lines. change 0 with (Z.of_nat (String.length "")).
  rewrite scan_lines_spec by reflexivity.
  unfold Spec.lines, Spec.raw_lines, finished.
  destruct (split_on_cons is_LF bs) as (seg & segs & E).
  change (fun c : ascii => Ascii.eqb c LF) with is_LF. rewrite E. reflexivity.
Qed.

End ScannerFacts.
(** ** Decimal numbers as [float64] *)

Module DecimalFacts.
Import F64 RoundingFacts UnitFacts OpFacts OpFacts2.
Import UnitOrder UnitOrder2 ConvFacts CanonFacts SignFacts PowFacts IdempotenceFacts.

Lemma SFopp_of_units (I : Z) : SFopp (of_units false I) = of_units true I.
Proof.
  unfold of_units. destruct I as [|p|p]; try reflexivity.
  cbv zeta. destruct (_ <=? 971); reflexivity.
Qed.

(** The powers of ten up to [10^22] are [float64] values. *)
Lemma of_int_pow10 (N : Z) :
  0 <= N <= 22 -> of_int (10 ^ N) = of_units false (10 ^ N * unit).
Proof.
  intros HN. destruct (pow10_scaled N HN) as [Hr HF].
  rewrite of_int_units.
  replace (10 ^ N <? 0) with false by (symmetry; apply Z.ltb_ge; lia).
  rewrite Z.abs_eq by lia.
  replace (10 ^ N * unit) with (10 ^ N * unit * 1) at 1 by ring.
  now rewrite rnd_units_exact by (lia || assumption).
Qed.

(** The decimal [k / 10^N] of sign [s], in units. *)
Lemma decimal_units (s : bool) (k N : Z) :
  0 <= k < 2 ^ 53 -> 0 <= N <= 22 ->
  Spec.decimal s k N = of_units s (rnd_units (k * unit * unit) (10 ^ N * unit)).
Proof.
  intros Hk HN. destruct (pow10_scaled N HN) as [Hr HF].
  pose proof unit_facts as (Hu & Eu & _).
  unfold Spec.decimal. rewrite of_int_pow10, of_int_small by (assumption || lia).
  replace (k <? 0) with false by (symmetry; apply Z.ltb_ge; lia).
  rewrite Z.abs_eq by lia.
  rewrite div_of_units.
  - simpl xorb. destruct s; [apply SFopp_of_units | reflexivity].
  - apply representable_scaled; lia.
  - assumption.
  - apply Z.le_lt_trans with (2 ^ 53 * unit); [|reflexivity].
    apply Z.mul_le_mono_nonneg_r; lia.
  - split; [lia | now apply F_below].
Qed.

(** A product is rounded with a relative error of [2^-53] at most. *)
Lemma rnd_units_product (B D : Z) :
  0 <= B -> 0 < D -> 2 ^ 53 * Z.abs (rnd_units (B * D) D - B) <= B.
Proof.
  intros HB HD.
  assert (HN : 0 <= B * D) by (apply Z.mul_nonneg_nonneg; lia).
  pose proof (rnd_units_error (B * D) D HN HD) as E.
  rewrite Z.div_mul in E by lia.
  replace (rnd_units (B * D) D * D - B * D) with ((rnd_units (B * D) D - B) * D) in E
    by ring.
  rewrite Z.abs_mul, (Z.abs_eq D) in E by lia.
  set (A := Z.abs (rnd_units (B * D) D - B)) in *.
  assert (E1 : 2 * A <= 2 ^ shift_of B).
  { apply (Z.mul_le_mono_pos_r _ _ D HD).
    replace (2 * A * D) with (2 * (A * D)) by ring.
    now rewrite (Z.mul_comm (2 ^ shift_of B)). }
  unfold shift_of in E1.
  destruct (Z_le_gt_dec (Zdigits2 B) 53) as [Hs|Hs].
  - rewrite Z.max_r in E1 by lia. change (2 ^ 0) with 1 in E1.
    assert (A = 0) by (unfold A in *; lia). lia.
  - rewrite Z.max_l in E1 by lia.
    assert (HBpos : 0 < B).
    { destruct (Z.eq_dec B 0) as [->|]; [|lia]. discriminate Hs. }
    pose proof (Zdigits2_bounds B HBpos) as [Hlo _].
    replace (Zdigits2 B - 1) with ((Zdigits2 B - 53) + 52) in Hlo by lia.
    rewrite Z.pow_add_r in Hlo by lia.
    set (P := 2 ^ (Zdigits2 B - 53)) in *.
    assert (0 < P) by (apply Z.pow_pos_nonneg; lia).
    lia.
Qed.

Section Factor.
Variable F : Z.
Hypothesis F_range : 1 <= F <= 10 ^ 22.
Hypothesis F_repr : representable (F * unit).

(** [math.Round(v * f) / f] is the nearest [float64] to [K / F] for an
    integer [K] that differs from [|v| * F] by a half and the rounding
    error of the product at most. *)
Lemma round_core_decimal (s : bool) (V : Z) :
  representable V -> V < overflow ->
  rnd_units (V * (F * unit)) unit <= 2 ^ 50 * unit ->
  exists K,
    0 <= K <= 2 ^ 50 /\
    div (Round (mul (of_units s V) (of_units false (F * unit))))
        (of_units false (F * unit)) =
    of_units s (rnd_units (K * unit * unit) (F * unit)) /\
    2 ^ 53 * Z.abs (K * unit - V * F) <= 2 ^ 52 * unit + V * F.
Proof.
  intros HVr HVo H1.
  pose proof (F_below F F_range) as HFo.
  pose proof unit_facts as (Hu & Eu & Hbig).
  assert (HV0 : 0 <= V) by apply HVr.
  rewrite mul_of_units by assumption. rewrite xorb_false_r.
  set (I1 := rnd_units (V * (F * unit)) unit) in *.
  assert (H1r : representable I1).
  { apply rnd_units_representable; [|assumption].
    apply Z.mul_nonneg_nonneg; lia. }
  assert (H1o : I1 < overflow).
  { apply Z.le_lt_trans with (1 := H1). reflexivity. }
  rewrite Round_of_units by assumption.
  pose proof (Round_units_le I1 (2 ^ 50) H1) as HK.
  unfold Round_units in *.
  set (K := (I1 + 2 ^ 1073) / unit) in *.
  assert (H10 : 0 <= I1) by apply H1r.
  assert (HK0 : 0 <= K) by (apply Z.div_pos; lia).
  assert (HK50 : K <= 2 ^ 50).
  { apply (Z.mul_le_mono_pos_r _ _ unit Hu). exact HK. }
  exists K. split; [lia|]. split.
  - rewrite div_of_units; [now rewrite xorb_false_r | | assumption | | lia].
    + apply representable_scaled; lia.
    + apply Z.le_lt_trans with (2 ^ 50 * unit); [|reflexivity].
      apply Z.mul_le_mono_nonneg_r; lia.
  - pose proof (Z.div_mod (I1 + 2 ^ 1073) unit ltac:(lia)) as Ed.
    pose proof (Z.mod_pos_bound (I1 + 2 ^ 1073) unit Hu) as Hm.
    fold K in Ed. rewrite (Z.mul_comm unit K) in Ed.
    pose proof (rnd_units_product (V * F) unit ltac:(nia) Hu) as Ep.
    replace (V * F * unit) with (V * (F * unit)) in Ep by ring. fold I1 in Ep.
    set (KU := K * unit) in *. set (VF := V * F) in *.
    rewrite Eu in *. lia.
Qed.

End Factor.

(** Both [round] helpers at a precision [N] from 0 to 22, on a number [v]
    of sign [s] with [|v * 10^N| <= 2^50]: the result is the decimal
    [K / 10^N] for an integer [K] within [1/2 + |v| * 10^N / 2^53] of
    [|v| * 10^N]. *)
Lemma round_decimal (v : float64) (N : Z) (s : bool) :
  signed s v -> 0 <= N <= 22 ->
  leb (SFabs (mul v (Pow ten N))) (of_int (2 ^ 50)) = true ->
  exists K,
    0 <= K <= 2 ^ 50 /\
    handbrake.round v N = Spec.decimal s K N /\
    ffmpeg.round v N = Spec.decimal s K N /\
    2 ^ 53 * Z.abs (K * unit - units v * 10 ^ N) <= 2 ^ 52 * unit + units v * 10 ^ N.
Proof.
  intros Hs HN Hle.
  destruct (pow10_scaled N HN) as [Hr HF].
  pose proof (F_below (10 ^ N) HF) as HFo.
  pose proof unit_facts as (Hu & Eu & Hbig).
  rewrite (Pow_ten_units N HN) in Hle.
  assert (Hcore : exists V, representable V /\ V < overflow /\
                            v = of_units s V /\ units v = V).
  { destruct v as [s'|s'| |s' m e]; simpl in Hs.
    - subst s'. exists 0. repeat split; reflexivity.
    - subst s'.
      destruct (RoundTrip.f_finite (10 ^ N) HF Hr) as (mf & ef & Ef & _).
      rewrite Ef in Hle. destruct s; discriminate Hle.
    - contradiction.
    - destruct Hs as [-> Hv]. exists (units (S754_finite s m e)).
      split; [now apply units_representable|].
      split; [now apply units_lt_overflow|].
      split; [symmetry; now apply of_units_units | reflexivity]. }
  destruct Hcore as (V & HVr & HVo & -> & EV).
  rewrite units_of_units in EV by assumption. clear EV.
  rewrite units_of_units by assumption.
  assert (H1 : rnd_units (V * (10 ^ N * unit)) unit <= 2 ^ 50 * unit).
  { rewrite mul_of_units in Hle by assumption. rewrite xorb_false_r in Hle.
    rewrite SFabs_of_units in Hle.
    set (I1 := rnd_units (V * (10 ^ N * unit)) unit) in *.
    assert (H1r : representable I1).
    { apply rnd_units_representable; [|assumption].
      apply Z.mul_nonneg_nonneg; [apply HVr | lia]. }
    destruct (Z_lt_le_dec I1 overflow) as [Ho|Ho].
    - rewrite of_int_small in Hle by reflexivity.
      change (2 ^ 50 <? 0) with false in Hle.
      change (Z.abs (2 ^ 50)) with (2 ^ 50) in Hle.
      rewrite leb_of_units in Hle;
        [now apply Z.leb_le | assumption | apply representable_scaled; lia
        | assumption | reflexivity].
    - rewrite of_units_overflow in Hle by assumption. discriminate Hle. }
  destruct (round_core_decimal (10 ^ N) HF Hr s V HVr HVo H1) as (K & HK & E & Hnear).
  exists K. split; [assumption|].
  rewrite decimal_units by lia.
  unfold handbrake.round, ffmpeg.round.
  replace (N <? 0) with false by (symmetry; apply Z.ltb_ge; lia).
  cbv zeta. rewrite (Pow_ten_units N HN).
  split; [exact E|]. split; [exact E | exact Hnear].
Qed.

(** A NaN and an infinity pass through [round]. *)
Lemma round_not_finite (v : float64) (N : Z) :
  0 <= N <= 22 ->
  (v = S754_nan \/ exists s, v = S754_infinity s) ->
  handbrake.round v N = v /\ ffmpeg.round v N = v.
Proof.
  intros HN Hv. destruct (RoundAgain.Pow_ten_finite N HN) as (m & e & E & _).
  unfold handbrake.round, ffmpeg.round.
  replace (N <? 0) with false by (symmetry; apply Z.ltb_ge; lia).
  cbv zeta. rewrite E.
  destruct Hv as [->|[[|] ->]]; split; reflexivity.
Qed.

End DecimalFacts.
(** ** The derived sizes *)

Module SizeFacts.
Import F64 UnitFacts OpFacts UnitOrder UnitOrder2 ConvFacts CanonFacts SignFacts.
Import PowFacts IdempotenceFacts DecimalFacts RoundFacts.

(** [CurrentSize / 1048576] is exact for a size below [2^53] bytes. *)
Lemma megabytes_exact (size : Z) :
  0 <= size < 2 ^ 53 ->
  div (of_int size) (of_int 1048576) = of_units false (size * 2 ^ 1054) /\
  representable (size * 2 ^ 1054) /\ size * 2 ^ 1054 < overflow.
Proof.
  intros Hs. pose proof unit_facts as (Hu & Eu & _).
  assert (Hr : representable (size * 2 ^ 1054)) by (apply representable_scaled; lia).
  assert (Ho : size * 2 ^ 1054 < overflow).
  { apply Z.le_lt_trans with (2 ^ 53 * 2 ^ 1054); [|reflexivity].
    apply Z.mul_le_mono_nonneg_r; lia. }
  split; [|now split].
  rewrite !of_int_small by (rewrite Z.abs_eq; lia).
  replace (size <? 0) with false by (symmetry; apply Z.ltb_ge; lia).
  change (1048576 <? 0) with false. rewrite !Z.abs_eq by lia.
  rewrite div_of_units.
  - simpl xorb. f_equal.
    replace (size * unit * unit) with (size * 2 ^ 1054 * (1048576 * unit)).
    + apply rnd_units_exact; [lia | assumption].
    + rewrite Eu. change (2 ^ 1074) with (2 ^ 1054 * 1048576). ring.
  - apply representable_scaled; lia.
  - apply representable_scaled; lia.
  - apply Z.le_lt_trans with (2 ^ 53 * unit); [|reflexivity].
    apply Z.mul_le_mono_nonneg_r; lia.
  - split; [lia | reflexivity].
Qed.

Lemma megabytes_value (size : Z) :
  0 <= size < 2 ^ 53 ->
  signed false (div (of_int size) (of_int 1048576)) /\
  units (div (of_int size) (of_int 1048576)) * 1048576 = size * unit.
Proof.
  intros Hs. destruct (megabytes_exact size Hs) as (-> & Hr & Ho).
  split; [apply of_units_signed; lia|].
  rewrite units_of_units by assumption.
  unfold unit. change (2 ^ 1074) with (2 ^ 1054 * 1048576). ring.
Qed.

(** [round(mb, 1)] in both packages. *)
Lemma round_one_decimal (mb : float64) (s : bool) :
  signed s mb ->
  leb (SFabs (mul mb ten)) (of_int (2 ^ 50)) = true ->
  exists K,
    0 <= K <= 2 ^ 50 /\
    handbrake.round mb 1 = Spec.decimal s K 1 /\
    ffmpeg.round mb 1 = Spec.decimal s K 1 /\
    2 ^ 53 * Z.abs (K * unit - units mb * 10) <= 2 ^ 52 * unit + units mb * 10.
Proof.
  intros Hs Hle. apply (round_decimal mb 1 s Hs); [lia | exact Hle].
Qed.

(** C8, against the claim as stated.  With 114688 bytes written at 31.25
    percent the quotient [EncodedMB / (Percent / 100)] is the [float64]
    nearest to 0.35, which is less than 0.35: three tenths are the decimal
    nearest to it, and what [%.1f] prints for it.  [EstimatedMB] returns
    four tenths, since the product by ten rounds to 3.5. *)
Lemma EstimatedMB_off_the_nearest_decimal :
  let e := {| ffmpeg.Percent := div (of_int 125) (of_int 4); ffmpeg.FPSAvg := zero;
              ffmpeg.ETA := 0; ffmpeg.CurrentSize := 114688 |} in
  let mb := div (ffmpeg.EncodedMB e) (div (ffmpeg.Percent e) hundred) in
  mb = S754_finite false 6305039478318694 (-54) /\
  2 * Z.abs (3 * unit - units mb * 10) < unit /\
  strconv.Sprintf_f 1 mb = "0.3" /\
  ffmpeg.EstimatedMB e = Spec.decimal false 4 1 /\
  strconv.Sprintf_f 1 (ffmpeg.EstimatedMB e) = "0.4" /\
  ffmpeg.EstimatedMB e <> Spec.decimal false 3 1.
Proof.
  cbv zeta. split; [vm_compute; reflexivity|].
  split; [vm_compute; reflexivity|].
  split; [vm_compute; reflexivity|].
  split; [vm_compute; reflexivity|].
  split; [vm_compute; reflexivity|].
  vm_compute. discriminate.
Qed.

(** C8, amended.  In both packages [EstimatedMB] is exactly [+0] when
    [Percent] is a zero, whatever [CurrentSize] is.  Otherwise it is
    [math.Round(mb * 10) / 10] for the quotient
    [mb = EncodedMB / (Percent / 100)]: when [mb] is a number of sign [s]
    with [|mb * 10| <= 2^50], the result is the [float64] nearest to
    [K / 10], with the sign [s], for an integer [K] that differs from
    [|mb| * 10] by at most [1/2 + |mb| * 10 / 2^53]; a NaN and an infinity
    are returned as they are.  [EncodedMB] is [CurrentSize / 1048576],
    without any rounding for a size from 0 to [2^53]. *)
Theorem EstimatedMB_zero_or_decimal :
  (forall e : handbrake.EncodeProgress,
      (0 <= handbrake.CurrentSize e < 2 ^ 53 ->
       signed false (handbrake.EncodedMB e) /\
       units (handbrake.EncodedMB e) * 1048576 = handbrake.CurrentSize e * unit) /\
      ((exists s, handbrake.Percent e = S754_zero s) ->
       handbrake.EstimatedMB e = S754_zero false) /\
      ((forall s, handbrake.Percent e <> S754_zero s) ->
       let mb := div (handbrake.EncodedMB e) (div (handbrake.Percent e) hundred) in
       (forall s, signed s mb ->
                  leb (SFabs (mul mb ten)) (of_int (2 ^ 50)) = true ->
                  exists K,
                    0 <= K <= 2 ^ 50 /\
                    handbrake.EstimatedMB e = Spec.decimal s K 1 /\
                    2 ^ 53 * Z.abs (K * unit - units mb * 10)
                    <= 2 ^ 52 * unit + units mb * 10) /\
       ((mb = S754_nan \/ exists s, mb = S754_infinity s) ->
        handbrake.EstimatedMB e = mb))) /\
  (forall e : ffmpeg.EncodeProgress,
      (0 <= ffmpeg.CurrentSize e < 2 ^ 53 ->
       signed false (ffmpeg.EncodedMB e) /\
       units (ffmpeg.EncodedMB e) * 1048576 = ffmpeg.CurrentSize e * unit) /\
      ((exists s, ffmpeg.Percent e = S754_zero s) ->
       ffmpeg.EstimatedMB e = S754_zero false) /\
      ((forall s, ffmpeg.Percent e <> S754_zero s) ->
       let mb := div (ffmpeg.EncodedMB e) (div (ffmpeg.Percent e) hundred) in
       (forall s, signed s mb ->
                  leb (SFabs (mul mb ten)) (of_int (2 ^ 50)) = true ->
                  exists K,
                    0 <= K <= 2 ^ 50 /\
                    ffmpeg.EstimatedMB e = Spec.decimal s K 1 /\
                    2 ^ 53 * Z.abs (K * unit - units mb * 10)
                    <= 2 ^ 52 * unit + units mb * 10) /\
       ((mb = S754_nan \/ exists s, mb = S754_infinity s) ->
        ffmpeg.EstimatedMB e = mb))).
Proof.
  split; intros e; (split; [intros Hs; now apply megabytes_value|]); split.
  - intros Hz. unfold handbrake.EstimatedMB.
    now rewrite (proj2 (eqb_zero _) Hz).
  - intros Hnz mb. unfold handbrake.EstimatedMB.
    rewrite (eqb_zero_false _ Hnz). fold mb. split.
    + intros s Hs Hle.
      destruct (round_one_decimal mb s Hs Hle) as (K & HK & E & _ & Hnear).
      exists K. now repeat split.
    + intros H. apply (round_not_finite mb 1 ltac:(lia) H).
  - intros Hz. unfold ffmpeg.EstimatedMB.
    now rewrite (proj2 (eqb_zero _) Hz).
  - intros Hnz mb. unfold ffmpeg.EstimatedMB.
    rewrite (eqb_zero_false _ Hnz). fold mb. split.
    + intros s Hs Hle.
      destruct (round_one_decimal mb s Hs Hle) as (K & HK & _ & E & Hnear).
      exists K. now repeat split.
    + intros H. apply (round_not_finite mb 1 ltac:(lia) H).
Qed.

Lemma EstimatedMB_zero_or_decimal_witness :
  handbrake.EstimatedMB
    {| handbrake.Percent := S754_zero true; handbrake.FPSAvg := zero;
       handbrake.ETA := 0; handbrake.CurrentSize := 734003200 |} = S754_zero false /\
  (let e := {| ffmpeg.Percent := of_int 40; ffmpeg.FPSAvg := zero;
               ffmpeg.ETA := 0; ffmpeg.CurrentSize := 734003200 |} in
   let mb := div (ffmpeg.EncodedMB e) (div (ffmpeg.Percent e) hundred) in
   (signed false (ffmpeg.EncodedMB e) /\
    units (ffmpeg.EncodedMB e) * 1048576 = 734003200 * unit) /\
   exists K,
     0 <= K <= 2 ^ 50 /\
     ffmpeg.EstimatedMB e = Spec.decimal false K 1 /\
     2 ^ 53 * Z.abs (K * unit - units mb * 10) <= 2 ^ 52 * unit + units mb * 10).
Proof.
  split.
  - apply (proj1 (proj2 (proj1 EstimatedMB_zero_or_decimal _))).
    now exists true.
  - intros e mb. split.
    + apply (proj1 (proj2 EstimatedMB_zero_or_decimal e)). simpl. lia.
    + apply (proj1 (proj2 (proj2 (proj2 EstimatedMB_zero_or_decimal e))
                     ltac:(intros s; discriminate))).
      * vm_compute. split; reflexivity.
      * vm_compute. reflexivity.
Defined.

End SizeFacts.
(** ** The percent of [iterProgress], line by line *)

Module PercentSpec.
Import F64 RoundingFacts UnitFacts OpFacts OpFacts2.
Import UnitOrder UnitOrder2 ConvFacts CanonFacts SignFacts PowFacts IdempotenceFacts.
Import PercentFacts DecimalFacts.


(** *** [min(100, q)] in units *)




Section Ratio.
(** The time [e] that has elapsed, of magnitude [E], and the total [t]. *)
Variable e t : Z.
Hypothesis t_range : 0 < t < 2 ^ 53.

Let q : float64 := mul (div (of_int e) (of_int t)) hundred.





End Ratio.


(** The half is not all of the distance: with a total of 8800000000000001
    ns and an elapsed time of 1320000000000000 ns the quotient is a little
    less than 1.5 hundredths of a percent, to which 0.01 is nearest, and
    the percent is 0.02. *)
Lemma percent_beside_the_nearest_hundredth :
  let total := 8800000000000001 in
  let ms := 1320000000 in
  0 < total < 2 ^ 53 /\
  2 * Z.abs (1 * total - 10000 * (ms * 1000)) < total /\
  ffmpeg.percent_of ms total = Spec.decimal false 2 2.
Proof. repeat split; vm_compute; reflexivity. Qed.

End PercentSpec.
(** ** The snapshots of [iterProgress], line by line *)

Module SnapshotSpec.
Import F64 ffmpeg ProgressFacts PercentRange ScannerFacts PercentSpec.







Section Snapshots.
Variable now : nat -> Z.
Variable indefinite : float64 -> Z.


End Snapshots.

(** A line too long for the scanner ends the extraction: after a line of
    65536 bytes nothing is yielded, whatever follows. *)
Lemma long_line_ends_the_extraction :
  let long := List.repeat "x"%char (Z.to_nat 65536) in
  let stream := (long ++ [LF] ++ stream_of ["out_time_ms=50000000"])%list in
  collect (iterProgress (fun i => Z.of_nat i) (fun _ => 0) stream (100 * time.Second)) = [].
Proof.
  intros long stream. unfold collect, iterProgress.
  rewrite Scanner_lines_spec.
  assert (E : Spec.lines 65536 stream = []) by (vm_compute; reflexivity).
  rewrite E. reflexivity.
Qed.

(** An [out_time_ms] value whose nanoseconds do not fit an [int64] wraps
    around before the percent is taken. *)
Lemma out_time_beyond_int64_wraps :
  time.wrap_int64 (9223372036854776 * 1000) = -9223372036854775616 /\
  leb zero (percent_of 9223372036854776 (100 * time.Second)) = false.
Proof. split; vm_compute; reflexivity. Qed.



End SnapshotSpec.
(** ** The range of the percent, extractor by extractor *)

Module PercentBounds.
Import F64 ffmpeg ProgressFacts PercentFacts PercentRange ScannerFacts.

(** C3, amended.  The percent of [iterProgress] is a number that is at
    most 100 in every snapshot, whatever the stream, the clock and the
    total duration (an [int64]); it is not negative when the [out_time_ms]
    values of the lines read, taken to nanoseconds in an [int64], are not
    negative.  The percent that [parseProgress] returns with a match is a
    number that is not negative, and never a NaN; nothing bounds it from
    above. *)
Theorem percent_bounds_by_extractor :
  (forall (now : nat -> Z) (indefinite : float64 -> Z)
          (stream : list ascii) (total : time.Duration),
      total <= max_int64 ->
      forallb (fun p => leb (Percent p) hundred)
              (collect (iterProgress now indefinite stream total)) = true /\
      (forallb nonneg_time (Spec.lines 65536 stream) = true ->
       forallb (fun p => leb zero (Percent p))
               (collect (iterProgress now indefinite stream total)) = true)) /\
  (forall (stat : string -> option Z) (line outputPath : string)
          (p : handbrake.EncodeProgress),
      handbrake.parseProgress stat line outputPath = (p, true) ->
      leb zero (handbrake.Percent p) = true /\ is_nan (handbrake.Percent p) = false).
Proof.
  split.
  - intros now indefinite stream total Hmax. split.
    + apply (snapshots_percents now indefinite (fun _ => true) (fun x => leb x hundred));
        [|apply forallb_always].
      intros Hpos text ms _ _. now apply percent_le.
    + intros Hok. rewrite <- Scanner_lines_spec in Hok.
      apply (snapshots_percents now indefinite nonneg_time (fun x => leb zero x));
        [|assumption].
      intros Hpos text ms Hnn E. apply percent_ge; try assumption.
      unfold nonneg_time in Hnn. rewrite E in Hnn. now apply Z.leb_le.
  - intros stat line outputPath p H.
    pose proof (handbrake_percent_ge stat line outputPath p H) as Hge.
    split; [assumption|].
    destruct (handbrake.Percent p); try reflexivity. discriminate Hge.
Qed.

Lemma percent_bounds_by_extractor_witness :
  (let snapshots :=
     collect (iterProgress (fun i => Z.of_nat i) (fun _ => 0)
                (stream_of ["out_time_ms=50000000"; "out_time_ms=990000000"])
                (100 * time.Second)) in
   forallb (fun p => leb (Percent p) hundred) snapshots = true /\
   forallb (fun p => leb zero (Percent p)) snapshots = true) /\
  (let p := fst (handbrake.parseProgress (fun _ => None)
                   "Encoding: task 1 of 1, 250.0 %" "out.mp4") in
   leb zero (handbrake.Percent p) = true /\ is_nan (handbrake.Percent p) = false).
Proof.
  split.
  - intros snapshots.
    destruct (proj1 percent_bounds_by_extractor (fun i => Z.of_nat i) (fun _ => 0)
                (stream_of ["out_time_ms=50000000"; "out_time_ms=990000000"])
                (100 * time.Second)) as [Hle Hge].
    + vm_compute. discriminate.
    + split; [exact Hle | apply Hge; vm_compute; reflexivity].
  - apply (proj2 percent_bounds_by_extractor (fun _ => None)
             "Encoding: task 1 of 1, 250.0 %" "out.mp4").
    vm_compute. reflexivity.
Defined.

End PercentBounds.

(** ** [round] on its own result *)

Module RoundIdempotence.
Import F64 UnitFacts UnitOrder ConvFacts SignFacts PowFacts RoundTrip DecimalFacts.




End RoundIdempotence.
